(** * MinusPod: processing queue, serve path and volume analysis

    A shallow embedding of [src/processing_queue.py], of the serve path of
    [src/main.py], and of [src/audio_analysis/base.py] and
    [src/audio_analysis/volume_analyzer.py].

    Conventions of the embedding:
    - a Python [float] (a time stamp, a loudness in LUFS, a confidence) is
      an exact rational of type [Q]; rounding error, infinities and NaN
      are outside the model;
    - the result of a collaborator that lives outside these files (the
      clock, the status service, ffprobe, ffmpeg, the storage, the RSS
      parser) is an explicit argument of the function that calls it;
    - a Python exception is a value of type [exn] carried by [result];
    - the methods of the process-wide [ProcessingQueue] singleton are
      state transformers on the record [ProcessingQueue.state]. *)

From Stdlib Require Import QArith Qround Qabs Lqa ZArith Lia List Bool String Ascii.
From Stdlib Require Import Sorting.Permutation Sorting.Sorted.
From Equations Require Import Equations.
Import ListNotations.

Set Warnings "-register-all".
Open Scope Q_scope.

(** ** Comparisons on rationals as booleans *)

Definition Qltb (x y : Q) : bool := negb (Qle_bool y x).
Definition Qgtb (x y : Q) : bool := Qltb y x.
Definition Qgeb (x y : Q) : bool := Qle_bool y x.

(** ** [src/processing_queue.py] *)

Module ProcessingQueue.

(** [MAX_JOB_DURATION = 1800]: seconds after which a job is presumed stuck. *)
Definition MAX_JOB_DURATION : Q := 1800.

(** A job is the pair [(slug, episode_id)]. *)
Definition job : Type := (string * string)%type.

Definition job_eqb (a b : job) : bool :=
  (String.eqb (fst a) (fst b) && String.eqb (snd a) (snd b))%bool.

(** The instance attributes set in [__new__]: [_processing_lock] (a
    [threading.Lock], [true] when locked), [_current_episode] and
    [_acquired_at]. *)
Record state : Type := mkState {
  _processing_lock : bool;
  _current_episode : option job;
  _acquired_at : option Q
}.

(** The singleton as [__new__] creates it. *)
Definition new : state := mkState false None None.

(** [threading.Lock.release()]: any thread may release a locked lock;
    releasing an unlocked lock raises [RuntimeError] ([None] here). *)
Definition Lock_release (locked : bool) : option bool :=
  if locked then Some false else None.

(** [try: self._processing_lock.release() except RuntimeError: pass]. *)
Definition release_lock_quietly (locked : bool) : bool :=
  match Lock_release locked with
  | Some l => l
  | None => locked
  end.

(** [threading.Lock.acquire(blocking, timeout)] as one step of one thread:
    a free lock is taken; on a held lock the call returns [False], at once
    when [blocking] is false and after [timeout] otherwise, since no other
    thread runs inside the step.  Returns (acquired, lock afterwards). *)
Definition Lock_acquire (blocking : bool) (timeout : Q) (locked : bool)
  : bool * bool :=
  if locked then (false, true) else (true, true).

(** [_is_stale], with [now] the reading of [time.time()]. *)
Definition _is_stale (now : Q) (s : state) : bool :=
  match _current_episode s, _acquired_at s with
  | Some _, Some t => Qgtb (now - t) MAX_JOB_DURATION
  | _, _ => false
  end.

(** [_force_clear_stale]: returns whether the state was cleared. *)
Definition _force_clear_stale (now : Q) (s : state) : bool * state :=
  if negb (_is_stale now s) then (false, s)
  else (true, mkState (release_lock_quietly (_processing_lock s)) None None).

(** What [StatusService().get_status().current_job] gave: [None] when the
    import or any of the calls raised, [Some cj] when it returned [cj]. *)
Definition status_view : Type := option (option job).

(** [_sync_with_status_service]. *)
Definition _sync_with_status_service (sv : status_view) (s : state) : state :=
  match sv with
  | None => s
  | Some current_job =>
      match current_job, _current_episode s with
      | None, Some _ =>
          mkState (release_lock_quietly (_processing_lock s)) None None
      | _, _ => s
      end
  end.

(** [acquire(slug, episode_id, timeout)]; [now] is the clock reading of the
    staleness check and [t_acq] the later reading stored on success. *)
Definition acquire (slug episode_id : string) (timeout : Q)
    (sv : status_view) (now t_acq : Q) (s : state) : bool * state :=
  let s1 := snd (_force_clear_stale now s) in
  let s2 := _sync_with_status_service sv s1 in
  let '(acquired, l) :=
    Lock_acquire (Qgtb timeout 0)
                 (if Qgtb timeout 0 then timeout else (-1))
                 (_processing_lock s2) in
  if acquired
  then (true, mkState l (Some (slug, episode_id)) (Some t_acq))
  else (false, mkState l (_current_episode s2) (_acquired_at s2)).

(** [release()]. *)
Definition release (s : state) : state :=
  mkState (release_lock_quietly (_processing_lock s)) None None.

(** [get_current()]. *)
Definition get_current (now : Q) (s : state) : option job * state :=
  let s1 := snd (_force_clear_stale now s) in
  (_current_episode s1, s1).

(** [is_processing(slug, episode_id)]. *)
Definition is_processing (slug episode_id : string) (now : Q) (s : state)
  : bool * state :=
  let s1 := snd (_force_clear_stale now s) in
  (match _current_episode s1 with
   | Some current => job_eqb current (slug, episode_id)
   | None => false
   end, s1).

(** [is_busy()]. *)
Definition is_busy (sv : status_view) (now : Q) (s : state) : bool * state :=
  let s1 := snd (_force_clear_stale now s) in
  let s2 := _sync_with_status_service sv s1 in
  (match _current_episode s2 with Some _ => true | None => false end, s2).

(** *** Runs of the queue

    One completed call of a method, with everything it read from outside. *)
Inductive call : Type :=
| CallAcquire (slug episode_id : string) (timeout : Q)
              (sv : status_view) (now t_acq : Q)
| CallRelease
| CallGetCurrent (now : Q)
| CallIsProcessing (slug episode_id : string) (now : Q)
| CallIsBusy (sv : status_view) (now : Q)
| CallForceClearStale (now : Q)
| CallSync (sv : status_view).

Definition exec (c : call) (s : state) : state :=
  match c with
  | CallAcquire slug eid timeout sv now t_acq =>
      snd (acquire slug eid timeout sv now t_acq s)
  | CallRelease => release s
  | CallGetCurrent now => snd (get_current now s)
  | CallIsProcessing slug eid now => snd (is_processing slug eid now s)
  | CallIsBusy sv now => snd (is_busy sv now s)
  | CallForceClearStale now => snd (_force_clear_stale now s)
  | CallSync sv => _sync_with_status_service sv s
  end.

(** The states the singleton can be in after a sequence of completed calls. *)
Inductive reachable : state -> Prop :=
| reach_new : reachable new
| reach_call c s : reachable s -> reachable (exec c s).

(** The lease is empty: no holder, no acquisition time. *)
Definition lease_empty (s : state) : Prop :=
  _current_episode s = None /\ _acquired_at s = None.

(** The token is held exactly when a holder is recorded, and the
    acquisition time is recorded exactly then too. *)
Definition consistent (s : state) : Prop :=
  (_processing_lock s = true <-> _current_episode s <> None) /\
  (_acquired_at s <> None <-> _current_episode s <> None).

End ProcessingQueue.

(** ** Python values, exceptions and dictionaries *)

(** The exceptions the embedded code can meet; all are subclasses of
    Python's [Exception]. *)
Inductive exn : Type :=
| KeyError (key : string)
| TypeError
| ValueError
| AttributeError
| IndexError
| ZeroDivisionError
| TimeoutExpired
| JSONDecodeError
| OSError
| Exception (message : string).

Inductive result (A : Type) : Type :=
| Ok (a : A)
| Raise (e : exn).
Arguments Ok {A} a.
Arguments Raise {A} e.

Definition bind {A B : Type} (r : result A) (k : A -> result B) : result B :=
  match r with
  | Ok a => k a
  | Raise e => Raise e
  end.

Notation "x <- r ;; k" := (bind r (fun x => k))
  (at level 61, r at next level, right associativity).

Fixpoint mapM {A B : Type} (f : A -> result B) (l : list A)
  : result (list B) :=
  match l with
  | [] => Ok []
  | a :: l' => b <- f a ;; bs <- mapM f l' ;; Ok (b :: bs)
  end.

(** The values that go in and out of [to_dict] / [from_dict] and of
    [json.loads]; a [dict] keeps its items in insertion order. *)
Inductive pyval : Type :=
| PyNone
| PyBool (b : bool)
| PyInt (z : Z)
| PyFloat (q : Q)
| PyStr (s : string)
| PyList (l : list pyval)
| PyDict (d : list (string * pyval)).

Definition pydict : Type := list (string * pyval).

(** [key in d]. *)
Fixpoint dict_mem (key : string) (d : pydict) : bool :=
  match d with
  | [] => false
  | (k, _) :: d' => if String.eqb k key then true else dict_mem key d'
  end.

(** [d.get(key)] with [None] for a missing key. *)
Fixpoint dict_find (key : string) (d : pydict) : option pyval :=
  match d with
  | [] => None
  | (k, v) :: d' => if String.eqb k key then Some v else dict_find key d'
  end.

(** [d[key]]. *)
Definition dict_item (key : string) (d : pydict) : result pyval :=
  match dict_find key d with
  | Some v => Ok v
  | None => Raise (KeyError key)
  end.

(** [d.get(key, default)]. *)
Definition dict_get (key : string) (default : pyval) (d : pydict) : pyval :=
  match dict_find key d with
  | Some v => v
  | None => default
  end.

(** Truth value of a Python object in an [if]. *)
Definition truthy (v : pyval) : bool :=
  match v with
  | PyNone => false
  | PyBool b => b
  | PyInt z => negb (Z.eqb z 0)
  | PyFloat q => negb (Qeq_bool q 0)
  | PyStr s => negb (String.eqb s EmptyString)
  | PyList l => match l with [] => false | _ => true end
  | PyDict d => match d with [] => false | _ => true end
  end.

(** Reading a value at the type a dataclass field declares; a value of
    another type is outside the typed records below and reported as
    [TypeError]. *)
Definition as_float (v : pyval) : result Q :=
  match v with PyFloat q => Ok q | _ => Raise TypeError end.
Definition as_int (v : pyval) : result Z :=
  match v with PyInt z => Ok z | _ => Raise TypeError end.
Definition as_bool (v : pyval) : result bool :=
  match v with PyBool b => Ok b | _ => Raise TypeError end.
Definition as_str (v : pyval) : result string :=
  match v with PyStr s => Ok s | _ => Raise TypeError end.
Definition as_dict (v : pyval) : result pydict :=
  match v with PyDict d => Ok d | _ => Raise TypeError end.
Definition as_list (v : pyval) : result (list pyval) :=
  match v with PyList l => Ok l | _ => Raise TypeError end.
Definition as_opt {A : Type} (f : pyval -> result A) (v : pyval)
  : result (option A) :=
  match v with
  | PyNone => Ok None
  | _ => a <- f v ;; Ok (Some a)
  end.

Definition of_opt {A : Type} (f : A -> pyval) (o : option A) : pyval :=
  match o with
  | Some a => f a
  | None => PyNone
  end.

(** ** [src/audio_analysis/base.py] *)

(** [class SignalType(Enum)]. *)
Module SignalType.

Inductive t : Type :=
| VOLUME_INCREASE
| VOLUME_DECREASE
| MUSIC_BED
| MONOLOGUE
| SPEAKER_CHANGE.

Definition value (x : t) : string :=
  match x with
  | VOLUME_INCREASE => "volume_increase"
  | VOLUME_DECREASE => "volume_decrease"
  | MUSIC_BED => "music_bed"
  | MONOLOGUE => "monologue"
  | SPEAKER_CHANGE => "speaker_change"
  end.

End SignalType.

(** [@dataclass class AudioSegmentSignal]. *)
Module AudioSegmentSignal.

Record t : Type := mk {
  start : Q;
  end_ : Q;
  signal_type : string;
  confidence : Q;
  details : pydict
}.

Definition duration (self : t) : Q := end_ self - start self.

Definition overlaps (self other : t) (tolerance : Q) : bool :=
  (Qle_bool (start self) (end_ other + tolerance) &&
   Qgeb (end_ self) (start other - tolerance))%bool.

Definition to_dict (self : t) : pydict :=
  [ ("start", PyFloat (start self));
    ("end", PyFloat (end_ self));
    ("signal_type", PyStr (signal_type self));
    ("confidence", PyFloat (confidence self));
    ("duration", PyFloat (duration self));
    ("details", PyDict (details self)) ]%string.

Definition from_dict (data : pydict) : result t :=
  v_start <- dict_item "start" data ;;
  start <- as_float v_start ;;
  v_end <- dict_item "end" data ;;
  end_ <- as_float v_end ;;
  v_type <- dict_item "signal_type" data ;;
  signal_type <- as_str v_type ;;
  v_conf <- dict_item "confidence" data ;;
  confidence <- as_float v_conf ;;
  details <- as_dict (dict_get "details" (PyDict []) data) ;;
  Ok (mk start end_ signal_type confidence details).

End AudioSegmentSignal.

(** [@dataclass class LoudnessFrame]. *)
Module LoudnessFrame.

Record t : Type := mk {
  start : Q;
  end_ : Q;
  loudness_lufs : Q;
  peak_dbfs : Q
}.

End LoudnessFrame.

(** [@dataclass class ConversationMetrics]. *)
Module ConversationMetrics.

Record t : Type := mk {
  num_speakers : Z;
  speaker_balance : Q;
  avg_turn_duration : Q;
  turn_frequency : Q;
  is_conversational : bool;
  primary_speaker : option string
}.

End ConversationMetrics.

(** [@dataclass class AudioAnalysisResult]. *)
Module AudioAnalysisResult.

Record t : Type := mk {
  signals : list AudioSegmentSignal.t;
  loudness_baseline : option Q;
  speaker_count : option Z;
  conversation_metrics : option ConversationMetrics.t;
  analysis_time_seconds : Q;
  errors : list string
}.

(** The dictionary [to_dict] stores under ['conversation_metrics']. *)
Definition metrics_to_dict (cm : ConversationMetrics.t) : pydict :=
  [ ("num_speakers", PyInt (ConversationMetrics.num_speakers cm));
    ("speaker_balance", PyFloat (ConversationMetrics.speaker_balance cm));
    ("avg_turn_duration", PyFloat (ConversationMetrics.avg_turn_duration cm));
    ("turn_frequency", PyFloat (ConversationMetrics.turn_frequency cm));
    ("is_conversational", PyBool (ConversationMetrics.is_conversational cm));
    ("primary_speaker",
       of_opt PyStr (ConversationMetrics.primary_speaker cm)) ]%string.

(** [to_dict]: a dataclass instance is always true in [if
    self.conversation_metrics], so the key is added whenever the field is
    not [None]. *)
Definition to_dict (self : t) : pydict :=
  let result :=
    [ ("signals",
         PyList (map (fun s => PyDict (AudioSegmentSignal.to_dict s))
                     (signals self)));
      ("loudness_baseline", of_opt PyFloat (loudness_baseline self));
      ("speaker_count", of_opt PyInt (speaker_count self));
      ("analysis_time_seconds", PyFloat (analysis_time_seconds self));
      ("errors", PyList (map PyStr (errors self))) ]%string in
  match conversation_metrics self with
  | Some cm =>
      result ++ [ ("conversation_metrics"%string, PyDict (metrics_to_dict cm)) ]
  | None => result
  end.

(** The [ConversationMetrics(...)] call inside [from_dict]. *)
Definition metrics_from_dict (cm : pydict) : result ConversationMetrics.t :=
  v1 <- dict_item "num_speakers" cm ;;
  num_speakers <- as_int v1 ;;
  v2 <- dict_item "speaker_balance" cm ;;
  speaker_balance <- as_float v2 ;;
  v3 <- dict_item "avg_turn_duration" cm ;;
  avg_turn_duration <- as_float v3 ;;
  v4 <- dict_item "turn_frequency" cm ;;
  turn_frequency <- as_float v4 ;;
  v5 <- dict_item "is_conversational" cm ;;
  is_conversational <- as_bool v5 ;;
  primary_speaker <- as_opt as_str (dict_get "primary_speaker" PyNone cm) ;;
  Ok (ConversationMetrics.mk num_speakers speaker_balance avg_turn_duration
        turn_frequency is_conversational primary_speaker).

Definition from_dict (data : pydict) : result t :=
  l <- as_list (dict_get "signals" (PyList []) data) ;;
  signals <- mapM (fun s => d <- as_dict s ;; AudioSegmentSignal.from_dict d) l ;;
  conversation_metrics <-
    (if (dict_mem "conversation_metrics" data &&
         truthy (dict_get "conversation_metrics" PyNone data))%bool
     then
       cm <- as_dict (dict_get "conversation_metrics" PyNone data) ;;
       m <- metrics_from_dict cm ;;
       Ok (Some m)
     else Ok None) ;;
  loudness_baseline <- as_opt as_float (dict_get "loudness_baseline" PyNone data) ;;
  speaker_count <- as_opt as_int (dict_get "speaker_count" PyNone data) ;;
  analysis_time_seconds <-
    as_float (dict_get "analysis_time_seconds" (PyFloat 0) data) ;;
  le <- as_list (dict_get "errors" (PyList []) data) ;;
  errors <- mapM as_str le ;;
  Ok (mk signals loudness_baseline speaker_count conversation_metrics
         analysis_time_seconds errors).

End AudioAnalysisResult.

(** ** Python built-ins used by the analyzer *)

(** [min(a, b)]: the first argument unless the second is smaller. *)
Definition py_min (a b : Q) : Q := if Qltb b a then b else a.

(** [sum(l)]: starts at [0] and adds from the left. *)
Definition py_sum (l : list Q) : Q := fold_left Qplus l 0.

(** [a / b] on floats. *)
Definition py_div (a b : Q) : result Q :=
  if Qeq_bool b 0 then Raise ZeroDivisionError else Ok (a / b).

(** Rounding to the nearest integer, ties to the even one. *)
Definition round_half_even (x : Q) : Z :=
  let f := Qfloor x in
  let r := x - inject_Z f in
  if Qltb r (1 # 2) then f
  else if Qltb (1 # 2) r then (f + 1)%Z
  else if Z.even f then f else (f + 1)%Z.

(** [round(x, 1)]. *)
Definition py_round1 (x : Q) : Q := inject_Z (round_half_even (x * 10)) / 10.

(** [l.sort()] on floats: a stable insertion into the sorted part. *)
Fixpoint insert_sorted (x : Q) (l : list Q) : list Q :=
  match l with
  | [] => [x]
  | y :: l' => if Qle_bool x y then x :: l else y :: insert_sorted x l'
  end.

Fixpoint py_sort (l : list Q) : list Q :=
  match l with
  | [] => []
  | x :: l' => insert_sorted x (py_sort l')
  end.

(** [l[i]] for [0 <= i]. *)
Definition list_item {A : Type} (l : list A) (i : nat) : result A :=
  match nth_error l i with
  | Some a => Ok a
  | None => Raise IndexError
  end.

(** [l[-1]]. *)
Definition list_last {A : Type} (l : list A) : result A :=
  match rev l with
  | a :: _ => Ok a
  | [] => Raise IndexError
  end.

(** [s.rfind(c)]: the highest index of [c] in [s], or [-1]. *)
Fixpoint rfind_from (c : ascii) (s : string) (i acc : Z) : Z :=
  match s with
  | EmptyString => acc
  | String a s' => rfind_from c s' (i + 1)%Z (if Ascii.eqb a c then i else acc)
  end.

Definition rfind (c : ascii) (s : string) : Z := rfind_from c s 0%Z (-1)%Z.

(** [s[i:j]] for [0 <= i < j]. *)
Definition slice (s : string) (i j : Z) : string :=
  substring (Z.to_nat i) (Z.to_nat (j - i)) s.

(** [v[key]] on an arbitrary object. *)
Definition py_subscript (key : string) (v : pyval) : result pyval :=
  match v with
  | PyDict d => dict_item key d
  | _ => Raise TypeError
  end.

(** [v.get(key, default)] on an arbitrary object. *)
Definition py_get (key : string) (default : pyval) (v : pyval) : result pyval :=
  match v with
  | PyDict d => Ok (dict_get key default d)
  | _ => Raise AttributeError
  end.

(** What [subprocess.run(..., capture_output=True, text=True)] returns. *)
Record completed : Type := Completed {
  returncode : Z;
  stdout : string;
  stderr : string
}.

(** ** [src/audio_analysis/volume_analyzer.py] *)

Module VolumeAnalyzer.

(** The attributes set by [__init__]. *)
Record t : Type := mk {
  frame_duration : Q;
  anomaly_threshold_db : Q;
  min_anomaly_duration : Q
}.

(** [VolumeAnalyzer()] with the default arguments [5.0], [3.0], [15.0]. *)
Definition default : t := mk 5 3 15.

(** *** [_find_anomalies] *)

(** The local variables of the loop. *)
Record scan : Type := mkScan {
  anomalies : list AudioSegmentSignal.t;
  in_anomaly : bool;
  anomaly_start : Q;
  anomaly_type : string;
  deviations : list Q
}.

Definition scan_init : scan := mkScan [] false 0 EmptyString [].

(** The block under [if duration >= self.min_anomaly_duration] (it occurs
    twice in the source, with [anomaly_end] the only difference): the
    anomalies after the run that started at [anomaly_start st] is closed
    at [anomaly_end]. *)
Definition close_anomaly (self : t) (baseline : Q) (st : scan)
    (anomaly_end : Q) : result (list AudioSegmentSignal.t) :=
  let duration := anomaly_end - anomaly_start st in
  if Qgeb duration (min_anomaly_duration self) then
    avg_deviation <-
      py_div (py_sum (deviations st))
             (inject_Z (Z.of_nat (List.length (deviations st)))) ;;
    let confidence := py_min ((1 # 2) + avg_deviation / 10) (95 # 100) in
    let signal_type :=
      if String.eqb (anomaly_type st) "increase"
      then SignalType.value SignalType.VOLUME_INCREASE
      else SignalType.value SignalType.VOLUME_DECREASE in
    Ok (anomalies st ++
        [ AudioSegmentSignal.mk (anomaly_start st) anomaly_end signal_type
            confidence
            [ ("deviation_db", PyFloat (py_round1 avg_deviation));
              ("baseline_lufs", PyFloat (py_round1 baseline));
              ("direction", PyStr (anomaly_type st)) ]%string ])
  else Ok (anomalies st).

(** The body of [for frame in frames]. *)
Definition scan_frame (self : t) (baseline : Q) (st : scan)
    (frame : LoudnessFrame.t) : result scan :=
  let deviation := LoudnessFrame.loudness_lufs frame - baseline in
  if Qgtb (Qabs deviation) (anomaly_threshold_db self) then
    let st1 :=
      if negb (in_anomaly st)
      then mkScan (anomalies st) true (LoudnessFrame.start frame)
             (if Qgtb deviation 0 then "increase" else "decrease") []
      else st in
    Ok (mkScan (anomalies st1) (in_anomaly st1) (anomaly_start st1)
          (anomaly_type st1) (deviations st1 ++ [Qabs deviation]))
  else if in_anomaly st then
    anomalies' <- close_anomaly self baseline st (LoudnessFrame.start frame) ;;
    Ok (mkScan anomalies' false (anomaly_start st) (anomaly_type st)
          (deviations st))
  else Ok st.

Fixpoint scan_frames (self : t) (baseline : Q) (st : scan)
    (frames : list LoudnessFrame.t) : result scan :=
  match frames with
  | [] => Ok st
  | frame :: frames' =>
      st' <- scan_frame self baseline st frame ;;
      scan_frames self baseline st' frames'
  end.

Definition _find_anomalies (self : t) (frames : list LoudnessFrame.t)
    (baseline : Q) : result (list AudioSegmentSignal.t) :=
  st <- scan_frames self baseline scan_init frames ;;
  if (in_anomaly st && match frames with [] => false | _ => true end)%bool
  then
    last_frame <- list_last frames ;;
    close_anomaly self baseline st (LoudnessFrame.end_ last_frame)
  else Ok (anomalies st).

(** *** Measurements, with the collaborators as parameters *)

Section Collaborators.

(** [json.loads]. *)
Variable json_loads : string -> result pyval.

(** [float(s)] on a string. *)
Variable float_of_string : string -> result Q.

(** [float(v)]. *)
Definition py_float (v : pyval) : result Q :=
  match v with
  | PyFloat q => Ok q
  | PyInt z => Ok (inject_Z z)
  | PyBool b => Ok (if b then 1 else 0)
  | PyStr s => float_of_string s
  | PyNone | PyList _ | PyDict _ => Raise TypeError
  end.

(** [_get_duration]; [run] is what [subprocess.run] of ffprobe did. *)
Definition _get_duration (run : result completed) : option Q :=
  let body :=
    result_ <- run ;;
    if negb (Z.eqb (returncode result_) 0) then Ok None
    else
      data <- json_loads (stdout result_) ;;
      format <- py_subscript "format" data ;;
      duration <- py_subscript "duration" format ;;
      d <- py_float duration ;;
      Ok (Some d) in
  match body with
  | Ok o => o
  | Raise _ => None
  end.

(** The [try] block of [_measure_frame]: [Ok None] when it falls through
    without returning. *)
Definition measure_frame_try (run : result completed)
  : result (option (Q * Q)) :=
  result_ <- run ;;
  let stderr := stderr result_ in
  let json_start := rfind "{" stderr in
  let json_end := (rfind "}" stderr + 1)%Z in
  if ((json_start >=? 0)%Z && (json_end >? json_start)%Z)%bool then
    data <- json_loads (slice stderr json_start json_end) ;;
    input_i <- py_get "input_i" (PyInt (-24)) data ;;
    loudness <- py_float input_i ;;
    input_tp <- py_get "input_tp" (PyInt (-1)) data ;;
    peak <- py_float input_tp ;;
    Ok (Some (loudness, peak))
  else Ok None.

(** [_measure_frame]: the three [except] clauses only log, then control
    reaches [return -24.0, -1.0]. *)
Definition _measure_frame (run : result completed) : result (Q * Q) :=
  match measure_frame_try run with
  | Ok (Some measured) => Ok measured
  | Ok None => Ok (-24, -1)
  | Raise TimeoutExpired => Ok (-24, -1)
  | Raise JSONDecodeError => Ok (-24, -1)
  | Raise _ => Ok (-24, -1)
  end.

(** [ffmpeg start duration]: what [subprocess.run] of ffmpeg does for the
    window that starts at [start] and lasts [duration]. *)
Variable ffmpeg : Q -> Q -> result completed.

(** The [while] loop of [_measure_loudness_frames]; [None] when [fuel]
    iterations were not enough. *)
Fixpoint measure_loop (fuel : nat) (self : t) (total_duration : Q)
    (current_time : Q) (frames : list LoudnessFrame.t)
  : option (result (list LoudnessFrame.t)) :=
  match fuel with
  | O => None
  | S fuel' =>
      if Qltb current_time total_duration then
        let frame_duration' :=
          py_min (frame_duration self) (total_duration - current_time) in
        if Qltb frame_duration' 1 then Some (Ok frames)
        else
          match _measure_frame (ffmpeg current_time frame_duration') with
          | Raise e => Some (Raise e)
          | Ok (loudness, peak) =>
              measure_loop fuel' self total_duration
                (current_time + frame_duration self)
                (frames ++
                 [ LoudnessFrame.mk current_time
                     (current_time + frame_duration') loudness peak ])
          end
      else Some (Ok frames)
  end.

(** Iterations that always suffice: a frame is kept only when at least one
    second is left, and then the window is at least one second long. *)
Definition enough_fuel (total_duration : Q) : nat :=
  S (Z.to_nat (Qceiling total_duration)).

Definition _measure_loudness_frames (self : t) (total_duration : Q)
  : option (result (list LoudnessFrame.t)) :=
  measure_loop (enough_fuel total_duration) self total_duration 0 [].

(** [loudness_values] of [analyze], before sorting. *)
Definition loudness_values (frames : list LoudnessFrame.t) : list Q :=
  filter (fun l => Qgtb l (-70)) (map LoudnessFrame.loudness_lufs frames).

(** Lines 69 to 90 of [analyze]: what it does with the measured frames. *)
Definition analyze_frames (self : t) (frames : list LoudnessFrame.t)
  : result (list AudioSegmentSignal.t * option Q) :=
  match frames with
  | [] => Ok ([], None)
  | _ =>
      match loudness_values frames with
      | [] => Ok ([], None)
      | values =>
          let sorted := py_sort values in
          let mid := (List.length sorted / 2)%nat in
          baseline <- list_item sorted mid ;;
          anomalies <- _find_anomalies self frames baseline ;;
          Ok (anomalies, Some baseline)
      end
  end.

(** [analyze]; [path_exists] is [os.path.exists(audio_path)] and [ffprobe]
    what [subprocess.run] of ffprobe did. *)
Definition analyze (self : t) (path_exists : bool)
    (ffprobe : result completed)
  : option (result (list AudioSegmentSignal.t * option Q)) :=
  if negb path_exists then Some (Ok ([], None))
  else
    match _get_duration ffprobe with
    | None => Some (Ok ([], None))
    | Some duration =>
        if Qltb duration (frame_duration self) then Some (Ok ([], None))
        else
          match _measure_loudness_frames self duration with
          | None => None
          | Some (Raise e) => Some (Raise e)
          | Some (Ok frames) => Some (analyze_frames self frames)
          end
    end.

End Collaborators.

End VolumeAnalyzer.

(** ** The anomaly rule of the specification

    Written from the specification's words, to be compared with
    [VolumeAnalyzer._find_anomalies]: the frames are cut into maximal runs
    of consecutive frames that deviate from the baseline by more than the
    threshold, and each run that lasts long enough gives one signal. *)

Module AnomalySpec.

Section Rule.

Variable self : VolumeAnalyzer.t.
Variable baseline : Q.

Definition deviation (f : LoudnessFrame.t) : Q :=
  LoudnessFrame.loudness_lufs f - baseline.

(** [|deviation| > thresholdDB]. *)
Definition deviates (f : LoudnessFrame.t) : bool :=
  Qgtb (Qabs (deviation f)) (VolumeAnalyzer.anomaly_threshold_db self).

(** The frames that continue a run, and what is left after them. *)
Fixpoint run_rest (frames : list LoudnessFrame.t) : list LoudnessFrame.t :=
  match frames with
  | f :: frames' => if deviates f then f :: run_rest frames' else []
  | [] => []
  end.

Fixpoint after_run (frames : list LoudnessFrame.t) : list LoudnessFrame.t :=
  match frames with
  | f :: frames' => if deviates f then after_run frames' else frames
  | [] => []
  end.

(** A run: its first frame, the frames that continue it, and the frame
    that ends it ([None] when the run is still open at the last frame). *)
Record run : Type := mkRun {
  first : LoudnessFrame.t;
  others : list LoudnessFrame.t;
  closing : option LoudnessFrame.t
}.

Definition run_frames (r : run) : list LoudnessFrame.t := first r :: others r.

(** The runs of a frame sequence, in time order. *)
Equations? runs (frames : list LoudnessFrame.t) : list run
  by wf (List.length frames) lt :=
runs [] := [];
runs (f :: frames') with deviates f := {
  | true := mkRun f (run_rest frames') (hd_error (after_run frames'))
              :: runs (after_run frames');
  | false := runs frames' }.
Proof.
  all: simpl; try lia.
  assert (H : (List.length (after_run frames') <= List.length frames')%nat).
  { clear. induction frames' as [|g l IH]; simpl; [lia|].
    destruct (deviates g); simpl; lia. }
  lia.
Qed.

Definition run_start (r : run) : Q := LoudnessFrame.start (first r).

(** The run ends where the closing frame starts; an open run is closed at
    the end time of the last frame. *)
Definition run_end (r : run) : Q :=
  match closing r with
  | Some g => LoudnessFrame.start g
  | None => LoudnessFrame.end_ (last (others r) (first r))
  end.

Definition run_duration (r : run) : Q := run_end r - run_start r.

(** The direction comes from the sign of the first deviation. *)
Definition direction (r : run) : string :=
  if Qgtb (deviation (first r)) 0 then "increase" else "decrease".

Definition run_signal_type (r : run) : string :=
  if Qgtb (deviation (first r)) 0 then "volume_increase" else "volume_decrease".

(** The mean of [|deviation|] over the frames of the run. *)
Definition mean_deviation (r : run) : Q :=
  py_sum (map (fun f => Qabs (deviation f)) (run_frames r))
  / inject_Z (Z.of_nat (List.length (run_frames r))).

Definition run_confidence (r : run) : Q :=
  py_min ((1 # 2) + mean_deviation r / 10) (95 # 100).

Definition run_signal (r : run) : AudioSegmentSignal.t :=
  AudioSegmentSignal.mk (run_start r) (run_end r) (run_signal_type r)
    (run_confidence r)
    [ ("deviation_db", PyFloat (py_round1 (mean_deviation r)));
      ("baseline_lufs", PyFloat (py_round1 baseline));
      ("direction", PyStr (direction r)) ]%string.

(** A run is reported exactly when it lasts at least
    [min_anomaly_duration]. *)
Definition reported (r : run) : bool :=
  Qgeb (run_duration r) (VolumeAnalyzer.min_anomaly_duration self).

Definition emitted (frames : list LoudnessFrame.t)
  : list AudioSegmentSignal.t :=
  map run_signal (filter reported (runs frames)).

End Rule.

End AnomalySpec.

(** ** [src/main.py]: the serve path *)

Module Main.

(** What a request handler answers. *)
Inductive response : Type :=
| SendFile (slug episode_id : string)
| Redirect (location : string)
| Abort (code : Z).

(** The entry [data['episodes'][episode_id]] of a podcast's data file, as
    far as the serve path reads and writes it. *)
Record episode_info : Type := mkInfo {
  status : option string;
  original_url : option string
}.

(** The state shared by all requests of the process: the processing queue
    singleton and the stored episode entries. *)
Record world : Type := mkWorld {
  queue : ProcessingQueue.state;
  episodes : string -> string -> option episode_info
}.

Definition save_episode (w : world) (slug episode_id : string)
    (info : episode_info) : world :=
  mkWorld (queue w)
    (fun s e =>
       if (String.eqb s slug && String.eqb e episode_id)%bool
       then Some info else episodes w s e).

(** An episode as [rss_parser.extract_episodes] lists it. *)
Record feed_episode : Type := mkEpisode {
  ep_id : string;
  ep_url : string;
  ep_title : option string
}.

(** What the collaborators deliver while one request is served. *)
Record collaborators : Type := mkCollaborators {
  slug_in_FEED_MAP : bool;
  slug_in_FEED_MAP_after_refresh : bool;
  episode_id_valid : bool;
  processed_file_exists : bool;
  cached_rss : bool;
  original_feed : bool;
  feed_episodes : list feed_episode;
  transcript_exists : bool;
  download_audio : bool;
  transcribe : bool;
  detect_ads : result nat;
  ffmpeg_process : bool;
  processed_file_exists_after : bool
}.

(** The steps of the pipeline that were run. *)
Inductive stage : Type :=
| MarkProcessing
| Download
| Transcribe
| DetectAds
| CutAudio
| MarkProcessed
| MarkFailed.

Definition raise_unless (b : bool) (message : string) : result unit :=
  if b then Ok tt else Raise (Exception message).

(** The [try] block of [process_episode], with the stages it went through. *)
Definition pipeline (c : collaborators) : result unit * list stage :=
  let got_audio :=
    if transcript_exists c
    then (raise_unless (download_audio c) "Failed to download audio",
          [Download])
    else
      match raise_unless (download_audio c) "Failed to download audio" with
      | Raise e => (Raise e, [Download])
      | Ok _ =>
          (raise_unless (transcribe c) "Failed to transcribe audio",
           [Download; Transcribe])
      end in
  match got_audio with
  | (Raise e, stages) => (Raise e, stages)
  | (Ok _, stages) =>
      match detect_ads c with
      | Raise e => (Raise e, stages ++ [DetectAds])
      | Ok _ =>
          (raise_unless (ffmpeg_process c) "Failed to process audio with FFMPEG",
           stages ++ [DetectAds; CutAudio])
      end
  end.

(** [process_episode]. *)
Definition process_episode (slug episode_id episode_url : string)
    (c : collaborators) (w : world) : bool * world * list stage :=
  let w1 := save_episode w slug episode_id
              (mkInfo (Some "processing"%string) (Some episode_url)) in
  match pipeline c with
  | (Ok _, stages) =>
      (true,
       save_episode w1 slug episode_id
         (mkInfo (Some "processed"%string) (Some episode_url)),
       MarkProcessing :: stages ++ [MarkProcessed])
  | (Raise _, stages) =>
      (false,
       save_episode w1 slug episode_id
         (mkInfo (Some "failed"%string) (Some episode_url)),
       MarkProcessing :: stages ++ [MarkFailed])
  end.

(** The [for ep in episodes] search of [serve_episode]. *)
Fixpoint find_episode (episode_id : string) (l : list feed_episode)
  : option feed_episode :=
  match l with
  | [] => None
  | ep :: l' =>
      if String.eqb (ep_id ep) episode_id then Some ep
      else find_episode episode_id l'
  end.

(** From [# Status is None or unknown - need to process] to the end of
    [serve_episode]. *)
Definition serve_by_processing (slug episode_id : string)
    (c : collaborators) (w : world) : response * world * list stage :=
  if negb (cached_rss c) then (Abort 404, w, [])
  else if negb (original_feed c) then (Abort 503, w, [])
  else
    let original_url :=
      match find_episode episode_id (feed_episodes c) with
      | Some ep => ep_url ep
      | None => EmptyString
      end in
    if String.eqb original_url EmptyString then (Abort 404, w, [])
    else
      let '(ok, w', stages) :=
        process_episode slug episode_id original_url c w in
      if (ok && processed_file_exists_after c)%bool
      then (SendFile slug episode_id, w', stages)
      else (Redirect original_url, w', stages).

(** [status == literal], for a status that may be [None]. *)
Definition status_is (st : option string) (literal : string) : bool :=
  match st with
  | Some s => String.eqb s literal
  | None => false
  end.

(** [serve_episode]. *)
Definition serve_episode (slug episode_id : string)
    (c : collaborators) (w : world) : response * world * list stage :=
  if (negb (slug_in_FEED_MAP c) &&
      negb (slug_in_FEED_MAP_after_refresh c))%bool
  then (Abort 404, w, [])
  else if negb (episode_id_valid c) then (Abort 400, w, [])
  else
    let episode_info :=
      match episodes w slug episode_id with
      | Some info => info
      | None => mkInfo None None
      end in
    let status := status episode_info in
    if status_is status "processed" then
      if processed_file_exists c then (SendFile slug episode_id, w, [])
      else serve_by_processing slug episode_id c w
    else if status_is status "failed" then
      match original_url episode_info with
      | Some url =>
          if String.eqb url EmptyString then (Abort 404, w, [])
          else (Redirect url, w, [])
      | None => (Abort 404, w, [])
      end
    else if status_is status "processing" then (Abort 503, w, [])
    else serve_by_processing slug episode_id c w.

(** The request reaches the call of [process_episode]: the podcast is
    known, the episode id is well formed, the stored status asks for
    processing, and the feed lists the episode with a URL. *)
Definition needs_processing (slug episode_id : string)
    (c : collaborators) (w : world) : Prop :=
  (slug_in_FEED_MAP c = true \/ slug_in_FEED_MAP_after_refresh c = true) /\
  episode_id_valid c = true /\
  (match episodes w slug episode_id with
   | Some info =>
       status info = None \/
       (status info = Some "processed"%string /\ processed_file_exists c = false)
   | None => True
   end) /\
  cached_rss c = true /\
  original_feed c = true /\
  (exists ep, find_episode episode_id (feed_episodes c) = Some ep /\
              ep_url ep <> EmptyString).

End Main.

(** ** The example of the specification

    Eight frames of five seconds with loudness
    [-24, -24, -24, -10, -10, -10, -24, -24]. *)

Definition example_frames : list LoudnessFrame.t :=
  [ LoudnessFrame.mk 0 5 (-24) (-1);
    LoudnessFrame.mk 5 10 (-24) (-1);
    LoudnessFrame.mk 10 15 (-24) (-1);
    LoudnessFrame.mk 15 20 (-10) (-1);
    LoudnessFrame.mk 20 25 (-10) (-1);
    LoudnessFrame.mk 25 30 (-10) (-1);
    LoudnessFrame.mk 30 35 (-24) (-1);
    LoudnessFrame.mk 35 40 (-24) (-1) ].

(** The signal over the three [-10] frames. *)
Definition example_signal : AudioSegmentSignal.t :=
  AudioSegmentSignal.mk 15 30 "volume_increase" 0.95
    [ ("deviation_db", PyFloat 14.0);
      ("baseline_lufs", PyFloat (-24.0));
      ("direction", PyStr "increase") ]%string.

(** ** Medians and failed measurements, as the specification speaks of them *)

(** How many values of [l] satisfy [p]. *)
Fixpoint count_if (p : Q -> bool) (l : list Q) : nat :=
  match l with
  | [] => O
  | v :: l' => if p v then S (count_if p l') else count_if p l'
  end.

Definition count_le (c : Q) (l : list Q) : nat :=
  count_if (fun v => Qle_bool v c) l.
Definition count_lt (c : Q) (l : list Q) : nat :=
  count_if (fun v => Qltb v c) l.
Definition count_ge (c : Q) (l : list Q) : nat :=
  count_if (fun v => Qle_bool c v) l.

(** [b] is a median of [l]: one of its values, with at least half of the
    values at or below it and at least half at or above it. *)
Definition is_median (b : Q) (l : list Q) : Prop :=
  In b l /\
  (List.length l <= 2 * count_le b l)%nat /\
  (List.length l <= 2 * count_ge b l)%nat.

(** The ways the measurement of one frame fails: [subprocess.run] raises
    (a timeout or anything else), the output of ffmpeg holds no JSON
    object, the JSON does not parse, or some other step of the [try] block
    raises. *)
Inductive measurement_fails (json_loads : string -> result pyval)
    (float_of_string : string -> result Q) : result completed -> Prop :=
| fails_timeout :
    measurement_fails json_loads float_of_string (Raise TimeoutExpired)
| fails_run e :
    measurement_fails json_loads float_of_string (Raise e)
| fails_no_json c :
    (rfind "{" (stderr c) < 0 \/
     rfind "}" (stderr c) + 1 <= rfind "{" (stderr c))%Z ->
    measurement_fails json_loads float_of_string (Ok c)
| fails_bad_json c e :
    json_loads (slice (stderr c) (rfind "{" (stderr c))
                  (rfind "}" (stderr c) + 1)%Z) = Raise e ->
    measurement_fails json_loads float_of_string (Ok c)
| fails_inside c e :
    VolumeAnalyzer.measure_frame_try json_loads float_of_string (Ok c)
      = Raise e ->
    measurement_fails json_loads float_of_string (Ok c).

(** The inputs for which [analyze] has nothing to report: the audio file
    is missing, its duration is unknown or shorter than one frame, no
    frame was measured, or every frame is at or below -70 LUFS. *)
Inductive no_signal_input (json_loads : string -> result pyval)
    (float_of_string : string -> result Q)
    (ffmpeg : Q -> Q -> result completed) (self : VolumeAnalyzer.t)
  : bool -> result completed -> Prop :=
| missing_file ffprobe :
    no_signal_input json_loads float_of_string ffmpeg self false ffprobe
| unknown_duration path_exists ffprobe :
    VolumeAnalyzer._get_duration json_loads float_of_string ffprobe = None ->
    no_signal_input json_loads float_of_string ffmpeg self path_exists ffprobe
| shorter_than_a_frame path_exists ffprobe duration :
    VolumeAnalyzer._get_duration json_loads float_of_string ffprobe
      = Some duration ->
    duration < VolumeAnalyzer.frame_duration self ->
    no_signal_input json_loads float_of_string ffmpeg self path_exists ffprobe
| no_frames path_exists ffprobe duration :
    VolumeAnalyzer._get_duration json_loads float_of_string ffprobe
      = Some duration ->
    VolumeAnalyzer._measure_loudness_frames json_loads float_of_string ffmpeg
      self duration = Some (Ok []) ->
    no_signal_input json_loads float_of_string ffmpeg self path_exists ffprobe
| all_silent path_exists ffprobe duration frames :
    VolumeAnalyzer._get_duration json_loads float_of_string ffprobe
      = Some duration ->
    VolumeAnalyzer._measure_loudness_frames json_loads float_of_string ffmpeg
      self duration = Some (Ok frames) ->
    Forall (fun f => LoudnessFrame.loudness_lufs f <= -70) frames ->
    no_signal_input json_loads float_of_string ffmpeg self path_exists ffprobe.

(** ** More of [src/audio_analysis/base.py]: queries on a result *)

Module ResultQueries.

(** [AudioAnalysisResult.get_signals_in_range]. *)
Definition get_signals_in_range (self : AudioAnalysisResult.t)
    (start end_ : Q) : list AudioSegmentSignal.t :=
  filter (fun s => (Qltb (AudioSegmentSignal.start s) end_ &&
                    Qgtb (AudioSegmentSignal.end_ s) start)%bool)
         (AudioAnalysisResult.signals self).

(** [AudioAnalysisResult.get_signals_by_type]. *)
Definition get_signals_by_type (self : AudioAnalysisResult.t)
    (signal_type : string) : list AudioSegmentSignal.t :=
  filter (fun s => String.eqb (AudioSegmentSignal.signal_type s) signal_type)
         (AudioAnalysisResult.signals self).

End ResultQueries.

(** ** [src/ad_detector.py] *)

(** [s.find(c)]: the lowest index of [c] in [s], or [-1]. *)
Fixpoint find_from (c : ascii) (s : string) (i : Z) : Z :=
  match s with
  | EmptyString => (-1)%Z
  | String a s' => if Ascii.eqb a c then i else find_from c s' (i + 1)%Z
  end.

Definition find (c : ascii) (s : string) : Z := find_from c s 0%Z.

(** Whether [f"{v:.1f}"] can format [v]. *)
Definition format_1f (v : pyval) : result unit :=
  match v with
  | PyFloat _ | PyInt _ | PyBool _ => Ok tt
  | PyStr _ => Raise ValueError
  | PyNone | PyList _ | PyDict _ => Raise TypeError
  end.

(** [isinstance(v, dict) and 'start' in v and 'end' in v]. *)
Definition is_ad_entry (v : pyval) : bool :=
  match v with
  | PyDict d => (dict_mem "start" d && dict_mem "end" d)%bool
  | _ => false
  end.

Module AdDetector.

(** The attribute [api_key] after [__init__] (the argument, or the
    environment variable when the argument is empty or absent). *)
Record t : Type := mk {
  api_key : option string
}.

(** [not self.api_key]. *)
Definition no_key (self : t) : bool :=
  match api_key self with
  | Some k => String.eqb k EmptyString
  | None => true
  end.

Section Collaborators.

(** [json.loads], [float(s)] on a string and [str(e)] on an exception. *)
Variable json_loads : string -> result pyval.
Variable float_of_string : string -> result Q.
Variable str_of_exn : exn -> string.

(** What [initialize_client] does: it raises when the client cannot be
    built. *)
Variable initialize_client : result unit.

(** What [self.client.messages.create] gives: an exception, a response
    without content ([None]), or the text of its first content block. *)
Variable create : result (option string).

(** One turn of [for segment in segments]: the three subscripts and the
    two [:.1f] formats of the f-string. *)
Definition transcript_line (segment : pydict) : result unit :=
  start <- dict_item "start" segment ;;
  end_ <- dict_item "end" segment ;;
  _ <- dict_item "text" segment ;;
  _ <- format_1f start ;;
  format_1f end_.

(** The body of [for ad in ads]. *)
Fixpoint validate (ads : list pyval) : result (list pyval) :=
  match ads with
  | [] => Ok []
  | ad :: ads' =>
      if is_ad_entry ad then
        v_start <- py_subscript "start" ad ;;
        start <- VolumeAnalyzer.py_float float_of_string v_start ;;
        v_end <- py_subscript "end" ad ;;
        end_ <- VolumeAnalyzer.py_float float_of_string v_end ;;
        reason <- py_get "reason" (PyStr "Advertisement detected") ad ;;
        valid_ads <- validate ads' ;;
        Ok (PyDict [ ("start", PyFloat start);
                     ("end", PyFloat end_);
                     ("reason", reason) ]%string :: valid_ads)
      else validate ads'
  end.

Definition MODEL : string := "claude-sonnet-4-5-20250929".

(** The inner [try] of [detect_ads], from [start_idx = ...], with its
    [except json.JSONDecodeError] clause: [Ok None] when it falls through
    without a [return]. *)
Definition parse_response (response_text : string) : result (option pyval) :=
  let inner :=
    let start_idx := find "[" response_text in
    let end_idx := (rfind "]" response_text + 1)%Z in
    if ((start_idx >=? 0)%Z && (end_idx >? start_idx)%Z)%bool then
      ads <- json_loads (slice response_text start_idx end_idx) ;;
      match ads with
      | PyList ads =>
          valid_ads <- validate ads ;;
          Ok (Some (PyDict [ ("ads", PyList valid_ads);
                             ("raw_response", PyStr response_text);
                             ("model", PyStr MODEL) ]%string))
      | _ => Ok None
      end
    else
      Ok (Some (PyDict [ ("ads", PyList []);
                         ("raw_response", PyStr response_text);
                         ("error", PyStr "No JSON found") ]%string)) in
  match inner with
  | Raise JSONDecodeError =>
      Ok (Some (PyDict [ ("ads", PyList []);
                         ("raw_response", PyStr response_text);
                         ("error", PyStr (str_of_exn JSONDecodeError)) ]%string))
  | other => other
  end.

(** [detect_ads]; a function that ends without [return] gives [None]. *)
Definition detect_ads (self : t) (segments : list pydict) : pyval :=
  if no_key self then PyList []
  else
    let body :=
      _ <- initialize_client ;;
      _ <- mapM transcript_line segments ;;
      response <- create ;;
      let response_text :=
        match response with
        | Some text => text
        | None => EmptyString
        end in
      parse_response response_text in
    match body with
    | Ok (Some v) => v
    | Ok None => PyNone
    | Raise e =>
        PyDict [ ("ads", PyList []); ("error", PyStr (str_of_exn e)) ]%string
    end.

(** [process_transcript]. *)
Definition process_transcript (self : t) (segments : list pydict) : pyval :=
  match detect_ads self segments with
  | PyNone =>
      PyDict [ ("ads", PyList []); ("error", PyStr "Detection failed") ]%string
  | result_ => result_
  end.

End Collaborators.

End AdDetector.

(** What [process_episode] of [src/main.py] does with the value of
    [ad_detector.process_transcript]: [ads = ad_result.get('ads', [])],
    the sum of [ad['end'] - ad['start']] when [ads] is not empty, and
    [len(ads)]. *)
Definition ad_duration (ad : pyval) : result Q :=
  v_end <- py_subscript "end" ad ;;
  v_start <- py_subscript "start" ad ;;
  match v_end, v_start with
  | PyFloat e, PyFloat s => Ok (e - s)
  | _, _ => Raise TypeError
  end.

Definition ads_removed (ad_result : pyval) : result nat :=
  ads <- py_get "ads" (PyList []) ad_result ;;
  match ads with
  | PyList l => _ <- mapM ad_duration l ;; Ok (List.length l)
  | _ => Raise TypeError
  end.

(** A valid entry of the list under ["ads"]. *)
Definition valid_ad (v : pyval) : Prop :=
  exists start end_ reason,
    v = PyDict [ ("start", PyFloat start); ("end", PyFloat end_);
                 ("reason", reason) ]%string.

(** ** Well-formed frame sequences *)

(** Frame starts increase strictly along the sequence. *)
Definition starts_increase (frames : list LoudnessFrame.t) : Prop :=
  StronglySorted
    (fun f g => LoudnessFrame.start f < LoudnessFrame.start g) frames.

(** [d] without the key [key] (what [del d[key]] leaves). *)
Definition dict_remove (key : string) (d : pydict) : pydict :=
  filter (fun kv => negb (String.eqb (fst kv) key)) d.

(** [c in s] for a character and a string. *)
Fixpoint occurs (c : ascii) (s : string) : bool :=
  match s with
  | EmptyString => false
  | String a s' => if Ascii.eqb a c then true else occurs c s'
  end.

(** * Properties *)

(** ** Boolean comparisons on rationals *)

Lemma Qltb_lt x y : Qltb x y = true <-> x < y.
Proof.
  unfold Qltb. rewrite negb_true_iff.
  split; intro H.
  - apply Qnot_le_lt. intro Hle. apply Qle_bool_iff in Hle. congruence.
  - destruct (Qle_bool y x) eqn:E; [|reflexivity].
    apply Qle_bool_iff in E. exfalso. apply (Qlt_not_le _ _ H E).
Qed.

Lemma Qltb_ge x y : Qltb x y = false <-> y <= x.
Proof.
  unfold Qltb. rewrite negb_false_iff. apply Qle_bool_iff.
Qed.

Lemma Qgtb_gt x y : Qgtb x y = true <-> y < x.
Proof. apply Qltb_lt. Qed.

Lemma Qgtb_le x y : Qgtb x y = false <-> x <= y.
Proof. apply Qltb_ge. Qed.

Lemma Qgeb_ge x y : Qgeb x y = true <-> y <= x.
Proof. apply Qle_bool_iff. Qed.

Lemma Qgeb_lt x y : Qgeb x y = false <-> x < y.
Proof.
  unfold Qgeb. split; intro H.
  - apply Qnot_le_lt. intro Hle. apply Qle_bool_iff in Hle. congruence.
  - destruct (Qle_bool y x) eqn:E; [|reflexivity].
    apply Qle_bool_iff in E. exfalso. apply (Qlt_not_le _ _ H E).
Qed.

(** ** The processing queue *)

Module QueueFacts.

Import ProcessingQueue.

(** Releasing quietly always leaves the lock free. *)
Lemma release_lock_quietly_free l : release_lock_quietly l = false.
Proof. destruct l; reflexivity. Qed.

Lemma is_stale_true now s j t :
  _current_episode s = Some j -> _acquired_at s = Some t ->
  MAX_JOB_DURATION < now - t -> _is_stale now s = true.
Proof.
  intros Hj Ht Hlt. unfold _is_stale. rewrite Hj, Ht.
  apply Qgtb_gt. exact Hlt.
Qed.

Lemma is_stale_false now s j t :
  _current_episode s = Some j -> _acquired_at s = Some t ->
  now - t <= MAX_JOB_DURATION -> _is_stale now s = false.
Proof.
  intros Hj Ht Hle. unfold _is_stale. rewrite Hj, Ht.
  apply Qgtb_le. exact Hle.
Qed.

Lemma force_clear_stale_when_stale now s :
  _is_stale now s = true -> _force_clear_stale now s = (true, new).
Proof.
  intro H. unfold _force_clear_stale. rewrite H. simpl.
  rewrite release_lock_quietly_free. reflexivity.
Qed.

Lemma force_clear_stale_when_fresh now s :
  _is_stale now s = false -> _force_clear_stale now s = (false, s).
Proof. intro H. unfold _force_clear_stale. rewrite H. reflexivity. Qed.

Lemma sync_new sv : _sync_with_status_service sv new = new.
Proof. destruct sv as [[j|]|]; reflexivity. Qed.

Lemma sync_reports_free s j :
  _current_episode s = Some j ->
  _sync_with_status_service (Some None) s = new.
Proof.
  intro H. unfold _sync_with_status_service. rewrite H.
  rewrite release_lock_quietly_free. reflexivity.
Qed.

Lemma sync_keeps sv s :
  sv <> Some None -> _sync_with_status_service sv s = s.
Proof.
  intro H. destruct sv as [[j|]|]; try reflexivity. congruence.
Qed.

Lemma acquire_from_new slug eid timeout t_acq :
  (let '(acquired, l) :=
     Lock_acquire (Qgtb timeout 0) (if Qgtb timeout 0 then timeout else (-1))
       (_processing_lock new) in
   if acquired
   then (true, mkState l (Some (slug, eid)) (Some t_acq))
   else (false, mkState l (_current_episode new) (_acquired_at new)))
  = (true, mkState true (Some (slug, eid)) (Some t_acq)).
Proof. reflexivity. Qed.

(** Every method keeps the token and the lease in step. *)
Lemma consistent_new : consistent new.
Proof. unfold consistent, new; simpl. split; split; congruence. Qed.

Lemma consistent_force_clear now s :
  consistent s -> consistent (snd (_force_clear_stale now s)).
Proof.
  intro H. unfold _force_clear_stale.
  destruct (_is_stale now s); simpl; [|exact H].
  rewrite release_lock_quietly_free. exact consistent_new.
Qed.

Lemma consistent_sync sv s :
  consistent s -> consistent (_sync_with_status_service sv s).
Proof.
  intro H. unfold _sync_with_status_service.
  destruct sv as [[j|]|]; try exact H.
  destruct (_current_episode s); [|exact H].
  rewrite release_lock_quietly_free. exact consistent_new.
Qed.

Lemma consistent_lock_attempt slug eid timeout t_acq s :
  consistent s ->
  consistent
    (snd (let '(acquired, l) :=
            Lock_acquire (Qgtb timeout 0)
              (if Qgtb timeout 0 then timeout else (-1)) (_processing_lock s) in
          if acquired
          then (true, mkState l (Some (slug, eid)) (Some t_acq))
          else (false, mkState l (_current_episode s) (_acquired_at s)))).
Proof.
  intros [Hl Ht]. unfold Lock_acquire, consistent.
  destruct (_processing_lock s) eqn:E; simpl.
  - split; [|exact Ht]. split; intro; [apply Hl|]; reflexivity.
  - split; split; congruence.
Qed.

Lemma consistent_exec c s : consistent s -> consistent (exec c s).
Proof.
  intro H. destruct c; simpl.
  - unfold acquire. apply consistent_lock_attempt.
    apply consistent_sync, consistent_force_clear, H.
  - unfold release. rewrite release_lock_quietly_free. exact consistent_new.
  - apply consistent_force_clear, H.
  - apply consistent_force_clear, H.
  - apply consistent_sync, consistent_force_clear, H.
  - apply consistent_force_clear, H.
  - apply consistent_sync, H.
Qed.

(** C4. After every completed call of the queue ([acquire], [release],
    [get_current], [is_processing], [is_busy], and the staleness clear and
    the reconciliation with the status service on their own), starting
    from the fresh singleton, the lock is held if and only if a holder is
    recorded (and the acquisition time is recorded exactly then).  A call
    is one step: no second thread runs in the middle of it. *)
Theorem token_held_iff_holder s :
  reachable s ->
  (_processing_lock s = true <-> _current_episode s <> None) /\
  (_acquired_at s <> None <-> _current_episode s <> None).
Proof.
  intro H. change (consistent s).
  induction H as [|c s _ IH].
  - exact consistent_new.
  - apply consistent_exec, IH.
Qed.

Lemma token_held_iff_holder_witness :
  let s :=
    exec (CallAcquire "pod" "ep2" 0 None 2000 2001)
      (exec (CallIsBusy (Some (Some ("pod", "ep1")%string)) 10)
         (exec (CallAcquire "pod" "ep1" 0 None 0 0) new)) in
  reachable s /\
  (_processing_lock s = true <-> _current_episode s <> None) /\
  (_acquired_at s <> None <-> _current_episode s <> None).
Proof.
  assert (R : reachable
    (exec (CallAcquire "pod" "ep2" 0 None 2000 2001)
      (exec (CallIsBusy (Some (Some ("pod", "ep1")%string)) 10)
         (exec (CallAcquire "pod" "ep1" 0 None 0 0) new)))).
  { do 3 apply reach_call. apply reach_new. }
  split; [exact R|].
  exact (token_held_iff_holder _ R).
Defined.

(** *** Staleness and reconciliation *)

(** What the three calls do to a stale lease. *)
Lemma stale_calls now s :
  _is_stale now s = true ->
  get_current now s = (None, new) /\
  (forall sv, is_busy sv now s = (false, new)) /\
  (forall slug eid timeout sv t_acq,
     acquire slug eid timeout sv now t_acq s
     = (true, mkState true (Some (slug, eid)) (Some t_acq))).
Proof.
  intro H. repeat split.
  - unfold get_current. rewrite (force_clear_stale_when_stale _ _ H).
    reflexivity.
  - intro sv. unfold is_busy.
    rewrite (force_clear_stale_when_stale _ _ H). simpl snd.
    rewrite sync_new. reflexivity.
  - intros. unfold acquire.
    rewrite (force_clear_stale_when_stale _ _ H). simpl snd.
    rewrite sync_new. reflexivity.
Qed.

(** What the three calls do to a lease inside the window. *)
Lemma fresh_calls now s j :
  _current_episode s = Some j ->
  _is_stale now s = false ->
  get_current now s = (Some j, s) /\
  (forall sv, sv <> Some None -> is_busy sv now s = (true, s)) /\
  (forall slug eid timeout sv t_acq,
     sv <> Some None -> _processing_lock s = true ->
     acquire slug eid timeout sv now t_acq s = (false, s)) /\
  is_busy (Some None) now s = (false, new) /\
  (forall slug eid timeout t_acq,
     acquire slug eid timeout (Some None) now t_acq s
     = (true, mkState true (Some (slug, eid)) (Some t_acq))).
Proof.
  intros Hj H. repeat split.
  - unfold get_current. rewrite (force_clear_stale_when_fresh _ _ H).
    simpl. rewrite Hj. reflexivity.
  - intros sv Hsv. unfold is_busy.
    rewrite (force_clear_stale_when_fresh _ _ H). simpl snd.
    rewrite (sync_keeps _ _ Hsv), Hj. reflexivity.
  - intros slug eid timeout sv t_acq Hsv Hl. unfold acquire.
    rewrite (force_clear_stale_when_fresh _ _ H). simpl snd.
    rewrite (sync_keeps _ _ Hsv), Hl. simpl.
    destruct s; simpl in *. rewrite Hl. reflexivity.
  - unfold is_busy. rewrite (force_clear_stale_when_fresh _ _ H). simpl snd.
    rewrite (sync_reports_free _ _ Hj). reflexivity.
  - intros. unfold acquire.
    rewrite (force_clear_stale_when_fresh _ _ H). simpl snd.
    rewrite (sync_reports_free _ _ Hj). reflexivity.
Qed.

(** C3, as stated, fails: a lease that is only ten seconds old is cleared
    by [is_busy], and replaced by [acquire], when the status service
    reports that no job is running. *)
Lemma fresh_lease_cleared_by_reconciliation :
  let j := ("pod", "ep1")%string in
  let s := mkState true (Some j) (Some 0) in
  _current_episode s = Some j /\
  _acquired_at s = Some 0 /\
  10 - 0 <= MAX_JOB_DURATION /\
  lease_empty (snd (is_busy (Some None) 10 s)) /\
  _current_episode (snd (acquire "pod" "ep2" 0 (Some None) 10 11 s)) <> Some j.
Proof.
  cbv zeta. repeat split.
  - unfold MAX_JOB_DURATION, Qle; simpl; lia.
  - simpl. discriminate.
Qed.

(** C3, amended.  Let a holder be recorded with acquisition time [t].
    If [now - t] exceeds [MAX_JOB_DURATION], the next [get_current] or
    [is_busy] empties the lease and frees the lock although [release] was
    never called, and the next [acquire] drops the stale lease and grants
    the slot to its caller.  If [now - t] is within the window,
    [get_current] leaves the lease as it is, and so do [is_busy] and, on a
    held lock, [acquire], unless the status service reports that no job
    is running: then the reconciliation clears the lease all the same. *)
Theorem stale_lease_cleared_by_next_call s j t now :
  _current_episode s = Some j ->
  _acquired_at s = Some t ->
  (MAX_JOB_DURATION < now - t ->
     get_current now s = (None, new) /\
     (forall sv, is_busy sv now s = (false, new)) /\
     (forall slug eid timeout sv t_acq,
        acquire slug eid timeout sv now t_acq s
        = (true, mkState true (Some (slug, eid)) (Some t_acq)))) /\
  (now - t <= MAX_JOB_DURATION ->
     get_current now s = (Some j, s) /\
     (forall sv, sv <> Some None -> is_busy sv now s = (true, s)) /\
     (forall slug eid timeout sv t_acq,
        sv <> Some None -> _processing_lock s = true ->
        acquire slug eid timeout sv now t_acq s = (false, s)) /\
     is_busy (Some None) now s = (false, new) /\
     (forall slug eid timeout t_acq,
        acquire slug eid timeout (Some None) now t_acq s
        = (true, mkState true (Some (slug, eid)) (Some t_acq)))).
Proof.
  intros Hj Ht. split; intro H.
  - apply stale_calls. exact (is_stale_true _ _ _ _ Hj Ht H).
  - apply fresh_calls; [exact Hj|]. exact (is_stale_false _ _ _ _ Hj Ht H).
Qed.

Lemma stale_lease_cleared_by_next_call_witness :
  let j := ("pod", "ep1")%string in
  let s := mkState true (Some j) (Some 100) in
  (get_current 2000 s = (None, new) /\
   is_busy None 2000 s = (false, new) /\
   acquire "pod" "ep2" 0 None 2000 2001 s
   = (true, mkState true (Some ("pod", "ep2")%string) (Some 2001))) /\
  (get_current 500 s = (Some j, s) /\
   is_busy None 500 s = (true, s) /\
   acquire "pod" "ep2" 0 None 500 501 s = (false, s)).
Proof.
  cbv zeta.
  pose proof (stale_lease_cleared_by_next_call
                (mkState true (Some ("pod", "ep1")%string) (Some 100))
                ("pod", "ep1")%string 100 2000 eq_refl eq_refl) as [Hs _].
  pose proof (stale_lease_cleared_by_next_call
                (mkState true (Some ("pod", "ep1")%string) (Some 100))
                ("pod", "ep1")%string 100 500 eq_refl eq_refl) as [_ Hf].
  assert (H1 : MAX_JOB_DURATION < 2000 - 100).
  { unfold MAX_JOB_DURATION, Qlt; simpl; lia. }
  assert (H2 : 500 - 100 <= MAX_JOB_DURATION).
  { unfold MAX_JOB_DURATION, Qle; simpl; lia. }
  destruct (Hs H1) as (A1 & A2 & A3).
  destruct (Hf H2) as (B1 & B2 & B3 & _).
  split; [split; [exact A1 | split; [apply A2 | apply A3]]|].
  split; [exact B1 | split; [apply B2; discriminate |]].
  apply B3; [discriminate | reflexivity].
Defined.

(** *** Release *)

(** [release] leaves the fresh state, whatever it was given. *)
Lemma release_is_unconditional s : release s = new.
Proof. unfold release. rewrite release_lock_quietly_free. reflexivity. Qed.

(** C2, as stated, fails: job 1 acquires at time 0 and hangs; at time 2000
    its lease is force-cleared and job 2 acquires; when job 1 then calls
    [release], the holder recorded for job 2 is erased and the lock job 2
    holds is freed. *)
Lemma late_release_erases_new_holder :
  let job2 := ("pod", "ep2")%string in
  let s1 := snd (acquire "pod" "ep1" 0 None 0 0 new) in
  let s2 := snd (acquire "pod" "ep2" 0 None 2000 2000 s1) in
  let s3 := release s2 in
  _is_stale 2000 s1 = true /\
  fst (acquire "pod" "ep2" 0 None 2000 2000 s1) = true /\
  _current_episode s2 = Some job2 /\
  _processing_lock s2 = true /\
  _current_episode s3 <> Some job2 /\
  _processing_lock s3 <> true.
Proof.
  cbv zeta. repeat split; try reflexivity; simpl; discriminate.
Qed.

(** C2, amended.  If a job's lease is force-cleared by staleness and a
    second job then acquires the lease, the second job is recorded as
    holder with the lock held; a later [release], which takes no job
    identity and makes no ownership check, empties the lease and frees the
    lock whoever calls it, so the first job's completion erases the second
    job's holder record and frees its token. *)
Theorem release_has_no_ownership_check s job1 t0 slug2 eid2 timeout sv now t_acq :
  _current_episode s = Some job1 ->
  _acquired_at s = Some t0 ->
  MAX_JOB_DURATION < now - t0 ->
  let r := acquire slug2 eid2 timeout sv now t_acq s in
  fst r = true /\
  snd r = mkState true (Some (slug2, eid2)) (Some t_acq) /\
  release (snd r) = mkState false None None /\
  (forall s', release s' = mkState false None None).
Proof.
  intros Hj Ht Hlt r.
  pose proof (is_stale_true _ _ _ _ Hj Ht Hlt) as Hs.
  destruct (stale_calls _ _ Hs) as (_ & _ & Ha).
  subst r. rewrite Ha. simpl.
  repeat split; try reflexivity; intros; apply release_is_unconditional.
Qed.

Lemma release_has_no_ownership_check_witness :
  let s := mkState true (Some ("pod", "ep1")%string) (Some 0) in
  let r := acquire "pod" "ep2" 0 None 2000 2000 s in
  fst r = true /\
  snd r = mkState true (Some ("pod", "ep2")%string) (Some 2000) /\
  release (snd r) = mkState false None None /\
  (forall s', release s' = mkState false None None).
Proof.
  apply (release_has_no_ownership_check
           (mkState true (Some ("pod", "ep1")%string) (Some 0))
           ("pod", "ep1")%string 0 "pod" "ep2" 0 None 2000 2000);
    reflexivity.
Defined.

End QueueFacts.

(** ** Serialization of the analysis records *)

Module BaseFacts.

Lemma signal_roundtrip s :
  AudioSegmentSignal.from_dict (AudioSegmentSignal.to_dict s) = Ok s.
Proof. destruct s; reflexivity. Qed.

Lemma metrics_roundtrip cm :
  AudioAnalysisResult.metrics_from_dict (AudioAnalysisResult.metrics_to_dict cm)
  = Ok cm.
Proof. destruct cm as [n b a f c [p|]]; reflexivity. Qed.

Lemma signals_roundtrip l :
  mapM (fun s => d <- as_dict s ;; AudioSegmentSignal.from_dict d)
       (map (fun s => PyDict (AudioSegmentSignal.to_dict s)) l)
  = Ok l.
Proof.
  induction l as [|s l IH]; [reflexivity|].
  cbn [map mapM]. rewrite IH.
  cbn [as_dict bind]. rewrite signal_roundtrip. reflexivity.
Qed.

Lemma errors_roundtrip l : mapM as_str (map PyStr l) = Ok l.
Proof.
  induction l as [|s l IH]; [reflexivity|].
  cbn [map mapM]. rewrite IH. reflexivity.
Qed.

Lemma result_roundtrip r :
  AudioAnalysisResult.from_dict (AudioAnalysisResult.to_dict r) = Ok r.
Proof.
  destruct r as [sigs lb sc cm ats errs].
  unfold AudioAnalysisResult.from_dict, AudioAnalysisResult.to_dict.
  destruct cm as [cm|]; cbn -[mapM AudioAnalysisResult.metrics_from_dict
                               AudioAnalysisResult.metrics_to_dict];
    rewrite signals_roundtrip;
    cbn -[mapM AudioAnalysisResult.metrics_from_dict
          AudioAnalysisResult.metrics_to_dict];
    try rewrite metrics_roundtrip;
    cbn -[mapM];
    destruct lb, sc; cbn -[mapM]; rewrite errors_roundtrip; reflexivity.
Qed.

(** C8. [from_dict (to_dict s)] gives back every field of an
    [AudioSegmentSignal] ([start], [end], [signal_type], [confidence],
    [details]), and an [AudioAnalysisResult] comes back from
    [to_dict] / [from_dict] with the same [ConversationMetrics]: all six
    fields when it has metrics, and [None] when it has none. *)
Theorem to_dict_from_dict_preserves_fields :
  (forall s : AudioSegmentSignal.t,
     exists s', AudioSegmentSignal.from_dict (AudioSegmentSignal.to_dict s) = Ok s' /\
       AudioSegmentSignal.start s' = AudioSegmentSignal.start s /\
       AudioSegmentSignal.end_ s' = AudioSegmentSignal.end_ s /\
       AudioSegmentSignal.signal_type s' = AudioSegmentSignal.signal_type s /\
       AudioSegmentSignal.confidence s' = AudioSegmentSignal.confidence s /\
       AudioSegmentSignal.details s' = AudioSegmentSignal.details s) /\
  (forall sigs baseline speakers (cm : ConversationMetrics.t) seconds errs,
     let r := AudioAnalysisResult.mk sigs baseline speakers (Some cm)
                seconds errs in
     exists r' cm',
       AudioAnalysisResult.from_dict (AudioAnalysisResult.to_dict r) = Ok r' /\
       AudioAnalysisResult.conversation_metrics r' = Some cm' /\
       ConversationMetrics.num_speakers cm' = ConversationMetrics.num_speakers cm /\
       ConversationMetrics.speaker_balance cm' = ConversationMetrics.speaker_balance cm /\
       ConversationMetrics.avg_turn_duration cm' = ConversationMetrics.avg_turn_duration cm /\
       ConversationMetrics.turn_frequency cm' = ConversationMetrics.turn_frequency cm /\
       ConversationMetrics.is_conversational cm' = ConversationMetrics.is_conversational cm /\
       ConversationMetrics.primary_speaker cm' = ConversationMetrics.primary_speaker cm) /\
  (forall r : AudioAnalysisResult.t,
     AudioAnalysisResult.from_dict (AudioAnalysisResult.to_dict r) = Ok r).
Proof.
  split; [|split].
  - intro s. exists s. rewrite signal_roundtrip. repeat split.
  - intros sigs baseline speakers cm seconds errs r. exists r, cm.
    rewrite result_roundtrip. repeat split.
  - exact result_roundtrip.
Qed.

End BaseFacts.

(** ** The volume analyzer *)

Module AnomalyFacts.

Import VolumeAnalyzer.

Section Scan.

Variable self : VolumeAnalyzer.t.
Variable baseline : Q.

Local Abbreviation deviates := (AnomalySpec.deviates self baseline).
Local Abbreviation deviation := (AnomalySpec.deviation baseline).
Local Abbreviation run_rest := (AnomalySpec.run_rest self baseline).
Local Abbreviation after_run := (AnomalySpec.after_run self baseline).
Local Abbreviation runs := (AnomalySpec.runs self baseline).
Local Abbreviation emitted := (AnomalySpec.emitted self baseline).
Local Abbreviation absdev := (fun f => Qabs (AnomalySpec.deviation baseline f)).

(** *** Unfolding the runs of the specification *)

Lemma runs_nil : runs [] = [].
Proof. now simp runs. Qed.

Lemma runs_cons_quiet f frames :
  deviates f = false -> runs (f :: frames) = runs frames.
Proof. intro H. simp runs. rewrite H. reflexivity. Qed.

Lemma runs_cons_loud f frames :
  deviates f = true ->
  runs (f :: frames)
  = AnomalySpec.mkRun f (run_rest frames) (hd_error (after_run frames))
      :: runs (after_run frames).
Proof. intro H. simp runs. rewrite H. reflexivity. Qed.

Lemma run_rest_after_run frames : frames = run_rest frames ++ after_run frames.
Proof.
  induction frames as [|f frames IH]; [reflexivity|].
  simpl. destruct (deviates f); simpl; [f_equal; exact IH | reflexivity].
Qed.

Lemma run_rest_all_deviate frames :
  Forall (fun f => deviates f = true) (run_rest frames).
Proof.
  induction frames as [|f frames IH]; simpl; [constructor|].
  destruct (deviates f) eqn:E; constructor; assumption.
Qed.

Lemma after_run_head_quiet frames g tail :
  after_run frames = g :: tail -> deviates g = false.
Proof.
  induction frames as [|f frames IH]; simpl; [discriminate|].
  destruct (deviates f) eqn:E; [exact IH|].
  intro H. injection H as <- _. exact E.
Qed.

Lemma after_run_shorter frames :
  (List.length (after_run frames) <= List.length frames)%nat.
Proof.
  induction frames as [|f frames IH]; simpl; [lia|].
  destruct (deviates f); simpl; lia.
Qed.

Lemma after_run_nil frames : after_run frames = [] -> run_rest frames = frames.
Proof.
  intro H. rewrite (run_rest_after_run frames) at 2. rewrite H.
  symmetry. apply app_nil_r.
Qed.

(** *** One step of the loop, case by case *)

Ltac scan_step H :=
  unfold scan_frame; cbv zeta;
  unfold AnomalySpec.deviates, AnomalySpec.deviation in H;
  rewrite H.

Lemma scan_frames_app st l1 l2 :
  scan_frames self baseline st (l1 ++ l2)
  = (st' <- scan_frames self baseline st l1 ;;
     scan_frames self baseline st' l2).
Proof.
  revert st. induction l1 as [|f l1 IH]; intro st; [reflexivity|].
  simpl. destruct (scan_frame self baseline st f) as [st'|e]; simpl;
    [apply IH | reflexivity].
Qed.

Lemma scan_frame_quiet st g :
  deviates g = false -> in_anomaly st = false ->
  scan_frame self baseline st g = Ok st.
Proof.
  intros Hg Hst. scan_step Hg. rewrite Hst. reflexivity.
Qed.

Lemma scan_frame_start st f :
  deviates f = true -> in_anomaly st = false ->
  scan_frame self baseline st f
  = Ok (mkScan (anomalies st) true (LoudnessFrame.start f)
          (if Qgtb (deviation f) 0 then "increase" else "decrease")
          [absdev f]).
Proof.
  intros Hf Hst. scan_step Hf. rewrite Hst. reflexivity.
Qed.

Lemma scan_frames_inside st l :
  in_anomaly st = true ->
  Forall (fun f => deviates f = true) l ->
  scan_frames self baseline st l
  = Ok (mkScan (anomalies st) true (anomaly_start st) (anomaly_type st)
          (deviations st ++ map absdev l)).
Proof.
  intros Hst Hl. revert st Hst.
  induction Hl as [|f l Hf _ IH]; intros st Hst.
  - simpl. rewrite app_nil_r. destruct st; simpl in *. now rewrite Hst.
  - destruct st as [acc inside t0 ty devs]. simpl in Hst. subst inside.
    simpl. scan_step Hf. simpl.
    rewrite IH by reflexivity. simpl. rewrite <- app_assoc. reflexivity.
Qed.

Lemma scan_frame_close st g :
  deviates g = false -> in_anomaly st = true ->
  scan_frame self baseline st g
  = (anomalies' <- close_anomaly self baseline st (LoudnessFrame.start g) ;;
     Ok (mkScan anomalies' false (anomaly_start st) (anomaly_type st)
           (deviations st))).
Proof.
  intros Hg Hst. scan_step Hg. rewrite Hst. reflexivity.
Qed.

(** Closing the run [r] that the loop has been following. *)
Lemma count_nonzero {A : Type} (a : A) (l : list A) :
  Qeq_bool (inject_Z (Z.of_nat (List.length (a :: l)))) 0 = false.
Proof.
  destruct (Qeq_bool _ 0) eqn:E; [|reflexivity].
  apply Qeq_bool_iff in E. unfold Qeq in E. simpl in E. lia.
Qed.

Lemma close_anomaly_run acc r e :
  AnomalySpec.run_end r = e ->
  close_anomaly self baseline
    (mkScan acc true (LoudnessFrame.start (AnomalySpec.first r))
       (AnomalySpec.direction baseline r)
       (map absdev (AnomalySpec.run_frames r))) e
  = Ok (acc ++ map (AnomalySpec.run_signal baseline)
                   (filter (AnomalySpec.reported self) [r])).
Proof.
  intros <-. unfold close_anomaly. cbn [anomaly_start deviations anomalies
                                         anomaly_type filter].
  change (Qgeb _ _) with (AnomalySpec.reported self r).
  destruct (AnomalySpec.reported self r); [|now rewrite app_nil_r].
  unfold py_div. rewrite length_map.
  replace (Qeq_bool
             (inject_Z (Z.of_nat (List.length (AnomalySpec.run_frames r)))) 0)
    with false
    by (symmetry;
        apply (count_nonzero (AnomalySpec.first r) (AnomalySpec.others r))).
  cbn [bind map].
  f_equal. f_equal. f_equal.
  unfold AnomalySpec.run_signal. f_equal.
  unfold AnomalySpec.run_signal_type, AnomalySpec.direction.
  destruct (Qgtb _ 0); reflexivity.
Qed.

(** *** The loop follows the runs *)

Lemma emitted_cons_quiet f frames :
  deviates f = false -> emitted (f :: frames) = emitted frames.
Proof.
  intro H. unfold AnomalySpec.emitted. now rewrite (runs_cons_quiet _ _ H).
Qed.

Lemma emitted_cons_loud f frames :
  deviates f = true ->
  emitted (f :: frames)
  = map (AnomalySpec.run_signal baseline)
      (filter (AnomalySpec.reported self)
         [AnomalySpec.mkRun f (run_rest frames) (hd_error (after_run frames))])
    ++ emitted (after_run frames).
Proof.
  intro H. unfold AnomalySpec.emitted. rewrite (runs_cons_loud _ _ H).
  cbn [filter]. destruct (AnomalySpec.reported self _); reflexivity.
Qed.

Ltac follow_run r :=
  lazymatch goal with
  | |- context [close_anomaly ?a ?b (mkScan ?acc true ?t0 ?ty ?devs) ?e] =>
      change (close_anomaly a b (mkScan acc true t0 ty devs) e)
        with (close_anomaly a b
                (mkScan acc true (LoudnessFrame.start (AnomalySpec.first r))
                   (AnomalySpec.direction b r)
                   (map (fun f => Qabs (AnomalySpec.deviation b f))
                      (AnomalySpec.run_frames r))) e)
  end.

Lemma scan_follows_runs n :
  forall frames st e,
    (List.length frames <= n)%nat ->
    in_anomaly st = false ->
    (forall l x, frames = l ++ [x] -> e = LoudnessFrame.end_ x) ->
    (st' <- scan_frames self baseline st frames ;;
     if in_anomaly st' then close_anomaly self baseline st' e
     else Ok (anomalies st'))
    = Ok (anomalies st ++ emitted frames).
Proof.
  induction n as [|n IH]; intros frames st e Hn Hst He.
  - destruct frames; [|simpl in Hn; lia].
    simpl. rewrite Hst. unfold AnomalySpec.emitted. rewrite runs_nil.
    simpl. now rewrite app_nil_r.
  - destruct frames as [|f frames].
    { simpl. rewrite Hst. unfold AnomalySpec.emitted. rewrite runs_nil.
      simpl. now rewrite app_nil_r. }
    simpl in Hn. cbn [scan_frames].
    destruct (deviates f) eqn:Hf.
    + (* a run starts at [f] *)
      rewrite (scan_frame_start _ _ Hf Hst). cbn [bind].
      rewrite (emitted_cons_loud _ _ Hf).
      rewrite (run_rest_after_run frames) at 1.
      rewrite scan_frames_app.
      rewrite scan_frames_inside
        by (try reflexivity; apply run_rest_all_deviate).
      cbn [bind anomalies anomaly_start anomaly_type deviations].
      change ([absdev f] ++ map absdev (run_rest frames))
        with (map absdev (AnomalySpec.run_frames
                (AnomalySpec.mkRun f (run_rest frames)
                   (hd_error (after_run frames))))).
      destruct (after_run frames) as [|g tail] eqn:Ha.
      * (* still open at the last frame *)
        cbn [scan_frames bind in_anomaly].
        follow_run (AnomalySpec.mkRun f (run_rest frames) None).
        rewrite (close_anomaly_run (anomalies st)
                   (AnomalySpec.mkRun f (run_rest frames) None) e).
        { unfold AnomalySpec.emitted. rewrite runs_nil.
          cbn [hd_error filter map]. now rewrite app_nil_r. }
        unfold AnomalySpec.run_end. cbn [AnomalySpec.closing
          AnomalySpec.others AnomalySpec.first].
        rewrite (after_run_nil _ Ha).
        destruct (@exists_last _ (f :: frames)) as (l & x & Hl);
          [discriminate|].
        rewrite (He l x Hl).
        destruct l as [|f' l].
        -- injection Hl as -> ->. reflexivity.
        -- injection Hl as -> ->. now rewrite last_last.
      * (* the run is closed by [g] *)
        cbn [scan_frames].
        pose proof (after_run_head_quiet _ _ _ Ha) as Hg.
        rewrite (scan_frame_close _ _ Hg) by reflexivity.
        follow_run (AnomalySpec.mkRun f (run_rest frames) (Some g)).
        rewrite (close_anomaly_run (anomalies st)
                   (AnomalySpec.mkRun f (run_rest frames) (Some g))
                   (LoudnessFrame.start g)) by reflexivity.
        cbn [bind hd_error].
        rewrite (emitted_cons_quiet _ _ Hg).
        pose proof (after_run_shorter frames) as Hlen. rewrite Ha in Hlen.
        simpl in Hlen.
        rewrite (IH tail _ e); [now rewrite app_assoc | lia | reflexivity |].
        intros l x Hl.
        apply (He (f :: run_rest frames ++ g :: l) x).
        rewrite (run_rest_after_run frames) at 1. rewrite Ha, Hl.
        simpl. rewrite <- app_assoc. reflexivity.
    + (* [f] is within the threshold *)
      rewrite (scan_frame_quiet _ _ Hf Hst). cbn [bind].
      rewrite (emitted_cons_quiet _ _ Hf).
      apply IH; [lia | exact Hst |].
      intros l x Hl. apply (He (f :: l) x). now rewrite Hl.
Qed.

Lemma list_last_snoc {A : Type} (l : list A) (x : A) :
  list_last (l ++ [x]) = Ok x.
Proof. unfold list_last. now rewrite rev_app_distr. Qed.

(** [_find_anomalies] returns, without raising, the signals of the rule. *)
Lemma find_anomalies_emitted frames :
  _find_anomalies self frames baseline = Ok (emitted frames).
Proof.
  unfold _find_anomalies.
  destruct frames as [|f frames].
  - simpl. unfold AnomalySpec.emitted. now rewrite runs_nil.
  - destruct (@exists_last _ (f :: frames)) as (l & x & Hl); [discriminate|].
    pose proof (scan_follows_runs (List.length (f :: frames)) (f :: frames)
                  scan_init (LoudnessFrame.end_ x) (le_n _) eq_refl) as H.
    simpl app in H. rewrite <- H.
    + destruct (scan_frames self baseline scan_init (f :: frames)) as [st|err];
        [|reflexivity].
      cbn [bind]. rewrite andb_true_r. rewrite Hl at 1.
      rewrite list_last_snoc. reflexivity.
    + intros l' x' Hl'. rewrite Hl in Hl'.
      apply app_inj_tail in Hl'. destruct Hl' as [_ ->]. reflexivity.
Qed.

(** *** What a run of the specification is made of *)

Lemma runs_sound n :
  forall frames r,
    (List.length frames <= n)%nat ->
    In r (runs frames) ->
    In (AnomalySpec.first r) frames /\
    Forall (fun f => deviates f = true) (AnomalySpec.run_frames r) /\
    (forall g, AnomalySpec.closing r = Some g -> In g frames) /\
    In (last (AnomalySpec.others r) (AnomalySpec.first r)) frames.
Proof.
  induction n as [|n IH]; intros frames r Hn Hr.
  - destruct frames; [|simpl in Hn; lia]. rewrite runs_nil in Hr. destruct Hr.
  - destruct frames as [|f frames]; [rewrite runs_nil in Hr; destruct Hr|].
    simpl in Hn.
    destruct (deviates f) eqn:Hf.
    + rewrite (runs_cons_loud _ _ Hf) in Hr.
      pose proof (after_run_shorter frames) as Hlen.
      assert (Hsub : forall g, In g (after_run frames) -> In g frames).
      { intros g Hg. rewrite (run_rest_after_run frames).
        apply in_or_app. now right. }
      assert (Hsub' : forall g, In g (run_rest frames) -> In g frames).
      { intros g Hg. rewrite (run_rest_after_run frames).
        apply in_or_app. now left. }
      destruct Hr as [<- | Hr].
      * cbn [AnomalySpec.first AnomalySpec.others AnomalySpec.closing
             AnomalySpec.run_frames].
        split; [now left|]. split.
        { constructor; [exact Hf | apply run_rest_all_deviate]. }
        split.
        { intros g Hg. right. apply Hsub.
          destruct (after_run frames); [discriminate|].
          injection Hg as ->. now left. }
        destruct (run_rest frames) as [|h t] eqn:Hrr; [now left|].
        right. apply Hsub'. try rewrite Hrr.
        destruct (@exists_last _ (h :: t)) as (l & x & Hl); [discriminate|].
        rewrite Hl, last_last. apply in_or_app. right. now left.
      * destruct (IH (after_run frames) r) as (H1 & H2 & H3 & H4);
          [lia | exact Hr |].
        split; [right; now apply Hsub|]. split; [exact H2|].
        split; [intros g Hg; right; apply Hsub; now apply H3|].
        right. now apply Hsub.
    + rewrite (runs_cons_quiet _ _ Hf) in Hr.
      destruct (IH frames r) as (H1 & H2 & H3 & H4); [lia | exact Hr |].
      split; [now right|]. split; [exact H2|].
      split; [intros g Hg; right; now apply H3|]. now right.
Qed.

End Scan.

(** *** Sums and means of positive numbers *)

Lemma py_sum_from l a : fold_left Qplus l a == a + py_sum l.
Proof.
  unfold py_sum. revert a.
  induction l as [|x l IH]; intro a; simpl; [lra|].
  rewrite (IH (a + x)), (IH (0 + x)). lra.
Qed.

Lemma py_sum_positive x l :
  Forall (fun y => 0 < y) (x :: l) -> 0 < py_sum (x :: l).
Proof.
  intro H. revert x H.
  induction l as [|y l IH]; intros x H.
  - inversion H; subst. unfold py_sum; simpl. lra.
  - inversion H as [|? ? Hx Hl]; subst.
    specialize (IH y Hl).
    unfold py_sum in *. simpl in *.
    rewrite py_sum_from. rewrite py_sum_from in IH.
    unfold py_sum in *. lra.
Qed.

Lemma mean_deviation_positive self baseline r :
  0 <= anomaly_threshold_db self ->
  Forall (fun f => AnomalySpec.deviates self baseline f = true)
         (AnomalySpec.run_frames r) ->
  0 < AnomalySpec.mean_deviation baseline r.
Proof.
  intros Hth Hall. unfold AnomalySpec.mean_deviation.
  apply Qlt_shift_div_l.
  - unfold AnomalySpec.run_frames. unfold Qlt. simpl. lia.
  - rewrite Qmult_0_l. unfold AnomalySpec.run_frames in *. cbn [map].
    apply py_sum_positive.
    change (Forall (fun y => 0 < y)
              (map (fun f => Qabs (AnomalySpec.deviation baseline f))
                 (AnomalySpec.first r :: AnomalySpec.others r))).
    apply Forall_map. eapply Forall_impl; [|exact Hall].
    intros f Hf. unfold AnomalySpec.deviates in Hf.
    apply Qgtb_gt in Hf. lra.
Qed.

Lemma py_min_le_r a b : py_min a b <= b.
Proof.
  unfold py_min. destruct (Qltb b a) eqn:E; [lra|].
  apply Qltb_ge in E. exact E.
Qed.

Lemma py_min_glb a b c : c < a -> c < b -> c < py_min a b.
Proof. intros. unfold py_min. destruct (Qltb b a); assumption. Qed.

(** The signals of the rule are well formed. *)
Lemma emitted_well_formed self baseline frames s :
  In s (AnomalySpec.emitted self baseline frames) ->
  min_anomaly_duration self
    <= AudioSegmentSignal.end_ s - AudioSegmentSignal.start s /\
  (AudioSegmentSignal.signal_type s = "volume_increase"%string \/
   AudioSegmentSignal.signal_type s = "volume_decrease"%string) /\
  AudioSegmentSignal.confidence s <= 0.95 /\
  (0 <= anomaly_threshold_db self -> 0.5 < AudioSegmentSignal.confidence s) /\
  (exists f, In f frames /\
     AudioSegmentSignal.start s = LoudnessFrame.start f) /\
  (exists g, In g frames /\
     (AudioSegmentSignal.end_ s = LoudnessFrame.start g \/
      AudioSegmentSignal.end_ s = LoudnessFrame.end_ g)).
Proof.
  unfold AnomalySpec.emitted. intro H.
  apply in_map_iff in H. destruct H as (r & <- & Hr).
  apply filter_In in Hr. destruct Hr as [Hr Hrep].
  destruct (runs_sound self baseline _ _ _ (le_n _) Hr) as (H1 & H2 & H3 & H4).
  cbn [AnomalySpec.run_signal AudioSegmentSignal.start AudioSegmentSignal.end_
       AudioSegmentSignal.signal_type AudioSegmentSignal.confidence].
  split.
  { unfold AnomalySpec.reported in Hrep. apply Qgeb_ge in Hrep. exact Hrep. }
  split.
  { unfold AnomalySpec.run_signal_type. destruct (Qgtb _ 0); [now left | now right]. }
  split.
  { apply py_min_le_r. }
  split.
  { intro Hth. unfold AnomalySpec.run_confidence.
    pose proof (mean_deviation_positive self baseline r Hth H2) as Hm.
    apply py_min_glb; [|reflexivity].
    assert (0 < AnomalySpec.mean_deviation baseline r / 10).
    { apply Qlt_shift_div_l; [reflexivity | lra]. }
    lra. }
  split.
  { exists (AnomalySpec.first r). split; [exact H1 | reflexivity]. }
  unfold AnomalySpec.run_end.
  destruct (AnomalySpec.closing r) as [g|] eqn:Hc.
  - exists g. split; [now apply H3 | now left].
  - exists (last (AnomalySpec.others r) (AnomalySpec.first r)).
    split; [exact H4 | now right].
Qed.

(** C5. For every analyzer, frame sequence and baseline,
    [_find_anomalies] returns, without raising, exactly the signals of the
    rule [AnomalySpec.emitted]: a run starts at the first frame that
    deviates from the baseline by more than the threshold, takes its
    direction from the sign of that first deviation, ends where the first
    later frame within the threshold starts (or at the end time of the
    last frame when it is still open), and yields one
    volume_increase / volume_decrease signal from its start to its end
    exactly when that duration is at least [min_anomaly_duration], with
    confidence [min(0.5 + meanDeviation/10, 0.95)] and the details
    deviation_db, baseline_lufs and direction; shorter runs yield nothing.
    On the frames [-24,-24,-24,-10,-10,-10,-24,-24] of five seconds, with
    threshold 3 and baseline -24, the result is the single
    volume_increase signal from 15 to 30 when [min_anomaly_duration] is at
    most 15, and nothing otherwise; -24 is also the baseline [analyze]
    computes for these frames. *)
Theorem find_anomalies_follows_rule :
  (forall self frames baseline,
     _find_anomalies self frames baseline
     = Ok (AnomalySpec.emitted self baseline frames)) /\
  (forall fd m,
     _find_anomalies (mk fd 3 m) example_frames (-24)
     = Ok (if Qgeb 15 m then [example_signal] else [])) /\
  (forall fd m,
     analyze_frames (mk fd 3 m) example_frames
     = Ok (if Qgeb 15 m then [example_signal] else [], Some (-24))) /\
  AudioSegmentSignal.confidence example_signal == 95 # 100 /\
  dict_find "deviation_db" (AudioSegmentSignal.details example_signal)
    = Some (PyFloat 14.0) /\
  14.0 == 14.
Proof.
  assert (E : forall fd m,
            _find_anomalies (mk fd 3 m) example_frames (-24)
            = Ok (if Qgeb 15 m then [example_signal] else [])).
  { intros fd m. rewrite find_anomalies_emitted.
    unfold AnomalySpec.emitted, example_frames.
    do 3 (rewrite runs_cons_quiet by reflexivity).
    rewrite runs_cons_loud by reflexivity.
    cbn [AnomalySpec.after_run AnomalySpec.run_rest].
    replace (AnomalySpec.deviates (mk fd 3 m) (-24)
               (LoudnessFrame.mk 20 25 (-10) (-1))) with true by reflexivity.
    replace (AnomalySpec.deviates (mk fd 3 m) (-24)
               (LoudnessFrame.mk 25 30 (-10) (-1))) with true by reflexivity.
    replace (AnomalySpec.deviates (mk fd 3 m) (-24)
               (LoudnessFrame.mk 30 35 (-24) (-1))) with false by reflexivity.
    do 2 (rewrite runs_cons_quiet by reflexivity).
    rewrite runs_nil. cbn [hd_error filter].
    change (AnomalySpec.reported (mk fd 3 m) _) with (Qgeb 15 m).
    destruct (Qgeb 15 m); reflexivity. }
  split; [intros; apply find_anomalies_emitted|].
  split; [exact E|].
  split; [|repeat split].
  intros fd m. unfold analyze_frames.
  change (loudness_values example_frames)
    with [-24; -24; -24; -10; -10; -10; -24; -24].
  cbn [py_sort insert_sorted].
  change (list_item _ _) with (Ok (A:=Q) (-24)).
  cbn [bind]. rewrite E. reflexivity.
Qed.

(** C9, as stated, fails for an analyzer built with a negative threshold:
    three frames that sit exactly on the baseline then form a run of
    fifteen seconds whose mean deviation is zero, and the signal that is
    emitted has confidence 0.5, not more.  It also fails for an analyzer
    built with a minimum duration of zero when a frame of zero length is
    passed in: the signal that is emitted starts and ends at the same
    time. *)
Lemma negative_threshold_gives_confidence_half :
  let self := mk 5 (-1) 15 in
  let frames := [ LoudnessFrame.mk 0 5 (-24) (-1);
                  LoudnessFrame.mk 5 10 (-24) (-1);
                  LoudnessFrame.mk 10 15 (-24) (-1) ] in
  (exists s,
     analyze_frames self frames = Ok ([s], Some (-24)) /\
     _find_anomalies self frames (-24) = Ok [s] /\
     AudioSegmentSignal.confidence s == 0.5 /\
     ~ (0.5 < AudioSegmentSignal.confidence s)) /\
  (exists s,
     _find_anomalies (mk 5 3 0) [LoudnessFrame.mk 10 10 (-10) (-1)] (-24)
     = Ok [s] /\
     ~ (AudioSegmentSignal.start s < AudioSegmentSignal.end_ s)).
Proof.
  cbv zeta. split.
  - eexists. split; [vm_compute; reflexivity|].
    split; [vm_compute; reflexivity|].
    split; [reflexivity|].
    intro H. vm_compute in H. discriminate.
  - eexists. split; [vm_compute; reflexivity|].
    intro H. vm_compute in H. discriminate.
Qed.

(** C9, amended.  For an analyzer whose [anomaly_threshold_db] is not
    negative and whose [min_anomaly_duration] is positive (the defaults
    are 3.0 and 15.0), every signal [_find_anomalies] emits has
    [start < end] and [end - start >= min_anomaly_duration], is of type
    volume_increase or volume_decrease, has a confidence above 0.5 and at
    most 0.95, starts where an input frame starts and ends where an input
    frame starts or ends. *)
Theorem emitted_signals_well_formed self frames baseline sigs s :
  0 <= anomaly_threshold_db self ->
  0 < min_anomaly_duration self ->
  _find_anomalies self frames baseline = Ok sigs ->
  In s sigs ->
  AudioSegmentSignal.start s < AudioSegmentSignal.end_ s /\
  min_anomaly_duration self
    <= AudioSegmentSignal.end_ s - AudioSegmentSignal.start s /\
  (AudioSegmentSignal.signal_type s
     = SignalType.value SignalType.VOLUME_INCREASE \/
   AudioSegmentSignal.signal_type s
     = SignalType.value SignalType.VOLUME_DECREASE) /\
  0.5 < AudioSegmentSignal.confidence s /\
  AudioSegmentSignal.confidence s <= 0.95 /\
  (exists f, In f frames /\
     AudioSegmentSignal.start s = LoudnessFrame.start f) /\
  (exists g, In g frames /\
     (AudioSegmentSignal.end_ s = LoudnessFrame.start g \/
      AudioSegmentSignal.end_ s = LoudnessFrame.end_ g)).
Proof.
  intros Hth Hmin Hrun Hs.
  rewrite find_anomalies_emitted in Hrun. injection Hrun as <-.
  destruct (emitted_well_formed _ _ _ _ Hs) as (H1 & H2 & H3 & H4 & H5 & H6).
  split; [lra|]. split; [exact H1|]. split; [exact H2|].
  split; [exact (H4 Hth)|]. split; [exact H3|]. split; assumption.
Qed.

Lemma emitted_signals_well_formed_witness :
  let s := example_signal in
  AudioSegmentSignal.start s < AudioSegmentSignal.end_ s /\
  min_anomaly_duration default
    <= AudioSegmentSignal.end_ s - AudioSegmentSignal.start s /\
  (AudioSegmentSignal.signal_type s
     = SignalType.value SignalType.VOLUME_INCREASE \/
   AudioSegmentSignal.signal_type s
     = SignalType.value SignalType.VOLUME_DECREASE) /\
  0.5 < AudioSegmentSignal.confidence s /\
  AudioSegmentSignal.confidence s <= 0.95 /\
  (exists f, In f example_frames /\
     AudioSegmentSignal.start s = LoudnessFrame.start f) /\
  (exists g, In g example_frames /\
     (AudioSegmentSignal.end_ s = LoudnessFrame.start g \/
      AudioSegmentSignal.end_ s = LoudnessFrame.end_ g)).
Proof.
  apply (emitted_signals_well_formed default example_frames (-24)
           [example_signal] example_signal).
  - unfold default, Qle; simpl; lia.
  - reflexivity.
  - vm_compute; reflexivity.
  - simpl; left; reflexivity.
Defined.

End AnomalyFacts.

(** ** Sorting and the baseline *)

Module BaselineFacts.

Import VolumeAnalyzer.

(** *** [py_sort] sorts *)

Lemma insert_sorted_perm x l : Permutation (insert_sorted x l) (x :: l).
Proof.
  induction l as [|y l IH]; simpl; [apply Permutation_refl|].
  destruct (Qle_bool x y); [apply Permutation_refl|].
  rewrite IH. apply perm_swap.
Qed.

Lemma py_sort_perm l : Permutation (py_sort l) l.
Proof.
  induction l as [|x l IH]; simpl; [constructor|].
  rewrite insert_sorted_perm. now constructor.
Qed.

Lemma py_sort_length l : List.length (py_sort l) = List.length l.
Proof. apply Permutation_length, py_sort_perm. Qed.

Lemma insert_sorted_sorted x l :
  StronglySorted Qle l -> StronglySorted Qle (insert_sorted x l).
Proof.
  induction 1 as [|y l Hs IH Hy]; simpl.
  - repeat constructor.
  - destruct (Qle_bool x y) eqn:E.
    + apply Qle_bool_iff in E. constructor; [now constructor|].
      constructor; [exact E|].
      eapply Forall_impl; [|exact Hy]. intros z Hz. lra.
    + assert (Hyx : y <= x).
      { apply Qlt_le_weak. apply Qnot_le_lt. intro H.
        apply Qle_bool_iff in H. congruence. }
      constructor; [exact IH|].
      eapply Permutation_Forall; [symmetry; apply insert_sorted_perm|].
      constructor; assumption.
Qed.

Lemma py_sort_sorted l : StronglySorted Qle (py_sort l).
Proof.
  induction l as [|x l IH]; simpl; [constructor|].
  now apply insert_sorted_sorted.
Qed.

(** *** Counting in a sorted list *)

Lemma count_if_perm p l l' :
  Permutation l l' -> count_if p l = count_if p l'.
Proof.
  induction 1 as [|x l l' _ IH|x y l|l l' l'' _ IH1 _ IH2]; simpl.
  - reflexivity.
  - now rewrite IH.
  - destruct (p x), (p y); reflexivity.
  - now rewrite IH1.
Qed.

Lemma count_if_app p l l' :
  count_if p (l ++ l') = (count_if p l + count_if p l')%nat.
Proof.
  induction l as [|x l IH]; simpl; [reflexivity|].
  destruct (p x); simpl; now rewrite IH.
Qed.

Lemma count_if_le_length p l : (count_if p l <= List.length l)%nat.
Proof.
  induction l as [|x l IH]; simpl; [lia|]. destruct (p x); lia.
Qed.

Lemma count_if_mono (p q : Q -> bool) l :
  (forall v, p v = true -> q v = true) ->
  (count_if p l <= count_if q l)%nat.
Proof.
  intro H. induction l as [|x l IH]; simpl; [lia|].
  destruct (p x) eqn:E.
  - rewrite (H _ E). lia.
  - destruct (q x); lia.
Qed.

Lemma count_if_none p l :
  Forall (fun v => p v = false) l -> count_if p l = O.
Proof.
  induction 1 as [|x l Hx _ IH]; simpl; [reflexivity|]. now rewrite Hx.
Qed.

Lemma count_ge_lt c l :
  (count_ge c l + count_lt c l = List.length l)%nat.
Proof.
  unfold count_ge, count_lt, Qltb.
  induction l as [|x l IH]; simpl; [reflexivity|].
  destruct (Qle_bool c x); simpl; lia.
Qed.

(** In a sorted list, the value at index [k] has more than [k] values at
    or below it, and at most [k] values strictly below it. *)
Lemma sorted_count_le l :
  StronglySorted Qle l ->
  forall k c, nth_error l k = Some c -> (k < count_le c l)%nat.
Proof.
  induction 1 as [|a l Hs IH Ha]; intros k c Hk.
  - destruct k; discriminate.
  - destruct k as [|k]; simpl in Hk.
    + injection Hk as ->. unfold count_le. simpl.
      replace (Qle_bool c c) with true; [lia|].
      symmetry. apply Qle_bool_iff. lra.
    + specialize (IH _ _ Hk).
      assert (Hac : a <= c).
      { rewrite Forall_forall in Ha. apply Ha.
        eapply nth_error_In. exact Hk. }
      unfold count_le in *. simpl.
      apply Qle_bool_iff in Hac. rewrite Hac. lia.
Qed.

Lemma sorted_count_lt l :
  StronglySorted Qle l ->
  forall k c, nth_error l k = Some c -> (count_lt c l <= k)%nat.
Proof.
  induction 1 as [|a l Hs IH Ha]; intros k c Hk.
  - destruct k; discriminate.
  - destruct k as [|k]; simpl in Hk.
    + injection Hk as ->. unfold count_lt. simpl.
      replace (Qltb c c) with false by (symmetry; apply Qltb_ge; lra).
      rewrite count_if_none; [lia|].
      eapply Forall_impl; [|exact Ha].
      intros v Hv. apply Qltb_ge. exact Hv.
    + specialize (IH _ _ Hk). unfold count_lt in *. simpl.
      destruct (Qltb a c); lia.
Qed.

(** *** The baseline of [analyze] *)

(** The value at the middle index of the sorted retained values. *)
Lemma middle_exists (l : list Q) :
  l <> [] ->
  exists b, nth_error (py_sort l) (List.length (py_sort l) / 2) = Some b.
Proof.
  intro H.
  destruct (nth_error (py_sort l) (List.length (py_sort l) / 2)) as [b|] eqn:E;
    [now exists b|].
  apply nth_error_None in E. rewrite py_sort_length in E.
  destruct l; [congruence|]. simpl List.length in E.
  pose proof (Nat.div_lt (S (List.length l)) 2). lia.
Qed.

Lemma middle_is_median (l : list Q) b :
  nth_error (py_sort l) (List.length (py_sort l) / 2) = Some b ->
  is_median b l.
Proof.
  intro H.
  pose proof (py_sort_perm l) as Hp.
  pose proof (py_sort_sorted l) as Hs.
  pose proof (sorted_count_le _ Hs _ _ H) as Hle.
  pose proof (sorted_count_lt _ Hs _ _ H) as Hlt.
  unfold count_le in Hle. unfold count_lt in Hlt.
  rewrite (count_if_perm _ _ _ Hp) in Hle.
  rewrite (count_if_perm _ _ _ Hp) in Hlt.
  rewrite py_sort_length in Hle, Hlt.
  pose proof (count_ge_lt b l) as Hsum. unfold count_lt in Hsum.
  pose proof (Nat.div_mod_eq (List.length l) 2) as Hd.
  pose proof (Nat.mod_upper_bound (List.length l) 2).
  split; [|split].
  - eapply Permutation_in; [exact Hp|]. eapply nth_error_In. exact H.
  - unfold count_le. lia.
  - lia.
Qed.

(** What [analyze_frames] returns, in one equation. *)
Lemma analyze_frames_no_values self frames :
  loudness_values frames = [] -> analyze_frames self frames = Ok ([], None).
Proof.
  intro H. unfold analyze_frames. rewrite H. destruct frames; reflexivity.
Qed.

Lemma analyze_frames_with_values self frames b :
  nth_error (py_sort (loudness_values frames))
    (List.length (py_sort (loudness_values frames)) / 2) = Some b ->
  analyze_frames self frames
  = Ok (AnomalySpec.emitted self b frames, Some b).
Proof.
  intro H. unfold analyze_frames.
  destruct frames as [|f frames]; [destruct (0 / 2)%nat; discriminate|].
  destruct (loudness_values (f :: frames)) as [|v values] eqn:Hv.
  { simpl in H. destruct (0 / 2)%nat; discriminate. }
  unfold list_item. rewrite H. cbn [bind].
  rewrite AnomalyFacts.find_anomalies_emitted. reflexivity.
Qed.

Lemma analyze_frames_total self frames :
  exists r, analyze_frames self frames = Ok r.
Proof.
  destruct (loudness_values frames) as [|v values] eqn:Hv.
  - eexists. now apply analyze_frames_no_values.
  - destruct (middle_exists (loudness_values frames)) as [b Hb];
      [rewrite Hv; discriminate|].
    eexists. apply analyze_frames_with_values. exact Hb.
Qed.

Lemma all_silent_no_values frames :
  Forall (fun f => LoudnessFrame.loudness_lufs f <= -70) frames ->
  loudness_values frames = [].
Proof.
  unfold loudness_values.
  induction 1 as [|f frames Hf _ IH]; simpl; [reflexivity|].
  replace (Qgtb (LoudnessFrame.loudness_lufs f) (-70)) with false; [exact IH|].
  symmetry. apply Qgtb_le. exact Hf.
Qed.

Lemma loud_frame_has_value frames g :
  In g frames -> -70 < LoudnessFrame.loudness_lufs g ->
  In (LoudnessFrame.loudness_lufs g) (loudness_values frames).
Proof.
  intros Hg Hl. unfold loudness_values. apply filter_In. split.
  - now apply in_map.
  - now apply Qgtb_gt.
Qed.

Lemma analyze_frames_baseline self frames sigs b :
  analyze_frames self frames = Ok (sigs, Some b) ->
  nth_error (py_sort (loudness_values frames))
    (List.length (py_sort (loudness_values frames)) / 2) = Some b.
Proof.
  intro H.
  destruct (loudness_values frames) as [|v values] eqn:Hv.
  - rewrite (analyze_frames_no_values _ _ Hv) in H. discriminate.
  - destruct (middle_exists (loudness_values frames)) as [b0 Hb];
      [rewrite Hv; discriminate|].
    rewrite (analyze_frames_with_values _ _ _ Hb) in H.
    injection H as _ <-. rewrite <- Hv. exact Hb.
Qed.

(** *** Replacing one frame *)

Lemma loudness_values_split l1 f l2 :
  loudness_values (l1 ++ f :: l2)
  = loudness_values l1 ++ loudness_values [f] ++ loudness_values l2.
Proof.
  unfold loudness_values. rewrite map_app, filter_app. f_equal.
  simpl. destruct (Qgtb (LoudnessFrame.loudness_lufs f) (-70)); reflexivity.
Qed.

Lemma loudness_values_one f : (List.length (loudness_values [f]) <= 1)%nat.
Proof.
  unfold loudness_values. simpl.
  destruct (Qgtb (LoudnessFrame.loudness_lufs f) (-70)); simpl; lia.
Qed.

Section Replace.

Variables (l1 l2 : list LoudnessFrame.t) (f f' : LoudnessFrame.t).

Local Abbreviation L := (loudness_values (l1 ++ f :: l2)).
Local Abbreviation L' := (loudness_values (l1 ++ f' :: l2)).

Lemma replaced_length :
  (List.length L' + List.length (loudness_values [f])
   = List.length L + List.length (loudness_values [f']))%nat.
Proof. rewrite !loudness_values_split, !length_app. lia. Qed.

Lemma replaced_count_upper p :
  (count_if p L' <= count_if p L + List.length (loudness_values [f']))%nat.
Proof.
  rewrite !loudness_values_split, !count_if_app.
  pose proof (count_if_le_length p (loudness_values [f'])). lia.
Qed.

Lemma replaced_count_lower p :
  (count_if p L <= count_if p L' + List.length (loudness_values [f]))%nat.
Proof.
  rewrite !loudness_values_split, !count_if_app.
  pose proof (count_if_le_length p (loudness_values [f])). lia.
Qed.

Variables (b' : Q).
Hypothesis Hb' :
  nth_error (py_sort L') (List.length (py_sort L') / 2) = Some b'.

Lemma replaced_baseline_lower p :
  (1 <= List.length (py_sort L) / 2)%nat ->
  nth_error (py_sort L) (List.length (py_sort L) / 2 - 1) = Some p ->
  p <= b'.
Proof.
  intros Hm Hp.
  destruct (Qlt_le_dec b' p) as [Hlt|Hle]; [exfalso | exact Hle].
  pose proof (sorted_count_le _ (py_sort_sorted L') _ _ Hb') as H1.
  pose proof (sorted_count_lt _ (py_sort_sorted L) _ _ Hp) as H2.
  unfold count_le in H1. unfold count_lt in H2.
  rewrite (count_if_perm _ _ _ (py_sort_perm L')) in H1.
  rewrite (count_if_perm _ _ _ (py_sort_perm L)) in H2.
  rewrite py_sort_length in *.
  pose proof (replaced_count_upper (fun v => Qle_bool v b')) as H3.
  assert (H4 : (count_if (fun v => Qle_bool v b') L
                <= count_if (fun v => Qltb v p) L)%nat).
  { apply count_if_mono. intros v Hv.
    apply Qle_bool_iff in Hv. apply Qltb_lt. lra. }
  pose proof replaced_length as H5.
  pose proof (loudness_values_one f) as H6.
  pose proof (loudness_values_one f') as H7.
  pose proof (Nat.div_mod_eq (List.length L) 2) as Hd.
  pose proof (Nat.mod_upper_bound (List.length L) 2) as Hd0.
  pose proof (Nat.div_mod_eq (List.length L') 2) as Hd'.
  pose proof (Nat.mod_upper_bound (List.length L') 2) as Hd0'.
  lia.
Qed.

Lemma replaced_baseline_upper q :
  nth_error (py_sort L) (List.length (py_sort L) / 2 + 1) = Some q ->
  b' <= q.
Proof.
  intros Hq.
  destruct (Qlt_le_dec q b') as [Hlt|Hle]; [exfalso | exact Hle].
  pose proof (sorted_count_lt _ (py_sort_sorted L') _ _ Hb') as H1.
  pose proof (sorted_count_le _ (py_sort_sorted L) _ _ Hq) as H2.
  unfold count_lt in H1. unfold count_le in H2.
  rewrite (count_if_perm _ _ _ (py_sort_perm L')) in H1.
  rewrite (count_if_perm _ _ _ (py_sort_perm L)) in H2.
  rewrite py_sort_length in *.
  pose proof (replaced_count_lower (fun v => Qltb v b')) as H3.
  assert (H4 : (count_if (fun v => Qle_bool v q) L
                <= count_if (fun v => Qltb v b') L)%nat).
  { apply count_if_mono. intros v Hv.
    apply Qle_bool_iff in Hv. apply Qltb_lt. lra. }
  pose proof replaced_length as H5.
  pose proof (loudness_values_one f) as H6.
  pose proof (loudness_values_one f') as H7.
  pose proof (Nat.div_mod_eq (List.length L) 2) as Hd.
  pose proof (Nat.mod_upper_bound (List.length L) 2) as Hd0.
  pose proof (Nat.div_mod_eq (List.length L') 2) as Hd'.
  pose proof (Nat.mod_upper_bound (List.length L') 2) as Hd0'.
  lia.
Qed.

End Replace.

(** With three retained values, the middle has a neighbour on each side. *)
Lemma middle_has_neighbours (l : list Q) :
  (3 <= List.length l)%nat ->
  (1 <= List.length (py_sort l) / 2)%nat /\
  (exists p, nth_error (py_sort l) (List.length (py_sort l) / 2 - 1) = Some p) /\
  (exists q, nth_error (py_sort l) (List.length (py_sort l) / 2 + 1) = Some q).
Proof.
  intro H. rewrite py_sort_length.
  pose proof (Nat.div_mod_eq (List.length l) 2) as Hd.
  pose proof (Nat.mod_upper_bound (List.length l) 2) as Hd0.
  split; [lia|]. split.
  - destruct (nth_error (py_sort l) (List.length l / 2 - 1)) as [p|] eqn:E;
      [now exists p|].
    apply nth_error_None in E. rewrite py_sort_length in E. lia.
  - destruct (nth_error (py_sort l) (List.length l / 2 + 1)) as [q|] eqn:E;
      [now exists q|].
    apply nth_error_None in E. rewrite py_sort_length in E. lia.
Qed.

(** C6, as stated, fails: a frame sequence that is not empty but holds
    only values at or below -70 LUFS has no baseline, and its retained
    values have no median. *)
Lemma silent_frames_have_no_baseline :
  let frames := [ LoudnessFrame.mk 0 5 (-80) (-1);
                  LoudnessFrame.mk 5 10 (-70) (-1) ] in
  frames <> [] /\
  analyze_frames default frames = Ok ([], None) /\
  (forall b, ~ is_median b (loudness_values frames)).
Proof.
  cbv zeta. split; [discriminate|]. split; [reflexivity|].
  intros b [H _]. exact H.
Qed.

(** C6, amended.  For every frame sequence with at least one loudness
    above -70 LUFS, the retained values are exactly the loudness values
    above -70, and the baseline is the value at index [len // 2] of the
    sorted retained values, which is a median of them (at least half of
    the retained values are at or below it, at least half at or above
    it; for an even count it is the upper of the two middle values).
    When every value is at or below -70 there is no baseline.  Replacing
    one frame by any other frame, however extreme its loudness, leaves
    the new baseline, when there is one, between the values one rank
    below and one rank above the old baseline in the old sorted retained
    values, wherever those ranks exist; both exist once three values are
    retained. *)
Theorem baseline_is_robust_median self l1 f l2 f' :
  (exists g, In g (l1 ++ f :: l2) /\ -70 < LoudnessFrame.loudness_lufs g) ->
  let frames := l1 ++ f :: l2 in
  let retained := loudness_values frames in
  let sorted := py_sort retained in
  let mid := (List.length sorted / 2)%nat in
  (forall v, In v retained <->
             In v (map LoudnessFrame.loudness_lufs frames) /\ -70 < v) /\
  StronglySorted Qle sorted /\ Permutation sorted retained /\
  (exists sigs b,
     analyze_frames self frames = Ok (sigs, Some b) /\
     nth_error sorted mid = Some b /\
     is_median b retained) /\
  (forall sigs' b',
     analyze_frames self (l1 ++ f' :: l2) = Ok (sigs', Some b') ->
     (forall p, (1 <= mid)%nat -> nth_error sorted (mid - 1) = Some p ->
                p <= b') /\
     (forall q, nth_error sorted (mid + 1) = Some q -> b' <= q)) /\
  ((3 <= List.length retained)%nat ->
     (1 <= mid)%nat /\
     (exists p, nth_error sorted (mid - 1) = Some p) /\
     (exists q, nth_error sorted (mid + 1) = Some q)) /\
  (forall silent,
     Forall (fun g => LoudnessFrame.loudness_lufs g <= -70) silent ->
     analyze_frames self silent = Ok ([], None)).
Proof.
  intros [g [Hg Hloud]] frames retained sorted mid.
  split.
  { intro v. unfold retained, loudness_values. rewrite filter_In.
    split; intros [H1 H2]; (split; [exact H1|]);
      [now apply Qgtb_gt | now apply Qgtb_gt]. }
  split; [apply py_sort_sorted|]. split; [apply py_sort_perm|].
  split.
  { destruct (middle_exists retained) as [b Hb].
    { intro E. pose proof (loud_frame_has_value _ _ Hg Hloud) as Hin.
      fold frames in Hin. fold retained in Hin. rewrite E in Hin.
      destruct Hin. }
    exists (AnomalySpec.emitted self b frames), b.
    split; [now apply analyze_frames_with_values|].
    split; [exact Hb | now apply middle_is_median]. }
  split.
  { intros sigs' b' H'. apply analyze_frames_baseline in H'.
    split.
    - intros p Hm Hp. exact (replaced_baseline_lower l1 l2 f f' b' H' p Hm Hp).
    - intros q Hq. exact (replaced_baseline_upper l1 l2 f f' b' H' q Hq). }
  split.
  { apply middle_has_neighbours. }
  intros silent Hs. apply analyze_frames_no_values.
  now apply all_silent_no_values.
Qed.

Lemma baseline_is_robust_median_witness :
  let outlier := LoudnessFrame.mk 15 20 1000 (-1) in
  exists sigs b sigs' b',
    analyze_frames default example_frames = Ok (sigs, Some b) /\
    analyze_frames default
      ([ LoudnessFrame.mk 0 5 (-24) (-1);
         LoudnessFrame.mk 5 10 (-24) (-1);
         LoudnessFrame.mk 10 15 (-24) (-1) ]
       ++ outlier
       :: [ LoudnessFrame.mk 20 25 (-10) (-1);
            LoudnessFrame.mk 25 30 (-10) (-1);
            LoudnessFrame.mk 30 35 (-24) (-1);
            LoudnessFrame.mk 35 40 (-24) (-1) ]) = Ok (sigs', Some b') /\
    is_median b (loudness_values example_frames) /\
    -24 <= b' /\ b' <= -10.
Proof.
  intro outlier.
  destruct (baseline_is_robust_median default
              [ LoudnessFrame.mk 0 5 (-24) (-1);
                LoudnessFrame.mk 5 10 (-24) (-1);
                LoudnessFrame.mk 10 15 (-24) (-1) ]
              (LoudnessFrame.mk 15 20 (-10) (-1))
              [ LoudnessFrame.mk 20 25 (-10) (-1);
                LoudnessFrame.mk 25 30 (-10) (-1);
                LoudnessFrame.mk 30 35 (-24) (-1);
                LoudnessFrame.mk 35 40 (-24) (-1) ]
              outlier)
    as (_ & _ & _ & (sigs & b & Ha & _ & Hmed) & Hrob & _).
  { exists (LoudnessFrame.mk 15 20 (-10) (-1)). split.
    - simpl. tauto.
    - reflexivity. }
  destruct (analyze_frames_total default
              ([ LoudnessFrame.mk 0 5 (-24) (-1);
                 LoudnessFrame.mk 5 10 (-24) (-1);
                 LoudnessFrame.mk 10 15 (-24) (-1) ]
               ++ outlier
               :: [ LoudnessFrame.mk 20 25 (-10) (-1);
                    LoudnessFrame.mk 25 30 (-10) (-1);
                    LoudnessFrame.mk 30 35 (-24) (-1);
                    LoudnessFrame.mk 35 40 (-24) (-1) ]))
    as [[sigs' [b'|]] Ha'].
  - destruct (Hrob sigs' b' Ha') as [Hlo Hhi].
    exists sigs, b, sigs', b'.
    split; [exact Ha|]. split; [exact Ha'|]. split; [exact Hmed|].
    split.
    + apply Hlo; [vm_compute; lia | reflexivity].
    + apply Hhi. reflexivity.
  - exfalso. vm_compute in Ha'. discriminate.
Defined.

End BaselineFacts.

(** ** Measuring frames *)

Module MeasureFacts.

Import VolumeAnalyzer.

Section Measure.

Variable json_loads : string -> result pyval.
Variable float_of_string : string -> result Q.
Variable ffmpeg : Q -> Q -> result completed.

Local Abbreviation measure := (_measure_frame json_loads float_of_string).
Local Abbreviation try_measure := (measure_frame_try json_loads float_of_string).
Local Abbreviation loop := (measure_loop json_loads float_of_string ffmpeg).

(** Whatever went wrong in the [try] block, the defaults are returned. *)
Lemma measure_frame_after_raise run e :
  try_measure run = Raise e -> measure run = Ok (-24, -1).
Proof. intro H. unfold _measure_frame. rewrite H. destruct e; reflexivity. Qed.

Lemma measure_frame_after_fallthrough run :
  try_measure run = Ok None -> measure run = Ok (-24, -1).
Proof. intro H. unfold _measure_frame. rewrite H. reflexivity. Qed.

Lemma measure_frame_total run : exists lp, measure run = Ok lp.
Proof.
  unfold _measure_frame.
  destruct (try_measure run) as [[lp|]|e].
  - now exists lp.
  - now exists (-24, -1).
  - exists (-24, -1). destruct e; reflexivity.
Qed.

Lemma measure_frame_failed run :
  measurement_fails json_loads float_of_string run ->
  measure run = Ok (-24, -1).
Proof.
  intro H. destruct H as [ | e | c Hc | c e Hc | c e Hc ].
  - reflexivity.
  - apply (measure_frame_after_raise _ e). reflexivity.
  - apply measure_frame_after_fallthrough.
    unfold measure_frame_try. cbn [bind].
    replace ((rfind "{" (stderr c) >=? 0)%Z &&
             (rfind "}" (stderr c) + 1 >? rfind "{" (stderr c))%Z)%bool
      with false; [reflexivity|].
    symmetry. apply andb_false_iff.
    destruct Hc as [Hc|Hc]; [left | right]; lia.
  - unfold _measure_frame, measure_frame_try. cbn [bind].
    destruct ((rfind "{" (stderr c) >=? 0)%Z &&
              (rfind "}" (stderr c) + 1 >? rfind "{" (stderr c))%Z)%bool;
      [|reflexivity].
    rewrite Hc. cbn [bind]. destruct e; reflexivity.
  - apply (measure_frame_after_raise _ e). exact Hc.
Qed.

(** One turn of the loop with a failed measurement. *)
Lemma measure_loop_failed_step self total t frames fuel :
  t < total ->
  1 <= py_min (frame_duration self) (total - t) ->
  measurement_fails json_loads float_of_string
    (ffmpeg t (py_min (frame_duration self) (total - t))) ->
  loop (S fuel) self total t frames
  = loop fuel self total (t + frame_duration self)
      (frames ++
       [ LoudnessFrame.mk t (t + py_min (frame_duration self) (total - t))
           (-24) (-1) ]).
Proof.
  intros Ht Hd Hf. cbn [measure_loop].
  apply Qltb_lt in Ht. rewrite Ht.
  apply Qltb_ge in Hd. rewrite Hd.
  rewrite (measure_frame_failed _ Hf). reflexivity.
Qed.

(** *** The loop ends, and does not raise *)

Lemma inject_succ n :
  inject_Z (Z.of_nat (S n)) == inject_Z (Z.of_nat n) + 1.
Proof.
  rewrite Nat2Z.inj_succ. unfold Z.succ. rewrite inject_Z_plus. reflexivity.
Qed.

Lemma py_min_ge a b c : c <= py_min a b -> c <= a /\ c <= b.
Proof.
  unfold py_min. destruct (Qltb b a) eqn:E; intro H.
  - apply Qltb_lt in E. split; lra.
  - apply Qltb_ge in E. split; lra.
Qed.

Lemma measure_loop_enough self total fuel :
  forall t frames,
    total - t < inject_Z (Z.of_nat fuel) ->
    (1 <= fuel)%nat ->
    exists out, loop fuel self total t frames = Some (Ok out).
Proof.
  induction fuel as [|fuel IH]; intros t frames Hlt Hpos; [lia|].
  cbn [measure_loop].
  destruct (Qltb t total) eqn:Ht; [|now exists frames].
  destruct (Qltb (py_min (frame_duration self) (total - t)) 1) eqn:Hd;
    [now exists frames|].
  apply Qltb_ge in Hd. destruct (py_min_ge _ _ _ Hd) as [Hfd Hleft].
  destruct (measure_frame_total
              (ffmpeg t (py_min (frame_duration self) (total - t))))
    as [[l p] Hm].
  rewrite Hm. rewrite inject_succ in Hlt.
  apply IH.
  - lra.
  - destruct fuel; [|lia].
    change (inject_Z (Z.of_nat 0)) with 0 in Hlt. lra.
Qed.

Lemma enough_fuel_enough total :
  total - 0 < inject_Z (Z.of_nat (enough_fuel total)).
Proof.
  unfold enough_fuel. rewrite inject_succ.
  pose proof (Qle_ceiling total) as Hc.
  assert (inject_Z (Qceiling total)
          <= inject_Z (Z.of_nat (Z.to_nat (Qceiling total)))).
  { rewrite <- Zle_Qle. lia. }
  lra.
Qed.

Lemma measure_loudness_frames_total self total :
  exists frames,
    _measure_loudness_frames json_loads float_of_string ffmpeg self total
    = Some (Ok frames).
Proof.
  unfold _measure_loudness_frames.
  apply measure_loop_enough; [apply enough_fuel_enough|].
  unfold enough_fuel. lia.
Qed.

End Measure.

End MeasureFacts.

(** ** [analyze] and failed measurements *)

Module AnalyzeFacts.

Import VolumeAnalyzer.

Section Analyze.

Variable json_loads : string -> result pyval.
Variable float_of_string : string -> result Q.
Variable ffmpeg : Q -> Q -> result completed.

Local Abbreviation loop := (measure_loop json_loads float_of_string ffmpeg).

(** The loop only appends to the frames it was given. *)
Lemma measure_loop_extends self total fuel :
  forall t frames out,
    loop fuel self total t frames = Some (Ok out) ->
    exists more, out = frames ++ more.
Proof.
  induction fuel as [|fuel IH]; intros t frames out H; [discriminate|].
  cbn [measure_loop] in H.
  destruct (Qltb t total);
    [|injection H as <-; exists []; now rewrite app_nil_r].
  destruct (Qltb (py_min (frame_duration self) (total - t)) 1);
    [injection H as <-; exists []; now rewrite app_nil_r|].
  destruct (_measure_frame json_loads float_of_string
              (ffmpeg t (py_min (frame_duration self) (total - t))))
    as [[l p]|e]; [|discriminate].
  destruct (IH _ _ _ H) as [more ->].
  eexists. rewrite <- app_assoc. reflexivity.
Qed.

Lemma analyze_total self path_exists ffprobe :
  exists r,
    analyze json_loads float_of_string ffmpeg self path_exists ffprobe
    = Some (Ok r).
Proof.
  unfold analyze.
  destruct path_exists; cbn [negb]; [|now eexists].
  destruct (_get_duration json_loads float_of_string ffprobe) as [d|];
    [|now eexists].
  destruct (Qltb d (frame_duration self)); [now eexists|].
  destruct (MeasureFacts.measure_loudness_frames_total json_loads
              float_of_string ffmpeg self d) as [frames ->].
  destruct (BaselineFacts.analyze_frames_total self frames) as [r ->].
  now exists r.
Qed.

Lemma analyze_no_signal self path_exists ffprobe :
  no_signal_input json_loads float_of_string ffmpeg self path_exists ffprobe ->
  analyze json_loads float_of_string ffmpeg self path_exists ffprobe
  = Some (Ok ([], None)).
Proof.
  intro H. unfold analyze.
  destruct H as [ ffprobe
                | path_exists ffprobe Hd
                | path_exists ffprobe d Hd Hshort
                | path_exists ffprobe d Hd Hframes
                | path_exists ffprobe d frames Hd Hframes Hsilent ].
  - reflexivity.
  - destruct path_exists; [|reflexivity]. cbn [negb]. now rewrite Hd.
  - destruct path_exists; [|reflexivity]. cbn [negb]. rewrite Hd.
    apply Qltb_lt in Hshort. now rewrite Hshort.
  - destruct path_exists; [|reflexivity]. cbn [negb]. rewrite Hd.
    destruct (Qltb d (frame_duration self)); [reflexivity|].
    rewrite Hframes. reflexivity.
  - destruct path_exists; [|reflexivity]. cbn [negb]. rewrite Hd.
    destruct (Qltb d (frame_duration self)); [reflexivity|].
    rewrite Hframes. f_equal.
    apply BaselineFacts.analyze_frames_no_values.
    now apply BaselineFacts.all_silent_no_values.
Qed.

End Analyze.

(** C7. [analyze] never raises and always returns: for every analyzer,
    path, ffprobe and ffmpeg behaviour it yields a result.  When the audio
    file is missing, when its duration is unknown or shorter than
    [frame_duration], when no frame was measured, or when every frame is
    at or below -70 LUFS, that result is the no-signal outcome: an empty
    signal list and no baseline. *)
Theorem analyze_degrades_to_no_signal json_loads float_of_string ffmpeg
    self path_exists ffprobe :
  no_signal_input json_loads float_of_string ffmpeg self path_exists ffprobe ->
  analyze json_loads float_of_string ffmpeg self path_exists ffprobe
  = Some (Ok ([], None)) /\
  (forall self' path_exists' ffprobe',
     exists r,
       analyze json_loads float_of_string ffmpeg self' path_exists' ffprobe'
       = Some (Ok r)).
Proof.
  intro H. split.
  - now apply analyze_no_signal.
  - intros. apply analyze_total.
Qed.

Lemma analyze_degrades_to_no_signal_witness :
  let json_loads := fun _ : string => Raise (A:=pyval) JSONDecodeError in
  let float_of_string := fun _ : string => Raise (A:=Q) ValueError in
  let ffmpeg := fun _ _ : Q => Raise (A:=completed) TimeoutExpired in
  let ffprobe := Ok (Completed 0 "{}" EmptyString) in
  analyze json_loads float_of_string ffmpeg default true ffprobe
  = Some (Ok ([], None)) /\
  (forall self' path_exists' ffprobe',
     exists r,
       analyze json_loads float_of_string ffmpeg self' path_exists' ffprobe'
       = Some (Ok r)).
Proof.
  intros json_loads float_of_string ffmpeg ffprobe.
  apply (analyze_degrades_to_no_signal json_loads float_of_string ffmpeg
           default true ffprobe).
  apply unknown_duration. reflexivity.
Defined.

(** C10. [_measure_frame] never raises.  When the measurement of a frame
    fails (ffmpeg times out or raises, its output holds no JSON object,
    the JSON does not parse, or another step raises), it returns exactly
    [(-24.0, -1.0)]; the loop of [_measure_loudness_frames] then appends
    the frame with loudness -24.0 like any other and goes on, so the
    frame is in the series the loop returns, and its loudness is among
    the values the baseline is taken from. *)
Theorem failed_measurement_is_default_frame json_loads float_of_string ffmpeg
    self total t frames fuel :
  t < total ->
  1 <= py_min (frame_duration self) (total - t) ->
  measurement_fails json_loads float_of_string
    (ffmpeg t (py_min (frame_duration self) (total - t))) ->
  let frame :=
    LoudnessFrame.mk t (t + py_min (frame_duration self) (total - t))
      (-24) (-1) in
  (forall run,
     exists lp, _measure_frame json_loads float_of_string run = Ok lp) /\
  _measure_frame json_loads float_of_string
    (ffmpeg t (py_min (frame_duration self) (total - t))) = Ok (-24, -1) /\
  measure_loop json_loads float_of_string ffmpeg (S fuel) self total t frames
  = measure_loop json_loads float_of_string ffmpeg fuel self total
      (t + frame_duration self) (frames ++ [frame]) /\
  (forall out,
     measure_loop json_loads float_of_string ffmpeg (S fuel) self total t
       frames = Some (Ok out) ->
     (exists more, out = frames ++ frame :: more) /\
     In (-24) (loudness_values out)).
Proof.
  intros Ht Hd Hf frame.
  split; [apply MeasureFacts.measure_frame_total|].
  split; [now apply MeasureFacts.measure_frame_failed|].
  pose proof (MeasureFacts.measure_loop_failed_step json_loads float_of_string
                ffmpeg self total t frames fuel Ht Hd Hf) as Hstep.
  split; [exact Hstep|].
  intros out Hout. rewrite Hstep in Hout.
  destruct (measure_loop_extends _ _ _ _ _ _ _ _ _ Hout) as [more ->].
  split.
  - exists more. rewrite <- app_assoc. reflexivity.
  - apply (BaselineFacts.loud_frame_has_value _ frame).
    + apply in_or_app. left. apply in_or_app. right. now left.
    + reflexivity.
Qed.

Lemma failed_measurement_is_default_frame_witness :
  let json_loads := fun _ : string => Raise (A:=pyval) JSONDecodeError in
  let float_of_string := fun _ : string => Raise (A:=Q) ValueError in
  let ffmpeg := fun _ _ : Q => Raise (A:=completed) TimeoutExpired in
  _measure_frame json_loads float_of_string (ffmpeg 0 5) = Ok (-24, -1) /\
  _measure_loudness_frames json_loads float_of_string ffmpeg default 7
  = Some (Ok [ LoudnessFrame.mk 0 5 (-24) (-1);
               LoudnessFrame.mk 5 7 (-24) (-1) ]).
Proof.
  intros json_loads float_of_string ffmpeg.
  destruct (failed_measurement_is_default_frame json_loads float_of_string
              ffmpeg default 7 0 [] 7) as (_ & H & _).
  - reflexivity.
  - vm_compute. discriminate.
  - apply fails_timeout.
  - split; [exact H|]. vm_compute. reflexivity.
Defined.

End AnalyzeFacts.

(** ** The serve path *)

Module MainFacts.

Import Main.

Lemma pipeline_starts_with_download c :
  exists stages, snd (pipeline c) = Download :: stages.
Proof.
  unfold pipeline.
  destruct (transcript_exists c), (download_audio c), (transcribe c),
    (detect_ads c), (ffmpeg_process c); simpl; eexists; reflexivity.
Qed.

(** [process_episode] runs the pipeline and never touches the queue. *)
Lemma process_episode_runs slug episode_id url c w :
  exists ok w' stages,
    process_episode slug episode_id url c w
    = (ok, w', MarkProcessing :: Download :: stages) /\
    queue w' = queue w /\
    (forall q,
       process_episode slug episode_id url c (mkWorld q (episodes w))
       = (ok, mkWorld q (episodes w'), MarkProcessing :: Download :: stages)).
Proof.
  unfold process_episode.
  destruct (pipeline_starts_with_download c) as [stages Hs].
  destruct (pipeline c) as [[u|e] st]; simpl in Hs; subst st;
    do 3 eexists; (split; [reflexivity|]); split; reflexivity.
Qed.

Lemma serve_by_processing_runs slug episode_id c w ep :
  cached_rss c = true ->
  original_feed c = true ->
  find_episode episode_id (feed_episodes c) = Some ep ->
  ep_url ep <> EmptyString ->
  exists resp w' stages,
    serve_by_processing slug episode_id c w
    = (resp, w', MarkProcessing :: Download :: stages) /\
    (resp = SendFile slug episode_id \/ resp = Redirect (ep_url ep)) /\
    queue w' = queue w /\
    (forall q,
       serve_by_processing slug episode_id c (mkWorld q (episodes w))
       = (resp, mkWorld q (episodes w'), MarkProcessing :: Download :: stages)).
Proof.
  intros Hrss Hfeed Hep Hurl. unfold serve_by_processing.
  rewrite Hrss, Hfeed, Hep. cbn [negb].
  apply String.eqb_neq in Hurl. rewrite Hurl.
  destruct (process_episode_runs slug episode_id (ep_url ep) c w)
    as (ok & w' & stages & Hp & Hq & Hind).
  rewrite Hp.
  destruct (ok && processed_file_exists_after c)%bool eqn:E.
  - exists (SendFile slug episode_id), w', stages.
    split; [reflexivity|]. split; [now left|]. split; [exact Hq|].
    intro q. rewrite Hind, E. reflexivity.
  - exists (Redirect (ep_url ep)), w', stages.
    split; [reflexivity|]. split; [now right|]. split; [exact Hq|].
    intro q. rewrite Hind, E. reflexivity.
Qed.

(** Under [needs_processing], [serve_episode] is [serve_by_processing]. *)
Lemma serve_episode_needs_processing slug episode_id c w :
  needs_processing slug episode_id c w ->
  forall q,
    serve_episode slug episode_id c (mkWorld q (episodes w))
    = serve_by_processing slug episode_id c (mkWorld q (episodes w)).
Proof.
  intros (Hslug & Hid & Hst & _) q. unfold serve_episode.
  replace (negb (slug_in_FEED_MAP c) &&
           negb (slug_in_FEED_MAP_after_refresh c))%bool with false
    by (destruct Hslug as [-> | ->];
        destruct (slug_in_FEED_MAP c); reflexivity).
  rewrite Hid. cbn [negb episodes].
  destruct (episodes w slug episode_id) as [info|]; [|reflexivity].
  destruct Hst as [-> | [-> ->]]; reflexivity.
Qed.

(** A 503 is answered only for an episode marked as processing, or when
    the original feed cannot be fetched. *)
Lemma serve_episode_503 slug episode_id c w w' stages :
  serve_episode slug episode_id c w = (Abort 503, w', stages) ->
  (exists info, episodes w slug episode_id = Some info /\
                status info = Some "processing"%string) \/
  original_feed c = false.
Proof.
  unfold serve_episode.
  destruct (negb (slug_in_FEED_MAP c) &&
            negb (slug_in_FEED_MAP_after_refresh c))%bool; [discriminate|].
  destruct (negb (episode_id_valid c)); [discriminate|].
  assert (Hsp : forall r w1 st,
            serve_by_processing slug episode_id c w = (r, w1, st) ->
            r = Abort 503 -> original_feed c = false).
  { unfold serve_by_processing. intros r w1 st.
    destruct (cached_rss c); cbn [negb]; [|intro H; now inversion H].
    destruct (original_feed c); cbn [negb]; [|reflexivity].
    destruct (String.eqb _ EmptyString); [intro H; now inversion H|].
    destruct (process_episode _ _ _ _ _) as [[ok w2] st2].
    destruct (ok && _)%bool; intro H; inversion H; subst; discriminate. }
  destruct (episodes w slug episode_id) as [info|] eqn:Hinfo.
  - cbn zeta.
    destruct (status_is (status info) "processed") eqn:E1.
    { destruct (processed_file_exists c); [discriminate|].
      intro H. right. eapply Hsp; [exact H | reflexivity]. }
    destruct (status_is (status info) "failed") eqn:E2.
    { destruct (original_url info) as [url|]; [|discriminate].
      destruct (String.eqb url EmptyString); discriminate. }
    destruct (status_is (status info) "processing") eqn:E3.
    { intros _. left. exists info. split; [reflexivity|].
      unfold status_is in E3. destruct (status info) as [s|]; [|discriminate].
      apply String.eqb_eq in E3. now subst. }
    intro H. right. eapply Hsp; [exact H | reflexivity].
  - cbn. intro H. right. eapply Hsp; [exact H | reflexivity].
Qed.

(** C1, as stated, fails: with the queue held by another job, a request
    for an episode without a record runs the whole pipeline and is
    answered with the processed file, not with a busy response; the queue
    is left exactly as it was. *)
Lemma busy_slot_does_not_stop_processing :
  let busy := ProcessingQueue.mkState true (Some ("other", "ep9")%string)
                (Some 0) in
  let w := mkWorld busy (fun _ _ => None) in
  let c := mkCollaborators true true true false true true
             [mkEpisode "ep1" "http://host/ep1.mp3" (Some "One"%string)]
             false true true (Ok 2%nat) true true in
  fst (ProcessingQueue.is_busy (Some (Some ("other", "ep9")%string)) 10 busy)
    = true /\
  exists w',
    serve_episode "pod" "ep1" c w
    = (SendFile "pod" "ep1", w',
       [MarkProcessing; Download; Transcribe; DetectAds; CutAudio;
        MarkProcessed]) /\
    queue w' = busy.
Proof.
  cbv zeta. split; [reflexivity|].
  eexists. split; reflexivity.
Qed.

(** C1, amended.  For every request whose episode record has no status
    (or is marked processed while the cached file is absent) and whose
    episode the feed lists, the serve path runs the pipeline synchronously
    without consulting the processing queue: the answer is the processed
    file or a redirect to the original URL, it is the same whatever the
    state of the queue, and the queue is left unchanged.  A 503 is
    answered only when the record is marked as processing or the
    original feed cannot be fetched, never because the slot is busy. *)
Theorem serve_path_processes_without_lease slug episode_id c w :
  needs_processing slug episode_id c w ->
  exists resp w' stages url,
    serve_episode slug episode_id c w
    = (resp, w', MarkProcessing :: Download :: stages) /\
    (resp = SendFile slug episode_id \/ resp = Redirect url) /\
    queue w' = queue w /\
    (forall q,
       serve_episode slug episode_id c (mkWorld q (episodes w))
       = (resp, mkWorld q (episodes w'), MarkProcessing :: Download :: stages)) /\
    (forall c0 w0 w1 stages0,
       serve_episode slug episode_id c0 w0 = (Abort 503, w1, stages0) ->
       (exists info, episodes w0 slug episode_id = Some info /\
                     status info = Some "processing"%string) \/
       original_feed c0 = false).
Proof.
  intro H.
  pose proof (serve_episode_needs_processing _ _ _ _ H) as Hserve.
  destruct H as (_ & _ & _ & Hrss & Hfeed & ep & Hep & Hurl).
  destruct (serve_by_processing_runs slug episode_id c w ep Hrss Hfeed Hep Hurl)
    as (resp & w' & stages & Hrun & Hresp & Hq & Hind).
  exists resp, w', stages, (ep_url ep).
  split.
  { specialize (Hserve (queue w)). destruct w as [q eps]. simpl in *.
    rewrite Hserve. exact Hrun. }
  split; [exact Hresp|]. split; [exact Hq|].
  split; [intro q; rewrite Hserve; apply Hind|].
  intros c0 w0 w1 stages0. apply serve_episode_503.
Qed.

Lemma serve_path_processes_without_lease_witness :
  let busy := ProcessingQueue.mkState true (Some ("other", "ep9")%string)
                (Some 0) in
  let w := mkWorld busy (fun _ _ => None) in
  let c := mkCollaborators true true true false true true
             [mkEpisode "ep1" "http://host/ep1.mp3" (Some "One"%string)]
             false true false (Ok 2%nat) true true in
  exists resp w' stages,
    serve_episode "pod" "ep1" c w
    = (resp, w', MarkProcessing :: Download :: stages) /\
    queue w' = busy.
Proof.
  intros busy w c.
  destruct (serve_path_processes_without_lease "pod" "ep1" c w)
    as (resp & w' & stages & url & H1 & _ & H2 & _).
  - unfold needs_processing. simpl.
    repeat split; try (left; reflexivity).
    eexists. split; [reflexivity|]. discriminate.
  - exists resp, w', stages. split; [exact H1 | exact H2].
Defined.

End MainFacts.

(** ** More on the processing queue *)

Module QueueMore.

Import ProcessingQueue.

(** The two shapes of a state in which token and lease are in step. *)
Lemma consistent_shape s :
  consistent s ->
  s = new \/ exists j t, s = mkState true (Some j) (Some t).
Proof.
  destruct s as [l [j|] [t|]]; unfold consistent; simpl; intros [Hl Ht].
  - right. exists j, t. destruct l; [reflexivity|].
    destruct Hl as [_ Hl]. discriminate Hl. discriminate.
  - exfalso. destruct Ht as [_ Ht]. apply Ht; [discriminate | reflexivity].
  - exfalso. destruct Ht as [Ht _]. apply Ht; [discriminate | reflexivity].
  - left. destruct l; [|reflexivity].
    exfalso. destruct Hl as [Hl _]. apply Hl; reflexivity.
Qed.

Lemma reachable_shape s :
  reachable s -> s = new \/ exists j t, s = mkState true (Some j) (Some t).
Proof.
  intro H. apply consistent_shape.
  induction H as [|c s _ IH];
    [exact QueueFacts.consistent_new | now apply QueueFacts.consistent_exec].
Qed.

Lemma job_eqb_eq a b : job_eqb a b = true <-> a = b.
Proof.
  destruct a as [a1 a2], b as [b1 b2]. unfold job_eqb. simpl.
  rewrite andb_true_iff, !String.eqb_eq.
  split; [intros [-> ->]; reflexivity | intro H; now inversion H].
Qed.

(** X1. In every state the queue can reach, [acquire] is refused exactly
    when a holder is recorded whose lease is still inside the window and
    the status service does not report that no job is running; a refused
    [acquire] leaves the state as it was. *)
Theorem acquire_refused_iff_fresh_lease s slug eid timeout sv now t_acq :
  reachable s ->
  (fst (acquire slug eid timeout sv now t_acq s) = false <->
   exists j t,
     _current_episode s = Some j /\ _acquired_at s = Some t /\
     now - t <= MAX_JOB_DURATION /\ sv <> Some None) /\
  (fst (acquire slug eid timeout sv now t_acq s) = false ->
   snd (acquire slug eid timeout sv now t_acq s) = s).
Proof.
  intro H. destruct (reachable_shape _ H) as [-> | (j & t & ->)].
  - split.
    + split; [|intros (j & t & Hj & _); discriminate].
      unfold acquire. simpl. rewrite QueueFacts.sync_new. discriminate.
    + unfold acquire. simpl. rewrite QueueFacts.sync_new. discriminate.
  - destruct (Qgtb (now - t) MAX_JOB_DURATION) eqn:E.
    + (* stale *)
      assert (Hs : _is_stale now (mkState true (Some j) (Some t)) = true)
        by exact E.
      destruct (QueueFacts.stale_calls _ _ Hs) as (_ & _ & Ha).
      rewrite Ha. simpl. split; [|discriminate].
      split; [discriminate|].
      intros (j' & t' & _ & Ht & Hle & _). injection Ht as <-.
      apply Qgtb_gt in E. lra.
    + assert (Hs : _is_stale now (mkState true (Some j) (Some t)) = false)
        by exact E.
      destruct (QueueFacts.fresh_calls now (mkState true (Some j) (Some t)) j
                  eq_refl Hs)
        as (_ & _ & Hkeep & _ & Hfree).
      apply Qgtb_le in E.
      destruct sv as [[cj|]|].
      * rewrite Hkeep by (discriminate || reflexivity). simpl.
        split; [|reflexivity]. split; [|reflexivity].
        intros _. exists j, t. repeat split; [exact E | discriminate].
      * rewrite Hfree. simpl. split; [|discriminate].
        split; [discriminate|]. intros (_ & _ & _ & _ & _ & Hsv). congruence.
      * rewrite Hkeep by (discriminate || reflexivity). simpl.
        split; [|reflexivity]. split; [|reflexivity].
        intros _. exists j, t. repeat split; [exact E | discriminate].
Qed.

Lemma acquire_refused_iff_fresh_lease_witness :
  let s := exec (CallAcquire "pod" "ep1" 0 None 0 0) new in
  fst (acquire "pod" "ep2" 0 None 100 100 s) = false /\
  snd (acquire "pod" "ep2" 0 None 100 100 s) = s.
Proof.
  intro s.
  destruct (acquire_refused_iff_fresh_lease s "pod" "ep2" 0 None 100 100)
    as [Hiff Hkeep].
  - apply reach_call, reach_new.
  - assert (Hf : fst (acquire "pod" "ep2" 0 None 100 100 s) = false).
    { apply Hiff. exists ("pod", "ep1")%string, 0.
      repeat split; [unfold MAX_JOB_DURATION, Qle; simpl; lia | discriminate]. }
    split; [exact Hf | exact (Hkeep Hf)].
Defined.

(** X2. In every state the queue can reach, [is_busy] answers busy
    exactly when an [acquire] made with the same clock reading and the
    same view of the status service would be refused. *)
Theorem is_busy_iff_acquire_refused s slug eid timeout sv now t_acq :
  reachable s ->
  fst (is_busy sv now s)
  = negb (fst (acquire slug eid timeout sv now t_acq s)).
Proof.
  intro H. destruct (reachable_shape _ H) as [-> | (j & t & ->)].
  - unfold is_busy, acquire. simpl. rewrite QueueFacts.sync_new. reflexivity.
  - destruct (_is_stale now (mkState true (Some j) (Some t))) eqn:Hs.
    + destruct (QueueFacts.stale_calls _ _ Hs) as (_ & Hb & Ha).
      rewrite Hb, Ha. reflexivity.
    + destruct (QueueFacts.fresh_calls now (mkState true (Some j) (Some t)) j
                  eq_refl Hs)
        as (_ & Hbusy & Hkeep & Hb0 & Hfree).
      destruct sv as [[cj|]|].
      * rewrite Hbusy, Hkeep by (discriminate || reflexivity). reflexivity.
      * rewrite Hb0, Hfree. reflexivity.
      * rewrite Hbusy, Hkeep by (discriminate || reflexivity). reflexivity.
Qed.

Lemma is_busy_iff_acquire_refused_witness :
  let s := exec (CallAcquire "pod" "ep1" 0 None 0 0) new in
  fst (is_busy None 100 s) = negb (fst (acquire "pod" "ep2" 0 None 100 100 s)).
Proof.
  intro s. apply (is_busy_iff_acquire_refused s "pod" "ep2" 0 None 100 100).
  apply reach_call, reach_new.
Defined.

(** X3. After a granted [acquire] for [(slug, eid)], and for as long as
    the lease is inside the window, [get_current] names that job,
    [is_processing] is true for it and false for every other job, and
    none of these calls changes the state. *)
Theorem granted_lease_is_visible s slug eid timeout sv now t_acq s' now' :
  acquire slug eid timeout sv now t_acq s = (true, s') ->
  now' - t_acq <= MAX_JOB_DURATION ->
  get_current now' s' = (Some (slug, eid), s') /\
  is_processing slug eid now' s' = (true, s') /\
  (forall slug2 eid2,
     (slug2, eid2) <> (slug, eid) ->
     is_processing slug2 eid2 now' s' = (false, s')).
Proof.
  intros Ha Hle.
  assert (Hs' : s' = mkState true (Some (slug, eid)) (Some t_acq)).
  { unfold acquire in Ha.
    destruct (Lock_acquire _ _ _) as [[|] l] eqn:El; [|discriminate].
    unfold Lock_acquire in El.
    destruct (_processing_lock _); [discriminate|].
    injection El as <-. now injection Ha as <-. }
  subst s'.
  assert (Hf : _is_stale now' (mkState true (Some (slug, eid)) (Some t_acq))
               = false).
  { apply (QueueFacts.is_stale_false _ _ (slug, eid) t_acq);
      [reflexivity | reflexivity | exact Hle]. }
  split; [|split].
  - unfold get_current. rewrite (QueueFacts.force_clear_stale_when_fresh _ _ Hf).
    reflexivity.
  - unfold is_processing.
    rewrite (QueueFacts.force_clear_stale_when_fresh _ _ Hf). simpl.
    replace (job_eqb (slug, eid) (slug, eid)) with true; [reflexivity|].
    symmetry. now apply job_eqb_eq.
  - intros slug2 eid2 Hne. unfold is_processing.
    rewrite (QueueFacts.force_clear_stale_when_fresh _ _ Hf). simpl.
    destruct (job_eqb (slug, eid) (slug2, eid2)) eqn:E; [|reflexivity].
    apply job_eqb_eq in E. congruence.
Qed.

Lemma granted_lease_is_visible_witness :
  let s' := mkState true (Some ("pod", "ep1")%string) (Some 5) in
  get_current 1805 s' = (Some ("pod", "ep1")%string, s') /\
  is_processing "pod" "ep1" 1805 s' = (true, s') /\
  (forall slug2 eid2,
     (slug2, eid2) <> ("pod", "ep1")%string ->
     is_processing slug2 eid2 1805 s' = (false, s')).
Proof.
  intro s'.
  apply (granted_lease_is_visible new "pod" "ep1" 0 None 0 5 s' 1805).
  - reflexivity.
  - unfold MAX_JOB_DURATION, Qle; simpl; lia.
Defined.

(** X4. After [release], from any state, the next [acquire] is granted to
    its caller whatever the clock and the status service say, and a
    second [release] changes nothing. *)
Theorem release_frees_slot s slug eid timeout sv now t_acq :
  acquire slug eid timeout sv now t_acq (release s)
  = (true, mkState true (Some (slug, eid)) (Some t_acq)) /\
  release (release s) = release s /\
  get_current now (release s) = (None, release s) /\
  is_busy sv now (release s) = (false, release s).
Proof.
  rewrite !QueueFacts.release_is_unconditional.
  repeat split.
  - unfold acquire. simpl. rewrite QueueFacts.sync_new. reflexivity.
  - unfold is_busy. simpl. rewrite QueueFacts.sync_new. reflexivity.
Qed.

End QueueMore.

(** ** More on the analysis records *)

Module BaseMore.

Import AudioSegmentSignal.

Lemma Qle_bool_ext a b c d : (a <= b <-> c <= d) -> Qle_bool a b = Qle_bool c d.
Proof.
  intro H.
  destruct (Qle_bool a b) eqn:E1, (Qle_bool c d) eqn:E2; try reflexivity.
  - apply Qle_bool_iff in E1. apply H in E1. apply Qle_bool_iff in E1.
    congruence.
  - apply Qle_bool_iff in E2. apply H in E2. apply Qle_bool_iff in E2.
    congruence.
Qed.

(** X5. [overlaps] does not depend on which of the two signals is asked:
    [a.overlaps(b, tolerance) = b.overlaps(a, tolerance)]. *)
Theorem overlaps_symmetric (a b : AudioSegmentSignal.t) (tolerance : Q) :
  overlaps a b tolerance = overlaps b a tolerance.
Proof.
  unfold overlaps, Qgeb. rewrite andb_comm. f_equal.
  - apply Qle_bool_ext. split; intro; lra.
  - apply Qle_bool_ext. split; intro; lra.
Qed.

(** X6. A larger tolerance never loses an overlap, signals whose ranges
    only touch at an end point overlap at tolerance zero, and a signal
    whose start is not after its end overlaps itself. *)
Theorem overlaps_tolerance (a b : AudioSegmentSignal.t) (t t' : Q) :
  t <= t' ->
  (overlaps a b t = true -> overlaps a b t' = true) /\
  (end_ a == start b -> start a <= end_ a -> start b <= end_ b ->
   overlaps a b 0 = true) /\
  (start a <= end_ a -> 0 <= t -> overlaps a a t = true).
Proof.
  intro Ht. unfold overlaps, Qgeb. repeat split.
  - rewrite !andb_true_iff, !Qle_bool_iff. intros [H1 H2]. split; lra.
  - intros E Ha Hb. rewrite andb_true_iff, !Qle_bool_iff. split; lra.
  - intros Ha H0. rewrite andb_true_iff, !Qle_bool_iff. split; lra.
Qed.

Lemma overlaps_tolerance_witness :
  let a := AudioSegmentSignal.mk 0 10 "music_bed" 0.9 [] in
  let b := AudioSegmentSignal.mk 10 20 "monologue" 0.7 [] in
  overlaps a b 0 = true /\ overlaps a a 1 = true.
Proof.
  intros a b.
  destruct (overlaps_tolerance a b 1 2) as (_ & H1 & H2).
  - unfold Qle; simpl; lia.
  - split.
    + apply H1; [reflexivity | |]; unfold Qle; simpl; lia.
    + apply H2; unfold Qle; simpl; lia.
Defined.

(** X7. [get_signals_in_range] keeps the order of the signals and
    returns exactly those whose range meets the open range: each signal
    it returns overlaps the range at tolerance zero, but a signal that
    only touches the range at its start, though it overlaps it, is not
    returned; widening the range never loses a signal. *)
Theorem signals_in_range_open (r : AudioAnalysisResult.t) (lo hi : Q)
    (s : AudioSegmentSignal.t) :
  In s (AudioAnalysisResult.signals r) ->
  (In s (ResultQueries.get_signals_in_range r lo hi) <->
   start s < hi /\ lo < end_ s) /\
  (In s (ResultQueries.get_signals_in_range r lo hi) ->
   forall ty c d, overlaps s (mk lo hi ty c d) 0 = true) /\
  (end_ s == lo -> start s <= hi ->
   ~ In s (ResultQueries.get_signals_in_range r lo hi) /\
   forall ty c d, overlaps s (mk lo hi ty c d) 0 = true) /\
  (forall lo' hi', lo' <= lo -> hi <= hi' ->
     In s (ResultQueries.get_signals_in_range r lo hi) ->
     In s (ResultQueries.get_signals_in_range r lo' hi')).
Proof.
  intro Hs.
  assert (Hiff : forall a b,
            In s (ResultQueries.get_signals_in_range r a b) <->
            start s < b /\ a < end_ s).
  { intros a b. unfold ResultQueries.get_signals_in_range.
    rewrite filter_In, andb_true_iff, Qltb_lt, Qgtb_gt. tauto. }
  split; [apply Hiff|]. split; [|split].
  - intros H ty c d. apply Hiff in H. destruct H as [H1 H2].
    unfold overlaps, Qgeb. simpl.
    rewrite andb_true_iff, !Qle_bool_iff. split; lra.
  - intros E Hle. split.
    + intro H. apply Hiff in H. lra.
    + intros ty c d. unfold overlaps, Qgeb. simpl.
      rewrite andb_true_iff, !Qle_bool_iff. split; lra.
  - intros lo' hi' Hlo Hhi H. apply Hiff. apply Hiff in H. lra.
Qed.

Lemma signals_in_range_open_witness :
  let s := AudioSegmentSignal.mk 0 10 "music_bed" 0.9 [] in
  let r := AudioAnalysisResult.mk [s] None None None 0 [] in
  ~ In s (ResultQueries.get_signals_in_range r 10 20) /\
  overlaps s (mk 10 20 "monologue" 0.5 []) 0 = true.
Proof.
  intros s r.
  destruct (signals_in_range_open r 10 20 s) as (_ & _ & H & _).
  - simpl. now left.
  - destruct H as [H1 H2]; [reflexivity | unfold Qle; simpl; lia |].
    split; [exact H1 | apply H2].
Defined.

(** *** Reading dictionaries with missing keys *)

Lemma dict_find_remove_same key d : dict_find key (dict_remove key d) = None.
Proof.
  induction d as [|[k v] d IH]; [reflexivity|].
  unfold dict_remove in *. simpl.
  destruct (String.eqb k key) eqn:E; simpl; [exact IH|].
  rewrite E. exact IH.
Qed.

Lemma dict_find_remove_other key key' d :
  key <> key' -> dict_find key (dict_remove key' d) = dict_find key d.
Proof.
  intro Hne. induction d as [|[k v] d IH]; [reflexivity|].
  unfold dict_remove in *. simpl.
  destruct (String.eqb k key') eqn:E; simpl.
  - apply String.eqb_eq in E. subst k.
    replace (String.eqb key' key) with false; [exact IH|].
    symmetry. apply String.eqb_neq. congruence.
  - now rewrite IH.
Qed.


(** X9. [AudioAnalysisResult.from_dict] reads an absent, [None] or empty
    [conversation_metrics] entry as no metrics instead of raising, and
    every other absent key as its default. *)
Theorem result_from_dict_defaults :
  (forall r v,
     AudioAnalysisResult.conversation_metrics r = None ->
     truthy v = false ->
     AudioAnalysisResult.from_dict
       (AudioAnalysisResult.to_dict r ++ [("conversation_metrics"%string, v)])
     = Ok r) /\
  (forall r,
     AudioAnalysisResult.from_dict
       (dict_remove "conversation_metrics" (AudioAnalysisResult.to_dict r))
     = Ok (AudioAnalysisResult.mk
             (AudioAnalysisResult.signals r)
             (AudioAnalysisResult.loudness_baseline r)
             (AudioAnalysisResult.speaker_count r)
             None
             (AudioAnalysisResult.analysis_time_seconds r)
             (AudioAnalysisResult.errors r))) /\
  AudioAnalysisResult.from_dict []
  = Ok (AudioAnalysisResult.mk [] None None None 0 []).
Proof.
  split; [|split].
  - intros [sigs lb sc cm ats errs] v Hcm Hv. simpl in Hcm. subst cm.
    unfold AudioAnalysisResult.from_dict, AudioAnalysisResult.to_dict.
    cbn -[mapM truthy]. rewrite BaseFacts.signals_roundtrip.
    cbn -[mapM truthy]. rewrite Hv. cbn -[mapM].
    destruct lb, sc; cbn -[mapM]; rewrite BaseFacts.errors_roundtrip;
      reflexivity.
  - intros [sigs lb sc cm ats errs].
    unfold AudioAnalysisResult.from_dict, AudioAnalysisResult.to_dict.
    destruct cm as [cm|]; cbn -[mapM]; rewrite BaseFacts.signals_roundtrip;
      cbn -[mapM]; destruct lb, sc; cbn -[mapM];
      rewrite BaseFacts.errors_roundtrip; reflexivity.
  - reflexivity.
Qed.

Lemma result_from_dict_defaults_witness :
  let r := AudioAnalysisResult.mk [] (Some (-24)) None None 1 [] in
  AudioAnalysisResult.from_dict
    (AudioAnalysisResult.to_dict r
     ++ [("conversation_metrics"%string, PyDict [])]) = Ok r.
Proof.
  intro r. destruct result_from_dict_defaults as [H _].
  apply H; reflexivity.
Defined.

End BaseMore.

(** ** The frames the measuring loop produces *)

Module FrameFacts.

Import VolumeAnalyzer.

Section Frames.

Variable json_loads : string -> result pyval.
Variable float_of_string : string -> result Q.
Variable ffmpeg : Q -> Q -> result completed.
Variable self : VolumeAnalyzer.t.
Variable total : Q.

Local Abbreviation loop := (measure_loop json_loads float_of_string ffmpeg).
Local Abbreviation fd := (frame_duration self).

(** The windows the loop lays out from time [t] on. *)
Inductive tiles : Q -> list LoudnessFrame.t -> Prop :=
| tiles_done t :
    total <= t \/ py_min fd (total - t) < 1 -> tiles t []
| tiles_frame t loudness peak rest :
    t < total ->
    1 <= py_min fd (total - t) ->
    tiles (t + fd) rest ->
    tiles t (LoudnessFrame.mk t (t + py_min fd (total - t)) loudness peak
             :: rest).

Lemma measure_loop_tiles fuel :
  forall t acc out,
    loop fuel self total t acc = Some (Ok out) ->
    exists new, out = acc ++ new /\ tiles t new.
Proof.
  induction fuel as [|fuel IH]; intros t acc out H; [discriminate|].
  cbn [measure_loop] in H.
  destruct (Qltb t total) eqn:Ht.
  2:{ injection H as <-. exists []. rewrite app_nil_r. split; [reflexivity|].
      constructor. left. now apply Qltb_ge. }
  destruct (Qltb (py_min fd (total - t)) 1) eqn:Hd.
  { injection H as <-. exists []. rewrite app_nil_r. split; [reflexivity|].
    constructor. right. now apply Qltb_lt. }
  destruct (_measure_frame json_loads float_of_string
              (ffmpeg t (py_min fd (total - t)))) as [[l p]|e];
    [|discriminate].
  destruct (IH _ _ _ H) as (new & -> & Hnew).
  eexists. rewrite <- app_assoc. split; [reflexivity|].
  constructor; [now apply Qltb_lt | now apply Qltb_ge | exact Hnew].
Qed.

Lemma py_min_le_l a b : py_min a b <= a.
Proof.
  unfold py_min. destruct (Qltb b a) eqn:E; [|lra].
  apply Qltb_lt in E. lra.
Qed.

Lemma py_min_first a b : a < b -> py_min a b = a.
Proof.
  intro H. unfold py_min.
  replace (Qltb b a) with false; [reflexivity|].
  symmetry. apply Qltb_ge. lra.
Qed.

Lemma tiles_starts t frames :
  tiles t frames ->
  Forall (fun f => t <= LoudnessFrame.start f) frames /\
  starts_increase frames.
Proof.
  induction 1 as [t H | t l p rest Ht Hd _ [IH1 IH2]].
  - split; constructor.
  - destruct (MeasureFacts.py_min_ge _ _ _ Hd) as [Hfd _].
    split.
    + constructor; [simpl; lra|].
      eapply Forall_impl; [|exact IH1]. simpl. intros f Hf. lra.
    + constructor; [exact IH2|].
      eapply Forall_impl; [|exact IH1]. simpl. intros f Hf. lra.
Qed.

Lemma tiles_nth t frames :
  tiles t frames ->
  forall k f,
    nth_error frames k = Some f ->
    LoudnessFrame.start f == t + inject_Z (Z.of_nat k) * fd /\
    LoudnessFrame.end_ f
    = LoudnessFrame.start f + py_min fd (total - LoudnessFrame.start f) /\
    1 <= LoudnessFrame.end_ f - LoudnessFrame.start f /\
    LoudnessFrame.end_ f - LoudnessFrame.start f <= fd /\
    LoudnessFrame.end_ f <= total.
Proof.
  induction 1 as [t H | t l p rest Ht Hd _ IH]; intros k f Hk.
  - destruct k; discriminate.
  - destruct k as [|k]; simpl in Hk.
    + injection Hk as <-. simpl.
      pose proof (py_min_le_l fd (total - t)).
      pose proof (AnomalyFacts.py_min_le_r fd (total - t)).
      split; [change (inject_Z 0) with 0; lra|].
      split; [reflexivity|]. repeat split; lra.
    + destruct (IH _ _ Hk) as (H1 & H2 & H3 & H4 & H5).
      repeat split; try assumption.
      rewrite H1, MeasureFacts.inject_succ. lra.
Qed.

Lemma tiles_contiguous t frames :
  tiles t frames ->
  forall k f g,
    nth_error frames k = Some f -> nth_error frames (S k) = Some g ->
    LoudnessFrame.end_ f = LoudnessFrame.start g.
Proof.
  induction 1 as [t H | t l p rest Ht Hd Hrest IH]; intros k f g Hf Hg.
  - destruct k; discriminate.
  - destruct k as [|k]; simpl in Hf, Hg.
    + injection Hf as <-. simpl.
      inversion Hrest as [? ? | ? l' p' rest' Ht' Hd' Hr']; subst;
        [discriminate|].
      simpl in Hg. injection Hg as <-. simpl.
      rewrite py_min_first by lra. reflexivity.
    + exact (IH _ _ _ Hf Hg).
Qed.

Lemma tiles_covers t frames :
  tiles t frames ->
  1 <= fd ->
  (frames = [] -> total - t < 1) /\
  (forall f, list_last frames = Ok f -> total - 1 < LoudnessFrame.end_ f).
Proof.
  intros H Hfd.
  induction H as [t H | t l p rest Ht Hd Hrest [IH1 IH2]].
  - split; [|intros f Hf; discriminate].
    intros _. destruct H as [H|H]; [lra|].
    unfold py_min in H. destruct (Qltb (total - t) fd); lra.
  - split; [discriminate|].
    intros f Hf.
    destruct rest as [|g rest].
    + unfold list_last in Hf. simpl in Hf. injection Hf as <-. simpl.
      specialize (IH1 eq_refl).
      unfold py_min. destruct (Qltb (total - t) fd) eqn:E; [lra|].
      apply Qltb_ge in E. lra.
    + apply IH2. unfold list_last in *.
      simpl rev in *. 
      destruct (rev rest ++ [g]) as [|x xs] eqn:Er.
      { destruct (rev rest); discriminate. }
      simpl in Hf. exact Hf.
Qed.

Lemma tiles_short_frames t frames : tiles t frames -> fd < 1 -> frames = [].
Proof.
  intros H Hfd. destruct H as [t H | t l p rest Ht Hd _]; [reflexivity|].
  pose proof (py_min_le_l fd (total - t)). lra.
Qed.

End Frames.

(** X10. For every analyzer, duration and behaviour of ffmpeg, the loop
    of [_measure_loudness_frames] ends without raising, and the frames it
    returns are laid end to end from time 0: frame [k] starts at
    [k * frame_duration], lasts between one second and [frame_duration],
    ends no later than the duration, and ends exactly where frame [k+1]
    starts; the starts increase strictly. *)
Theorem measured_frames_are_contiguous json_loads float_of_string ffmpeg
    self total :
  exists frames,
    _measure_loudness_frames json_loads float_of_string ffmpeg self total
    = Some (Ok frames) /\
    starts_increase frames /\
    (forall k f,
       nth_error frames k = Some f ->
       LoudnessFrame.start f
       == inject_Z (Z.of_nat k) * frame_duration self /\
       1 <= LoudnessFrame.end_ f - LoudnessFrame.start f /\
       LoudnessFrame.end_ f - LoudnessFrame.start f <= frame_duration self /\
       LoudnessFrame.end_ f <= total) /\
    (forall k f g,
       nth_error frames k = Some f -> nth_error frames (S k) = Some g ->
       LoudnessFrame.end_ f = LoudnessFrame.start g).
Proof.
  destruct (MeasureFacts.measure_loudness_frames_total json_loads
              float_of_string ffmpeg self total) as [frames H].
  exists frames. split; [exact H|].
  unfold _measure_loudness_frames in H.
  destruct (measure_loop_tiles _ _ _ _ _ _ _ _ _ H) as (new & E & Ht).
  simpl in E. subst new.
  split; [apply (tiles_starts _ _ _ _ Ht)|]. split.
  - intros k f Hk.
    destruct (tiles_nth _ _ _ _ Ht _ _ Hk) as (H1 & _ & H3 & H4 & H5).
    repeat split; try assumption. rewrite H1. lra.
  - exact (tiles_contiguous _ _ _ _ Ht).
Qed.

(** X11. With a [frame_duration] of at least one second, the frames
    cover the audio up to less than one second before its end: no frame
    is measured only when the audio is shorter than one second, and
    otherwise the last frame ends within the last second.  With a
    [frame_duration] below one second no frame is measured at all. *)
Theorem measured_frames_cover_audio json_loads float_of_string ffmpeg
    self total frames :
  _measure_loudness_frames json_loads float_of_string ffmpeg self total
  = Some (Ok frames) ->
  (1 <= frame_duration self ->
   (frames = [] -> total < 1) /\
   (forall f, list_last frames = Ok f ->
              total - 1 < LoudnessFrame.end_ f /\
              LoudnessFrame.end_ f <= total)) /\
  (frame_duration self < 1 -> frames = []).
Proof.
  intro H. unfold _measure_loudness_frames in H.
  destruct (measure_loop_tiles _ _ _ _ _ _ _ _ _ H) as (new & E & Ht).
  simpl in E. subst new.
  split.
  - intro Hfd. destruct (tiles_covers _ _ _ _ Ht Hfd) as [H1 H2].
    split; [intro E; specialize (H1 E); lra|].
    intros f Hf. split; [now apply H2|].
    unfold list_last in Hf.
    destruct (rev frames) as [|x xs] eqn:Er; [discriminate|].
    injection Hf as ->.
    assert (Hin : In f frames).
    { apply in_rev. rewrite Er. now left. }
    apply In_nth_error in Hin. destruct Hin as [k Hk].
    now destruct (tiles_nth _ _ _ _ Ht _ _ Hk) as (_ & _ & _ & _ & H5).
  - exact (tiles_short_frames _ _ _ _ Ht).
Qed.

Lemma measured_frames_cover_audio_witness :
  let json_loads := fun _ : string => Raise (A:=pyval) JSONDecodeError in
  let float_of_string := fun _ : string => Raise (A:=Q) ValueError in
  let ffmpeg := fun _ _ : Q => Raise (A:=completed) TimeoutExpired in
  let frames := [ LoudnessFrame.mk 0 5 (-24) (-1);
                  LoudnessFrame.mk 5 (32 # 5) (-24) (-1) ] in
  _measure_loudness_frames json_loads float_of_string ffmpeg default (32 # 5)
  = Some (Ok frames) /\
  (forall f, list_last frames = Ok f ->
             (32 # 5) - 1 < LoudnessFrame.end_ f /\
             LoudnessFrame.end_ f <= 32 # 5).
Proof.
  intros json_loads float_of_string ffmpeg frames.
  assert (H : _measure_loudness_frames json_loads float_of_string ffmpeg
                default (32 # 5) = Some (Ok frames))
    by (vm_compute; reflexivity).
  split; [exact H|].
  destruct (measured_frames_cover_audio json_loads float_of_string ffmpeg
              default (32 # 5) frames H) as [Hc _].
  assert (Hfd : 1 <= frame_duration default)
    by (unfold default, Qle; simpl; lia).
  exact (proj2 (Hc Hfd)).
Defined.

End FrameFacts.

(** ** More on the anomalies *)

Module AnomalyMore.

Import VolumeAnalyzer.

Lemma sorted_filter {A : Type} (R : A -> A -> Prop) (p : A -> bool) l :
  StronglySorted R l -> StronglySorted R (filter p l).
Proof.
  induction 1 as [|a l Hs IH Ha]; simpl; [constructor|].
  destruct (p a); [|exact IH].
  constructor; [exact IH|].
  rewrite Forall_forall in *. intros x Hx. apply filter_In in Hx.
  apply Ha. tauto.
Qed.

Lemma sorted_map {A B : Type} (R : A -> A -> Prop) (S : B -> B -> Prop)
    (f : A -> B) l :
  (forall x y, R x y -> S (f x) (f y)) ->
  StronglySorted R l -> StronglySorted S (map f l).
Proof.
  intros H. induction 1 as [|a l Hs IH Ha]; simpl; constructor;
    [exact IH|].
  rewrite Forall_forall in *. intros y Hy. apply in_map_iff in Hy.
  destruct Hy as (x & <- & Hx). apply H, Ha, Hx.
Qed.

Section Order.

Variable self : VolumeAnalyzer.t.
Variable baseline : Q.

Local Abbreviation deviates := (AnomalySpec.deviates self baseline).
Local Abbreviation after_run := (AnomalySpec.after_run self baseline).
Local Abbreviation runs := (AnomalySpec.runs self baseline).

Lemma starts_increase_after_run frames :
  starts_increase frames -> starts_increase (after_run frames).
Proof.
  unfold starts_increase.
  induction 1 as [|f frames Hs IH Hf]; simpl; [constructor|].
  destruct (deviates f); [exact IH | now constructor].
Qed.

(** Each run ends before every later run starts. *)
Lemma runs_ordered n :
  forall frames,
    (List.length frames <= n)%nat ->
    starts_increase frames ->
    StronglySorted
      (fun r r' => AnomalySpec.run_end r < AnomalySpec.run_start r')
      (runs frames).
Proof.
  induction n as [|n IH]; intros frames Hn Hs.
  - destruct frames; [|simpl in Hn; lia].
    rewrite AnomalyFacts.runs_nil. constructor.
  - destruct frames as [|f frames];
      [rewrite AnomalyFacts.runs_nil; constructor|].
    simpl in Hn.
    assert (Hs' : starts_increase frames) by (now inversion Hs).
    destruct (deviates f) eqn:Hf.
    + rewrite (AnomalyFacts.runs_cons_loud _ _ _ _ Hf).
      pose proof (AnomalyFacts.after_run_shorter self baseline frames) as Hlen.
      pose proof (starts_increase_after_run _ Hs') as Hsa.
      constructor; [apply IH; [lia | exact Hsa]|].
      destruct (after_run frames) as [|g tail] eqn:Ha.
      * rewrite AnomalyFacts.runs_nil. constructor.
      * pose proof (AnomalyFacts.after_run_head_quiet _ _ _ _ _ Ha) as Hg.
        rewrite (AnomalyFacts.runs_cons_quiet _ _ _ _ Hg).
        rewrite Forall_forall. intros r' Hr'.
        destruct (AnomalyFacts.runs_sound self baseline _ _ _ (le_n _) Hr')
          as (Hin & _).
        unfold AnomalySpec.run_end, AnomalySpec.run_start. simpl.
        inversion Hsa as [|? ? _ Hall]; subst.
        rewrite Forall_forall in Hall. now apply Hall.
    + rewrite (AnomalyFacts.runs_cons_quiet _ _ _ _ Hf).
      apply IH; [lia | exact Hs'].
Qed.

Lemma emitted_ordered frames :
  starts_increase frames ->
  StronglySorted
    (fun s1 s2 => AudioSegmentSignal.end_ s1 < AudioSegmentSignal.start s2)
    (AnomalySpec.emitted self baseline frames).
Proof.
  intro Hs. unfold AnomalySpec.emitted.
  eapply sorted_map; [|apply sorted_filter, (runs_ordered _ _ (le_n _) Hs)].
  intros r r' H. exact H.
Qed.

(** No frame beyond the threshold, no run. *)
Lemma quiet_frames_no_runs frames :
  Forall (fun f => deviates f = false) frames -> runs frames = [].
Proof.
  induction 1 as [|f frames Hf _ IH]; [apply AnomalyFacts.runs_nil|].
  now rewrite (AnomalyFacts.runs_cons_quiet _ _ _ _ Hf).
Qed.

End Order.

(** X12. When the frame starts increase strictly, the signals
    [_find_anomalies] returns are in time order and pairwise disjoint:
    each signal ends before every later signal starts, so no two of them
    overlap at tolerance zero. *)
Theorem anomalies_are_disjoint self frames baseline sigs :
  starts_increase frames ->
  _find_anomalies self frames baseline = Ok sigs ->
  StronglySorted
    (fun s1 s2 =>
       AudioSegmentSignal.end_ s1 < AudioSegmentSignal.start s2 /\
       AudioSegmentSignal.overlaps s1 s2 0 = false /\
       AudioSegmentSignal.overlaps s2 s1 0 = false)
    sigs.
Proof.
  intros Hs H. rewrite AnomalyFacts.find_anomalies_emitted in H.
  injection H as <-.
  eapply StronglySorted_ind with
    (P := fun l => StronglySorted _ l);
    [constructor | | exact (emitted_ordered self baseline frames Hs)].
  intros a l _ IH Ha. constructor; [exact IH|].
  eapply Forall_impl; [|exact Ha]. simpl. intros s2 Hlt.
  split; [exact Hlt|].
  assert (E : AudioSegmentSignal.overlaps a s2 0 = false).
  { unfold AudioSegmentSignal.overlaps.
    apply andb_false_iff. right. apply Qgeb_lt. lra. }
  split; [exact E|]. now rewrite BaseMore.overlaps_symmetric.
Qed.

Lemma anomalies_are_disjoint_witness :
  let frames := example_frames ++
                [ LoudnessFrame.mk 40 45 (-40) (-1);
                  LoudnessFrame.mk 45 50 (-40) (-1);
                  LoudnessFrame.mk 50 55 (-40) (-1) ] in
  exists s1 s2,
    _find_anomalies default frames (-24) = Ok [s1; s2] /\
    AudioSegmentSignal.end_ s1 < AudioSegmentSignal.start s2 /\
    AudioSegmentSignal.overlaps s1 s2 0 = false.
Proof.
  intro frames.
  assert (Hs : starts_increase frames).
  { unfold starts_increase, frames, example_frames. simpl.
    repeat (constructor; [|repeat (constructor; try reflexivity)]).
    constructor. }
  eexists. eexists.
  assert (H : _find_anomalies default frames (-24) = Ok _)
    by (vm_compute; reflexivity).
  split; [exact H|].
  pose proof (anomalies_are_disjoint default frames (-24) _ Hs H) as Hd.
  inversion Hd as [|? ? _ Hall]; subst.
  inversion Hall as [|? ? [H1 [H2 _]] _]; subst.
  split; [exact H1 | exact H2].
Defined.

(** X13. The signals [analyze] returns are in time order and pairwise
    disjoint, whatever ffprobe and ffmpeg do. *)
Theorem analyze_signals_are_disjoint json_loads float_of_string ffmpeg
    self path_exists ffprobe sigs baseline :
  analyze json_loads float_of_string ffmpeg self path_exists ffprobe
  = Some (Ok (sigs, baseline)) ->
  StronglySorted
    (fun s1 s2 =>
       AudioSegmentSignal.end_ s1 < AudioSegmentSignal.start s2 /\
       AudioSegmentSignal.overlaps s1 s2 0 = false /\
       AudioSegmentSignal.overlaps s2 s1 0 = false)
    sigs.
Proof.
  unfold analyze.
  destruct path_exists; cbn [negb];
    [|intro H; injection H as <- _; constructor].
  destruct (_get_duration json_loads float_of_string ffprobe) as [d|];
    [|intro H; injection H as <- _; constructor].
  destruct (Qltb d (frame_duration self));
    [intro H; injection H as <- _; constructor|].
  destruct (FrameFacts.measured_frames_are_contiguous json_loads
              float_of_string ffmpeg self d) as (frames & -> & Hs & _).
  intro H. injection H as H.
  destruct (loudness_values frames) as [|v values] eqn:Hv.
  - rewrite (BaselineFacts.analyze_frames_no_values _ _ Hv) in H.
    injection H as <- _. constructor.
  - destruct (BaselineFacts.middle_exists (loudness_values frames))
      as [b Hb]; [rewrite Hv; discriminate|].
    rewrite (BaselineFacts.analyze_frames_with_values _ _ _ Hb) in H.
    injection H as <- _.
    apply (anomalies_are_disjoint self frames b); [exact Hs|].
    apply AnomalyFacts.find_anomalies_emitted.
Qed.

Lemma analyze_signals_are_disjoint_witness :
  let json_loads := fun _ : string => Ok (PyDict [("format"%string,
                      PyDict [("duration"%string, PyFloat 40)])]) in
  let float_of_string := fun _ : string => Raise (A:=Q) ValueError in
  let ffmpeg := fun _ _ : Q => Raise (A:=completed) TimeoutExpired in
  let ffprobe := Ok (Completed 0 "{}" EmptyString) in
  exists sigs baseline,
    analyze json_loads float_of_string ffmpeg default true ffprobe
    = Some (Ok (sigs, baseline)) /\
    StronglySorted
      (fun s1 s2 =>
         AudioSegmentSignal.end_ s1 < AudioSegmentSignal.start s2 /\
         AudioSegmentSignal.overlaps s1 s2 0 = false /\
         AudioSegmentSignal.overlaps s2 s1 0 = false)
      sigs.
Proof.
  intros json_loads float_of_string ffmpeg ffprobe.
  eexists. eexists.
  assert (H : analyze json_loads float_of_string ffmpeg default true ffprobe
              = Some (Ok (_, _))) by (vm_compute; reflexivity).
  split; [exact H|].
  exact (analyze_signals_are_disjoint _ _ _ _ _ _ _ _ H).
Defined.

(** X14. When no frame deviates from the baseline by more than the
    threshold, [_find_anomalies] returns no signal; in particular audio
    whose frames all have the same loudness above -70 LUFS is analyzed to
    that loudness as baseline and no signal, for any threshold that is
    not negative. *)
Theorem quiet_frames_give_no_signal self frames baseline :
  (forall f, In f frames ->
     Qabs (LoudnessFrame.loudness_lufs f - baseline)
     <= anomaly_threshold_db self) ->
  _find_anomalies self frames baseline = Ok [] /\
  (forall v,
     0 <= anomaly_threshold_db self -> frames <> [] -> -70 < v ->
     (forall f, In f frames -> LoudnessFrame.loudness_lufs f = v) ->
     analyze_frames self frames = Ok ([], Some v)).
Proof.
  intro Hq. split.
  - rewrite AnomalyFacts.find_anomalies_emitted.
    unfold AnomalySpec.emitted. rewrite quiet_frames_no_runs; [reflexivity|].
    rewrite Forall_forall. intros f Hf.
    unfold AnomalySpec.deviates, AnomalySpec.deviation.
    apply Qgtb_le. now apply Hq.
  - intros v Hth Hne Hv Hall.
    destruct (BaselineFacts.middle_exists (loudness_values frames))
      as [b Hb].
    { destruct frames as [|f frames]; [congruence|].
      intro E.
      pose proof (BaselineFacts.loud_frame_has_value (f :: frames) f
                    (or_introl eq_refl)) as Hin.
      rewrite (Hall f (or_introl eq_refl)) in Hin.
      specialize (Hin Hv). rewrite E in Hin. destruct Hin. }
    rewrite (BaselineFacts.analyze_frames_with_values _ _ _ Hb).
    assert (Eb : b = v).
    { destruct (BaselineFacts.middle_is_median _ _ Hb) as [Hin _].
      unfold loudness_values in Hin. apply filter_In in Hin.
      destruct Hin as [Hin _]. apply in_map_iff in Hin.
      destruct Hin as (f & <- & Hf). now apply Hall. }
    subst b. unfold AnomalySpec.emitted.
    rewrite quiet_frames_no_runs; [reflexivity|].
    rewrite Forall_forall. intros f Hf.
    unfold AnomalySpec.deviates, AnomalySpec.deviation.
    apply Qgtb_le. rewrite (Hall f Hf).
    assert (E : v - v == 0) by lra. rewrite E. exact Hth.
Qed.

Lemma quiet_frames_give_no_signal_witness :
  let frames := [ LoudnessFrame.mk 0 5 (-24) (-1);
                  LoudnessFrame.mk 5 10 (-23) (-1);
                  LoudnessFrame.mk 10 15 (-26) (-1) ] in
  _find_anomalies default frames (-24) = Ok [].
Proof.
  intro frames.
  apply (quiet_frames_give_no_signal default frames (-24)).
  intros f [<- | [<- | [<- | []]]]; vm_compute; discriminate.
Defined.

(** X15. Every signal [_find_anomalies] emits is found again by
    [get_signals_by_type] under volume_increase or volume_decrease, and
    under no other type: the two queries together return as many signals
    as were emitted. *)
Theorem anomalies_by_type self frames baseline sigs r :
  _find_anomalies self frames baseline = Ok sigs ->
  AudioAnalysisResult.signals r = sigs ->
  (List.length (ResultQueries.get_signals_by_type r
                  (SignalType.value SignalType.VOLUME_INCREASE))
   + List.length (ResultQueries.get_signals_by_type r
                    (SignalType.value SignalType.VOLUME_DECREASE))
   = List.length sigs)%nat /\
  ResultQueries.get_signals_by_type r (SignalType.value SignalType.MUSIC_BED)
    = [] /\
  ResultQueries.get_signals_by_type r (SignalType.value SignalType.MONOLOGUE)
    = [] /\
  ResultQueries.get_signals_by_type r
    (SignalType.value SignalType.SPEAKER_CHANGE) = [].
Proof.
  intros H Hr. rewrite AnomalyFacts.find_anomalies_emitted in H.
  injection H as <-.
  assert (Hty : Forall
            (fun s => AudioSegmentSignal.signal_type s = "volume_increase"%string
                      \/ AudioSegmentSignal.signal_type s
                         = "volume_decrease"%string)
            (AudioAnalysisResult.signals r)).
  { rewrite Hr. rewrite Forall_forall. intros s Hs.
    now destruct (AnomalyFacts.emitted_well_formed _ _ _ _ Hs)
      as (_ & Ht & _). }
  unfold ResultQueries.get_signals_by_type. rewrite <- Hr.
  generalize dependent (AudioAnalysisResult.signals r). clear.
  intros l _ Hty.
  induction Hty as [|s l Hs _ IH]; [repeat split|].
  destruct IH as (IH1 & IH2 & IH3 & IH4).
  cbn [filter]. rewrite IH2, IH3, IH4.
  destruct Hs as [-> | ->]; cbn -[filter]; repeat split; simpl in *; lia.
Qed.

Lemma anomalies_by_type_witness :
  let r := AudioAnalysisResult.mk [example_signal] (Some (-24)) None None 0 [] in
  (List.length (ResultQueries.get_signals_by_type r "volume_increase")
   + List.length (ResultQueries.get_signals_by_type r "volume_decrease")
   = 1)%nat.
Proof.
  intro r.
  destruct (anomalies_by_type default example_frames (-24) [example_signal] r)
    as [H _]; [vm_compute; reflexivity | reflexivity | exact H].
Defined.

End AnomalyMore.

(** ** More on the serve path *)

Module MainMore.

Import Main.

Lemma save_episode_same w slug eid info :
  episodes (save_episode w slug eid info) slug eid = Some info.
Proof. simpl. now rewrite !String.eqb_refl. Qed.

Lemma save_episode_other w slug eid info s e :
  (s, e) <> (slug, eid) ->
  episodes (save_episode w slug eid info) s e = episodes w s e.
Proof.
  intro Hne. simpl.
  destruct (String.eqb s slug) eqn:E1; [|reflexivity].
  destruct (String.eqb e eid) eqn:E2; [|reflexivity].
  apply String.eqb_eq in E1, E2. congruence.
Qed.

(** X16. The pipeline succeeds exactly when the audio was downloaded, a
    transcript existed or the transcription gave segments, the ad
    detection did not raise and the audio was cut; the transcription is
    run only when no transcript exists, and the audio is cut only after
    the ad detection returned. *)
Theorem pipeline_success_iff c :
  ((exists u, fst (pipeline c) = Ok u) <->
   download_audio c = true /\
   (transcript_exists c = true \/ transcribe c = true) /\
   (exists n, detect_ads c = Ok n) /\
   ffmpeg_process c = true) /\
  (In Transcribe (snd (pipeline c)) <->
   transcript_exists c = false /\ download_audio c = true) /\
  (In CutAudio (snd (pipeline c)) -> exists n, detect_ads c = Ok n) /\
  (In DetectAds (snd (pipeline c)) -> download_audio c = true).
Proof.
  unfold pipeline.
  destruct (transcript_exists c), (download_audio c), (transcribe c),
    (detect_ads c) as [n|e], (ffmpeg_process c); simpl;
    repeat split; intros;
    repeat match goal with
           | H : exists _, _ |- _ => destruct H
           | H : _ /\ _ |- _ => destruct H
           | H : _ \/ _ |- _ => destruct H
           | H : False |- _ => destruct H
           end;
    try discriminate; try congruence; eauto.
Qed.

(** X17. [process_episode] never leaves the processing mark behind: when
    it returns, the episode is recorded as processed if it returned
    [True] and as failed if it returned [False], with the original URL in
    both cases; the entries of all other episodes and the processing
    queue are as before. *)
Theorem process_episode_records_outcome slug eid url c w :
  let '(ok, w', stages) := process_episode slug eid url c w in
  episodes w' slug eid
  = Some (mkInfo (Some (if ok then "processed" else "failed")%string)
            (Some url)) /\
  (forall s e, (s, e) <> (slug, eid) -> episodes w' s e = episodes w s e) /\
  queue w' = queue w /\
  (ok = true <-> exists u, fst (pipeline c) = Ok u) /\
  hd_error stages = Some MarkProcessing /\
  last stages MarkProcessing = (if ok then MarkProcessed else MarkFailed).
Proof.
  unfold process_episode.
  destruct (pipeline c) as [[u|e] st] eqn:Hp; simpl fst.
  - split; [apply save_episode_same|]. split.
    { intros s e Hne. now rewrite !save_episode_other. }
    split; [reflexivity|]. split; [split; [now exists u | reflexivity]|].
    split; [reflexivity|].
    change (MarkProcessing :: st ++ [MarkProcessed])
      with ((MarkProcessing :: st) ++ [MarkProcessed]).
    apply last_last.
  - split; [apply save_episode_same|]. split.
    { intros s e' Hne. now rewrite !save_episode_other. }
    split; [reflexivity|].
    split; [split; [discriminate | intros [u Hu]; discriminate]|].
    split; [reflexivity|].
    change (MarkProcessing :: st ++ [MarkFailed])
      with ((MarkProcessing :: st) ++ [MarkFailed]).
    apply last_last.
Qed.

(** What [serve_episode] answers for an episode with a stored status. *)
Lemma serve_failed slug eid c w url :
  (slug_in_FEED_MAP c = true \/ slug_in_FEED_MAP_after_refresh c = true) ->
  episode_id_valid c = true ->
  episodes w slug eid = Some (mkInfo (Some "failed"%string) (Some url)) ->
  url <> EmptyString ->
  serve_episode slug eid c w = (Redirect url, w, []).
Proof.
  intros Hslug Hid Hinfo Hurl. unfold serve_episode.
  replace (negb (slug_in_FEED_MAP c) &&
           negb (slug_in_FEED_MAP_after_refresh c))%bool with false
    by (destruct Hslug as [-> | ->];
        destruct (slug_in_FEED_MAP c); reflexivity).
  rewrite Hid, Hinfo. cbn.
  apply String.eqb_neq in Hurl. now rewrite Hurl.
Qed.

Lemma serve_processed slug eid c w url :
  (slug_in_FEED_MAP c = true \/ slug_in_FEED_MAP_after_refresh c = true) ->
  episode_id_valid c = true ->
  episodes w slug eid = Some (mkInfo (Some "processed"%string) url) ->
  processed_file_exists c = true ->
  serve_episode slug eid c w = (SendFile slug eid, w, []).
Proof.
  intros Hslug Hid Hinfo Hfile. unfold serve_episode.
  replace (negb (slug_in_FEED_MAP c) &&
           negb (slug_in_FEED_MAP_after_refresh c))%bool with false
    by (destruct Hslug as [-> | ->];
        destruct (slug_in_FEED_MAP c); reflexivity).
  rewrite Hid, Hinfo. cbn. now rewrite Hfile.
Qed.

(** What a request that reaches the pipeline leaves behind. *)
Lemma serve_needs_processing_outcome slug eid c w :
  needs_processing slug eid c w ->
  exists ep,
    find_episode eid (feed_episodes c) = Some ep /\
    ep_url ep <> EmptyString /\
    serve_episode slug eid c w
    = (let '(ok, w', stages) := process_episode slug eid (ep_url ep) c w in
       if (ok && processed_file_exists_after c)%bool
       then (SendFile slug eid, w', stages)
       else (Redirect (ep_url ep), w', stages)).
Proof.
  intro H.
  pose proof (MainFacts.serve_episode_needs_processing _ _ _ _ H (queue w))
    as Hserve.
  destruct H as (_ & _ & _ & Hrss & Hfeed & ep & Hep & Hurl).
  exists ep. split; [exact Hep|]. split; [exact Hurl|].
  destruct w as [q eps]. simpl in Hserve. rewrite Hserve.
  unfold serve_by_processing. rewrite Hrss, Hfeed, Hep. cbn [negb].
  apply String.eqb_neq in Hurl. rewrite Hurl. reflexivity.
Qed.

(** X18. A failure sticks: when a request runs the pipeline and the
    pipeline fails, the request is answered by a redirect to the original
    URL, and every later request for that episode is answered by the same
    redirect without running any stage of the pipeline and without
    changing the stored state. *)
Theorem failed_episode_is_not_retried slug eid c w e resp w1 stages c2 :
  needs_processing slug eid c w ->
  fst (pipeline c) = Raise e ->
  serve_episode slug eid c w = (resp, w1, stages) ->
  (slug_in_FEED_MAP c2 = true \/ slug_in_FEED_MAP_after_refresh c2 = true) ->
  episode_id_valid c2 = true ->
  exists url,
    resp = Redirect url /\
    last stages MarkProcessing = MarkFailed /\
    serve_episode slug eid c2 w1 = (Redirect url, w1, []).
Proof.
  intros Hneed Hfail Hserve Hslug Hid.
  destruct (serve_needs_processing_outcome _ _ _ _ Hneed)
    as (ep & _ & Hurl & Heq).
  rewrite Heq in Hserve.
  pose proof (process_episode_records_outcome slug eid (ep_url ep) c w) as Hrec.
  destruct (process_episode slug eid (ep_url ep) c w) as [[ok w'] st].
  destruct Hrec as (Hinfo & _ & _ & Hok & _ & Hlast).
  assert (ok = false).
  { destruct ok; [|reflexivity].
    destruct (proj1 Hok eq_refl) as [u Hu]. congruence. }
  subst ok. simpl in Hserve. injection Hserve as <- <- <-.
  exists (ep_url ep). split; [reflexivity|]. split; [exact Hlast|].
  now apply serve_failed.
Qed.

Lemma failed_episode_is_not_retried_witness :
  let w := mkWorld ProcessingQueue.new (fun _ _ => None) in
  let c := mkCollaborators true true true false true true
             [mkEpisode "ep1" "http://host/ep1.mp3" None]
             false true true (Raise OSError) true true in
  exists w1 stages,
    serve_episode "pod" "ep1" c w
    = (Redirect "http://host/ep1.mp3", w1, stages) /\
    serve_episode "pod" "ep1" c w1 = (Redirect "http://host/ep1.mp3", w1, []).
Proof.
  intros w c.
  destruct (serve_episode "pod" "ep1" c w) as [[resp w1] stages] eqn:E.
  destruct (failed_episode_is_not_retried "pod" "ep1" c w OSError resp w1
              stages c) as (url & -> & _ & H2).
  - unfold needs_processing. simpl.
    repeat split; try (left; reflexivity).
    eexists. split; [reflexivity|]. discriminate.
  - reflexivity.
  - exact E.
  - left. reflexivity.
  - reflexivity.
  - exists w1, stages.
    assert (url = "http://host/ep1.mp3"%string).
    { vm_compute in E. now injection E as <- _ _. }
    subst url. split; [reflexivity | exact H2].
Defined.

(** X19. After a request has run the pipeline with success, every later
    request for that episode that finds the processed file is answered
    with the file, without running any stage of the pipeline and without
    changing the stored state. *)
Theorem processed_episode_is_served_from_cache slug eid c w u resp w1 stages
    c2 :
  needs_processing slug eid c w ->
  fst (pipeline c) = Ok u ->
  serve_episode slug eid c w = (resp, w1, stages) ->
  (slug_in_FEED_MAP c2 = true \/ slug_in_FEED_MAP_after_refresh c2 = true) ->
  episode_id_valid c2 = true ->
  processed_file_exists c2 = true ->
  last stages MarkProcessing = MarkProcessed /\
  (processed_file_exists_after c = true -> resp = SendFile slug eid) /\
  serve_episode slug eid c2 w1 = (SendFile slug eid, w1, []).
Proof.
  intros Hneed Hgood Hserve Hslug Hid Hfile.
  destruct (serve_needs_processing_outcome _ _ _ _ Hneed)
    as (ep & _ & Hurl & Heq).
  rewrite Heq in Hserve.
  pose proof (process_episode_records_outcome slug eid (ep_url ep) c w) as Hrec.
  destruct (process_episode slug eid (ep_url ep) c w) as [[ok w'] st].
  destruct Hrec as (Hinfo & _ & _ & Hok & _ & Hlast).
  assert (ok = true) by (apply Hok; now exists u).
  subst ok. simpl in Hserve.
  assert (Hw : w1 = w' /\ stages = st).
  { destruct (processed_file_exists_after c);
      injection Hserve as _ <- <-; split; reflexivity. }
  destruct Hw as [-> ->].
  split; [exact Hlast|]. split.
  - intro Hafter. rewrite Hafter in Hserve. congruence.
  - eapply serve_processed; eassumption.
Qed.

Lemma processed_episode_is_served_from_cache_witness :
  let w := mkWorld ProcessingQueue.new (fun _ _ => None) in
  let c := mkCollaborators true true true true true true
             [mkEpisode "ep1" "http://host/ep1.mp3" None]
             false true true (Ok 1%nat) true true in
  exists w1 stages,
    serve_episode "pod" "ep1" c w = (SendFile "pod" "ep1", w1, stages) /\
    serve_episode "pod" "ep1" c w1 = (SendFile "pod" "ep1", w1, []).
Proof.
  intros w c.
  destruct (serve_episode "pod" "ep1" c w) as [[resp w1] stages] eqn:E.
  destruct (processed_file_exists_after c) eqn:Hafter; [|discriminate].
  destruct (processed_episode_is_served_from_cache "pod" "ep1" c w tt resp w1
              stages c) as (_ & H1 & H2).
  - unfold needs_processing. simpl.
    repeat split; try (left; reflexivity).
    eexists. split; [reflexivity|]. discriminate.
  - reflexivity.
  - exact E.
  - left. reflexivity.
  - reflexivity.
  - reflexivity.
  - exists w1, stages. rewrite (H1 Hafter). split; [reflexivity | exact H2].
Defined.


End MainMore.

(** ** The ad detector *)

Module AdFacts.

Import AdDetector.

Section Detector.

Variable json_loads : string -> result pyval.
Variable float_of_string : string -> result Q.
Variable str_of_exn : exn -> string.
Variable initialize_client : result unit.
Variable create : result (option string).

Local Abbreviation validate := (AdDetector.validate float_of_string).
Local Abbreviation parse :=
  (AdDetector.parse_response json_loads float_of_string str_of_exn).
Local Abbreviation detect :=
  (AdDetector.detect_ads json_loads float_of_string str_of_exn
     initialize_client create).
Local Abbreviation process :=
  (AdDetector.process_transcript json_loads float_of_string str_of_exn
     initialize_client create).

(** What [validate] keeps. *)
Lemma validate_valid ads valid :
  validate ads = Ok valid ->
  Forall valid_ad valid /\
  List.length valid = List.length (filter is_ad_entry ads).
Proof.
  revert valid. induction ads as [|ad ads IH]; intros valid H.
  - injection H as <-. split; [constructor | reflexivity].
  - cbn [AdDetector.validate filter] in *.
    destruct (is_ad_entry ad); [|now apply IH].
    destruct (py_subscript "start" ad) as [vs|]; [|discriminate].
    cbn [bind] in H.
    destruct (VolumeAnalyzer.py_float float_of_string vs) as [s|];
      [|discriminate].
    cbn [bind] in H.
    destruct (py_subscript "end" ad) as [ve|]; [|discriminate].
    cbn [bind] in H.
    destruct (VolumeAnalyzer.py_float float_of_string ve) as [e|];
      [|discriminate].
    cbn [bind] in H.
    destruct (py_get "reason" _ ad) as [reason|]; [|discriminate].
    cbn [bind] in H.
    destruct (validate ads) as [rest|]; [|discriminate].
    cbn [bind] in H. injection H as <-.
    destruct (IH rest eq_refl) as [IH1 IH2].
    split; [|simpl; now rewrite IH2].
    constructor; [|exact IH1]. now exists s, e, reason.
Qed.

Lemma valid_ads_have_durations ads :
  Forall valid_ad ads -> exists ds, mapM ad_duration ads = Ok ds.
Proof.
  induction 1 as [|ad ads (s & e & r & ->) _ [ds IH]].
  - now exists [].
  - exists ((e - s) :: ds). cbn [mapM]. rewrite IH. reflexivity.
Qed.

(** The shape of everything [parse_response] returns. *)
Lemma parse_response_shape text v :
  parse text = Ok (Some v) ->
  exists ads rest,
    v = PyDict (("ads"%string, PyList ads) :: rest) /\ Forall valid_ad ads.
Proof.
  unfold AdDetector.parse_response.
  destruct ((find "[" text >=? 0)%Z && (rfind "]" text + 1 >? find "[" text)%Z)%bool.
  - destruct (json_loads _) as [a|e]; cbn [bind].
    + destruct a; try discriminate.
      destruct (validate l) as [valid|e] eqn:Hv; cbn [bind].
      * intro H. injection H as <-.
        exists valid. eexists. split; [reflexivity|].
        now destruct (validate_valid _ _ Hv).
      * destruct e; try discriminate.
        intro H. injection H as <-. exists []. eexists.
        split; [reflexivity | constructor].
    + destruct e; try discriminate.
      intro H. injection H as <-. exists []. eexists.
      split; [reflexivity | constructor].
  - intro H. injection H as <-. exists []. eexists.
    split; [reflexivity | constructor].
Qed.

Lemma process_shape self segments :
  no_key self = false ->
  exists ads rest,
    process self segments = PyDict (("ads"%string, PyList ads) :: rest) /\
    Forall valid_ad ads.
Proof.
  intro Hk. unfold AdDetector.process_transcript, AdDetector.detect_ads.
  rewrite Hk.
  destruct (_ <- initialize_client ;; _) as [[v|]|e] eqn:Hb.
  - unfold bind in Hb.
    destruct initialize_client; [|discriminate].
    destruct (mapM _ segments); [|discriminate].
    destruct create as [response|]; [|discriminate].
    destruct (parse_response_shape _ _ Hb) as (ads & rest & -> & Hv).
    now exists ads, rest.
  - exists []. eexists. split; [reflexivity | constructor].
  - exists []. eexists. split; [reflexivity | constructor].
Qed.

End Detector.

(** X21. With an API key, [process_transcript] never raises and always
    returns a dictionary whose first entry is ["ads"], a list in which
    every item has exactly a float [start], a float [end] and a
    [reason]; [process_episode] can then take the ads, add up their
    lengths and count them without an exception. *)
Theorem process_transcript_returns_valid_ads json_loads float_of_string
    str_of_exn initialize_client create self segments :
  no_key self = false ->
  exists ads rest,
    process_transcript json_loads float_of_string str_of_exn
      initialize_client create self segments
    = PyDict (("ads"%string, PyList ads) :: rest) /\
    Forall valid_ad ads /\
    ads_removed
      (process_transcript json_loads float_of_string str_of_exn
         initialize_client create self segments)
    = Ok (List.length ads).
Proof.
  intro Hk.
  destruct (process_shape json_loads float_of_string str_of_exn
              initialize_client create self segments Hk)
    as (ads & rest & E & Hv).
  exists ads, rest. split; [exact E|]. split; [exact Hv|].
  rewrite E. unfold ads_removed. cbn.
  destruct (valid_ads_have_durations _ Hv) as [ds ->]. reflexivity.
Qed.

Lemma process_transcript_returns_valid_ads_witness :
  let json_loads := fun _ : string =>
    Ok (PyList [ PyDict [("start", PyInt 0); ("end", PyFloat 30)]%string;
                 PyStr "noise";
                 PyDict [("start", PyFloat 5)]%string ]) in
  let float_of_string := fun _ : string => Raise (A:=Q) ValueError in
  let str_of_exn := fun _ : exn => "error"%string in
  exists rest,
    process_transcript json_loads float_of_string str_of_exn (Ok tt)
      (Ok (Some "ads: [...]"%string)) (mk (Some "key"%string)) []
    = PyDict (("ads"%string,
               PyList [ PyDict [ ("start", PyFloat (inject_Z 0));
                                 ("end", PyFloat 30);
                                 ("reason", PyStr "Advertisement detected")
                               ]%string ]) :: rest).
Proof.
  intros json_loads float_of_string str_of_exn.
  destruct (process_transcript_returns_valid_ads json_loads float_of_string
              str_of_exn (Ok tt) (Ok (Some "ads: [...]"%string))
              (mk (Some "key"%string)) [] eq_refl)
    as (ads & rest & E & _ & _).
  exists rest. rewrite E. f_equal. f_equal.
  vm_compute in E. now injection E as <- _.
Defined.

(** X22. Without an API key, [detect_ads] returns the empty list and
    [process_transcript] hands it on as it is: a list, not a dictionary.
    Reading the ads from it, as [process_episode] does with
    [ad_result.get('ads', [])], raises [AttributeError], so for every
    request whose ad detection is this call the pipeline fails and the
    episode is recorded as failed. *)
Theorem no_api_key_fails_the_episode json_loads float_of_string str_of_exn
    initialize_client create self segments c slug eid url w :
  no_key self = true ->
  Main.detect_ads c
  = ads_removed
      (process_transcript json_loads float_of_string str_of_exn
         initialize_client create self segments) ->
  process_transcript json_loads float_of_string str_of_exn
    initialize_client create self segments = PyList [] /\
  Main.detect_ads c = Raise AttributeError /\
  fst (fst (Main.process_episode slug eid url c w)) = false /\
  Main.episodes (snd (fst (Main.process_episode slug eid url c w))) slug eid
  = Some (Main.mkInfo (Some "failed"%string) (Some url)).
Proof.
  intros Hk Hd.
  assert (E : process_transcript json_loads float_of_string str_of_exn
                initialize_client create self segments = PyList []).
  { unfold process_transcript, detect_ads. now rewrite Hk. }
  rewrite E in Hd. change (Main.detect_ads c = Raise AttributeError) in Hd.
  split; [exact E|]. split; [exact Hd|].
  pose proof (MainMore.process_episode_records_outcome slug eid url c w) as Hr.
  destruct (Main.process_episode slug eid url c w) as [[ok w'] st].
  destruct Hr as (Hinfo & _ & _ & Hok & _).
  assert (ok = false).
  { destruct ok; [|reflexivity].
    destruct (proj1 Hok eq_refl) as [u Hu].
    destruct (proj1 (proj1 (MainMore.pipeline_success_iff c))
                (ex_intro _ u Hu)) as (_ & _ & [n Hn] & _).
    congruence. }
  subst ok. split; [reflexivity | exact Hinfo].
Qed.

Lemma no_api_key_fails_the_episode_witness :
  let json_loads := fun _ : string => Raise (A:=pyval) JSONDecodeError in
  let float_of_string := fun _ : string => Raise (A:=Q) ValueError in
  let str_of_exn := fun _ : exn => "error"%string in
  let c := Main.mkCollaborators true true true false true true []
             false true true (Raise AttributeError) true true in
  let w := Main.mkWorld ProcessingQueue.new (fun _ _ => None) in
  fst (fst (Main.process_episode "pod" "ep1" "http://host/ep1.mp3" c w))
  = false.
Proof.
  intros json_loads float_of_string str_of_exn c w.
  destruct (no_api_key_fails_the_episode json_loads float_of_string
              str_of_exn (Ok tt) (Ok None) (mk None) [] c
              "pod" "ep1" "http://host/ep1.mp3" w)
    as (_ & _ & H & _); [reflexivity | reflexivity | exact H].
Defined.

(** X23. With an API key, every failure before the answer is parsed
    (the client cannot be built, a segment lacks [start], [end] or
    [text] or has a time that cannot be formatted, the API call raises)
    ends in the dictionary with no ads and the text of the exception
    under ["error"]; an answer from which no JSON array can be cut
    gives no ads and the error ["No JSON found"]. *)
Theorem detection_failures_give_no_ads json_loads float_of_string str_of_exn
    initialize_client create self segments e :
  no_key self = false ->
  (initialize_client = Raise e \/
   (initialize_client = Ok tt /\
    mapM transcript_line segments = Raise e) \/
   (initialize_client = Ok tt /\
    (exists u, mapM transcript_line segments = Ok u) /\
    create = Raise e)) ->
  process_transcript json_loads float_of_string str_of_exn
    initialize_client create self segments
  = PyDict [ ("ads", PyList []); ("error", PyStr (str_of_exn e)) ]%string /\
  (forall text,
     (find "[" text < 0 \/ rfind "]" text + 1 <= find "[" text)%Z ->
     parse_response json_loads float_of_string str_of_exn text
     = Ok (Some (PyDict [ ("ads", PyList []);
                          ("raw_response", PyStr text);
                          ("error", PyStr "No JSON found") ]%string))).
Proof.
  intros Hk H. split.
  - unfold process_transcript, detect_ads. rewrite Hk.
    destruct H as [-> | [[-> ->] | (-> & [u ->] & ->)]]; reflexivity.
  - intros text Ht. unfold parse_response.
    replace ((find "[" text >=? 0)%Z &&
             (rfind "]" text + 1 >? find "[" text)%Z)%bool with false;
      [reflexivity|].
    symmetry. apply andb_false_iff. destruct Ht; [left | right]; lia.
Qed.

Lemma detection_failures_give_no_ads_witness :
  let json_loads := fun _ : string => Raise (A:=pyval) JSONDecodeError in
  let float_of_string := fun _ : string => Raise (A:=Q) ValueError in
  let str_of_exn := fun _ : exn => "boom"%string in
  process_transcript json_loads float_of_string str_of_exn (Ok tt)
    (Ok None) (mk (Some "key"%string))
    [ [("start", PyFloat 0); ("text", PyStr "hello")]%string ]
  = PyDict [ ("ads", PyList []); ("error", PyStr "boom") ]%string.
Proof.
  intros json_loads float_of_string str_of_exn.
  destruct (detection_failures_give_no_ads json_loads float_of_string
              str_of_exn (Ok tt) (Ok None) (mk (Some "key"%string))
              [ [("start", PyFloat 0); ("text", PyStr "hello")]%string ]
              (KeyError "end")) as [H _].
  - reflexivity.
  - right. left. split; reflexivity.
  - exact H.
Defined.

(** X24. The validation keeps, in order, one ad for each item that is a
    dictionary with both [start] and [end], and drops the others without
    a trace; but one such item whose [start] or [end] cannot be turned
    into a float makes the whole validation raise, so that all ads of the
    answer are lost. *)
Theorem validation_keeps_or_loses_all float_of_string ads ad before after e :
  ads = before ++ ad :: after ->
  is_ad_entry ad = true ->
  (forall valid,
     validate float_of_string ads = Ok valid ->
     Forall valid_ad valid /\
     List.length valid = List.length (filter is_ad_entry ads) /\
     (1 <= List.length valid <= List.length ads)%nat) /\
  ((v <- py_subscript "start" ad ;;
    VolumeAnalyzer.py_float float_of_string v) = Raise e ->
   (exists valid, validate float_of_string before = Ok valid) ->
   validate float_of_string ads = Raise e).
Proof.
  intros -> Had. split.
  - intros valid H.
    destruct (validate_valid _ _ _ H) as [H1 H2].
    split; [exact H1|]. split; [exact H2|].
    rewrite H2, filter_app, !length_app. cbn [filter]. rewrite Had.
    pose proof (filter_length_le is_ad_entry before).
    pose proof (filter_length_le is_ad_entry after).
    simpl. lia.
  - intros Hraise [valid Hb].
    revert valid Hb. induction before as [|b before IH]; intros valid Hb.
    + cbn [app validate]. rewrite Had.
      unfold bind in *.
      destruct (py_subscript "start" ad) as [v|];
        [|now injection Hraise as ->].
      now rewrite Hraise.
    + cbn [app validate] in *.
      destruct (is_ad_entry b); [|now apply (IH valid)].
      unfold bind in *.
      destruct (py_subscript "start" b); [|discriminate].
      destruct (VolumeAnalyzer.py_float float_of_string a); [|discriminate].
      destruct (py_subscript "end" b); [|discriminate].
      destruct (VolumeAnalyzer.py_float float_of_string a1); [|discriminate].
      destruct (py_get "reason" _ b); [|discriminate].
      destruct (validate float_of_string before) as [rest|] eqn:Hrest;
        [|discriminate].
      now rewrite (IH rest eq_refl).
Qed.

Lemma validation_keeps_or_loses_all_witness :
  let float_of_string := fun _ : string => Raise (A:=Q) ValueError in
  validate float_of_string
    [ PyDict [("start", PyFloat 0); ("end", PyFloat 30)]%string;
      PyDict [("start", PyStr "soon"); ("end", PyFloat 90)]%string ]
  = Raise ValueError.
Proof.
  intro float_of_string.
  destruct (validation_keeps_or_loses_all float_of_string
              [ PyDict [("start", PyFloat 0); ("end", PyFloat 30)]%string;
                PyDict [("start", PyStr "soon"); ("end", PyFloat 90)]%string ]
              (PyDict [("start", PyStr "soon"); ("end", PyFloat 90)]%string)
              [ PyDict [("start", PyFloat 0); ("end", PyFloat 30)]%string ]
              [] ValueError eq_refl eq_refl) as [_ H].
  apply H; [reflexivity|]. eexists. reflexivity.
Defined.

End AdFacts.

(** ** Cutting the JSON out of a text *)

Module TextFacts.

Local Open Scope string_scope.

Lemma append_assoc (a b c : string) : (a ++ b) ++ c = a ++ (b ++ c).
Proof. induction a as [|x a IH]; simpl; [reflexivity | now rewrite IH]. Qed.

Lemma find_from_skip c p s i :
  occurs c p = false ->
  find_from c (p ++ s) i = find_from c s (i + Z.of_nat (String.length p))%Z.
Proof.
  revert i. induction p as [|a p IH]; intros i H; simpl in *.
  - f_equal. lia.
  - destruct (Ascii.eqb a c); [discriminate|].
    rewrite (IH _ H). f_equal. lia.
Qed.

Lemma rfind_from_absent c s i acc :
  occurs c s = false -> rfind_from c s i acc = acc.
Proof.
  revert i. induction s as [|a s IH]; intros i H; simpl in *; [reflexivity|].
  destruct (Ascii.eqb a c); [discriminate|]. now apply IH.
Qed.

Lemma rfind_from_app c s1 s2 i acc :
  rfind_from c (s1 ++ s2) i acc
  = rfind_from c s2 (i + Z.of_nat (String.length s1))%Z (rfind_from c s1 i acc).
Proof.
  revert i acc. induction s1 as [|a s1 IH]; intros i acc; simpl.
  - f_equal. lia.
  - rewrite IH. f_equal. lia.
Qed.

Lemma find_cut c p s :
  occurs c p = false ->
  find c (p ++ String c s) = Z.of_nat (String.length p).
Proof.
  intro H. unfold find. rewrite (find_from_skip _ _ _ _ H). simpl.
  now rewrite Ascii.eqb_refl.
Qed.

Lemma rfind_cut c s q :
  occurs c q = false ->
  rfind c (s ++ String c q) = Z.of_nat (String.length s).
Proof.
  intro H. unfold rfind. rewrite rfind_from_app. simpl.
  rewrite Ascii.eqb_refl. now rewrite (rfind_from_absent _ _ _ _ H).
Qed.

Lemma substring_skip p s m :
  substring (String.length p) m (p ++ s) = substring 0 m s.
Proof. induction p as [|a p IH]; simpl; [reflexivity | exact IH]. Qed.

Lemma substring_prefix b q : substring 0 (String.length b) (b ++ q) = b.
Proof.
  induction b as [|a b IH]; simpl.
  - destruct q; reflexivity.
  - now rewrite IH.
Qed.

Lemma length_append a b :
  String.length (a ++ b) = (String.length a + String.length b)%nat.
Proof. induction a as [|x a IH]; simpl; [reflexivity | now rewrite IH]. Qed.

(** The text between an opening character found by [find] or [rfind] and
    the last closing character. *)
Lemma slice_cut text p inner q (open_ close : ascii) start_idx :
  text = p ++ String open_ (inner ++ String close q) ->
  occurs close q = false ->
  start_idx = Z.of_nat (String.length p) ->
  (start_idx >=? 0)%Z = true /\
  (rfind close text + 1 >? start_idx)%Z = true /\
  slice text start_idx (rfind close text + 1)
  = String open_ (inner ++ String close EmptyString).
Proof.
  intros -> Hq ->.
  assert (E : p ++ String open_ (inner ++ String close q)
              = (p ++ String open_ inner) ++ String close q).
  { rewrite append_assoc. reflexivity. }
  assert (Hr : rfind close (p ++ String open_ (inner ++ String close q))
               = Z.of_nat (String.length (p ++ String open_ inner))).
  { rewrite E. now apply rfind_cut. }
  rewrite Hr, length_append. simpl String.length.
  split; [rewrite Z.geb_leb; apply Z.leb_le; lia|].
  split; [rewrite Z.gtb_ltb; apply Z.ltb_lt; lia|].
  unfold slice. rewrite Nat2Z.id.
  replace (Z.to_nat (Z.of_nat (String.length p + S (String.length inner)) + 1
                     - Z.of_nat (String.length p)))
    with (String.length (String open_ (inner ++ String close EmptyString))).
  2:{ simpl. rewrite length_append. simpl. lia. }
  rewrite substring_skip.
  change (String open_ (inner ++ String close q))
    with (String open_ inner ++ String close q).
  replace (String open_ inner ++ String close q)
    with ((String open_ (inner ++ String close EmptyString)) ++ q).
  - apply substring_prefix.
  - simpl. rewrite append_assoc. reflexivity.
Qed.

(** X25. [detect_ads] cuts the JSON array out of the answer from the
    first ["["] to the last ["]"]: whatever text without ["["] precedes
    the array and whatever text without ["]"] follows it, the array alone
    is parsed, and when it parses to a list the valid ads of that list
    are returned together with the whole answer and the model name. *)
Theorem json_array_is_cut_out json_loads float_of_string str_of_exn
    p inner q ads valid :
  occurs "[" p = false ->
  occurs "]" q = false ->
  json_loads (String "[" (inner ++ String "]" EmptyString)) = Ok (PyList ads) ->
  AdDetector.validate float_of_string ads = Ok valid ->
  let text := p ++ String "[" (inner ++ String "]" q) in
  slice text (find "[" text) (rfind "]" text + 1)
  = String "[" (inner ++ String "]" EmptyString) /\
  AdDetector.parse_response json_loads float_of_string str_of_exn text
  = Ok (Some (PyDict [ ("ads", PyList valid);
                       ("raw_response", PyStr text);
                       ("model", PyStr AdDetector.MODEL) ])).
Proof.
  intros Hp Hq Hj Hv text.
  destruct (slice_cut text p inner q "[" "]" (find "[" text) eq_refl Hq)
    as (H1 & H2 & H3).
  { unfold text. now apply find_cut. }
  split; [exact H3|].
  unfold AdDetector.parse_response. fold text.
  rewrite H1, H2, H3, Hj. cbn [andb bind]. rewrite Hv. reflexivity.
Qed.

Lemma json_array_is_cut_out_witness :
  let json_loads := fun s : string =>
    if String.eqb s "[{}]" then Ok (PyList [PyDict []])
    else Raise JSONDecodeError in
  let float_of_string := fun _ : string => Raise (A:=Q) ValueError in
  let str_of_exn := fun _ : exn => "error" in
  AdDetector.parse_response json_loads float_of_string str_of_exn
    "Here are the ads: [{}] (none valid)"
  = Ok (Some (PyDict [ ("ads", PyList []);
                       ("raw_response",
                        PyStr "Here are the ads: [{}] (none valid)");
                       ("model", PyStr AdDetector.MODEL) ])).
Proof.
  intros json_loads float_of_string str_of_exn.
  destruct (json_array_is_cut_out json_loads float_of_string str_of_exn
              "Here are the ads: " "{}" " (none valid)" [PyDict []] [])
    as [_ H]; [reflexivity | reflexivity | reflexivity | reflexivity |].
  exact H.
Defined.

(** X26. [_measure_frame] cuts the JSON object out of what ffmpeg wrote
    from the last opening brace to the last closing brace: when the
    output ends with one flat object, whatever precedes it, and that
    object holds [input_i] and [input_tp], the measured loudness and peak
    are exactly their float values; a missing [input_i] is read as -24
    and a missing [input_tp] as -1, each on its own. *)
Theorem measured_values_are_returned json_loads float_of_string
    rc out p inner q d loudness peak :
  occurs "{" inner = false ->
  occurs "{" q = false ->
  occurs "}" q = false ->
  json_loads (String "{" (inner ++ String "}" EmptyString)) = Ok (PyDict d) ->
  VolumeAnalyzer.py_float float_of_string (dict_get "input_i" (PyInt (-24)) d)
    = Ok loudness ->
  VolumeAnalyzer.py_float float_of_string (dict_get "input_tp" (PyInt (-1)) d)
    = Ok peak ->
  VolumeAnalyzer._measure_frame json_loads float_of_string
    (Ok (Completed rc out (p ++ String "{" (inner ++ String "}" q))))
  = Ok (loudness, peak) /\
  (dict_find "input_i" d = None -> loudness = inject_Z (-24)) /\
  (dict_find "input_tp" d = None -> peak = inject_Z (-1)).
Proof.
  intros Hi Hq1 Hq2 Hj Hl Hp.
  set (text := p ++ String "{" (inner ++ String "}" q)).
  assert (Hstart : rfind "{" text = Z.of_nat (String.length p)).
  { unfold text. apply rfind_cut. simpl.
    clear - Hi Hq1. induction inner as [|a s IH]; simpl in *.
    - exact Hq1.
    - destruct (Ascii.eqb a "{"); [discriminate | now apply IH]. }
  destruct (slice_cut text p inner q "{" "}" (rfind "{" text) eq_refl Hq2 Hstart)
    as (H1 & H2 & H3).
  split.
  - unfold VolumeAnalyzer._measure_frame, VolumeAnalyzer.measure_frame_try.
    cbn [bind stderr]. fold text.
    rewrite H1, H2, H3, Hj. cbn [andb bind py_get].
    rewrite Hl. cbn [bind]. rewrite Hp. reflexivity.
  - split; intro Hn.
    + unfold dict_get in Hl. rewrite Hn in Hl. simpl in Hl. congruence.
    + unfold dict_get in Hp. rewrite Hn in Hp. simpl in Hp. congruence.
Qed.

Lemma measured_values_are_returned_witness :
  let json_loads := fun s : string =>
    Ok (PyDict [("input_i", PyFloat (-23))]) in
  let float_of_string := fun _ : string => Raise (A:=Q) ValueError in
  VolumeAnalyzer._measure_frame json_loads float_of_string
    (Ok (Completed 0 EmptyString "[Parsed_loudnorm_0] {...}"))
  = Ok (-23, inject_Z (-1)).
Proof.
  intros json_loads float_of_string.
  destruct (measured_values_are_returned json_loads float_of_string
              0%Z EmptyString "[Parsed_loudnorm_0] " "..." EmptyString
              [("input_i", PyFloat (-23))] (-23) (inject_Z (-1)))
    as [H _];
    [reflexivity | reflexivity | reflexivity | reflexivity | reflexivity
    | reflexivity |].
  exact H.
Defined.

End TextFacts.
